(** * pomelo2-globalchannel: the channel-membership registry

    A shallow embedding of [ChannelManager] and [ChannelService], the
    registry with the [c#], [s#] and [u#] key families that
    [typings/globalchannel.d.ts] declares, over a model of the Redis
    keyspace it talks to through an ioredis client.

    - [Redis]: the keyspace, one kind of value per key, and the commands the
      registry sends with the replies Redis gives; a command on a key that
      holds the other kind of value is refused.
    - [System]: the two objects, the server behind the client, the commands
      and the remote calls that went out, and the calls that were started
      and not awaited.
    - [Async A]: an [async] method. It runs on the whole system and either
      completes with a value or throws, keeping what it did until then.
    - [Client]: the ioredis client, which prefixes keys.
    - [ChannelManager], [ChannelService]: the two classes, method by method,
      and [Component] for the older [clean] of [components/globalChannel.ts].

    What the model takes for granted: the connection comes up ([start]
    completes when its callback would be called) and stays up; user ids are
    the text JavaScript prints for them ([10015] and ['10015'] are one
    user); commands reach Redis in the order they are sent. *)

From stdpp Require Import gmap strings list fin_maps sorting.
From Stdlib Require Import ZArith Ascii.

Open Scope string_scope.
Open Scope Z_scope.

(** ** The Redis keyspace *)

Module Redis.

(** A key holds a hash (field to value) or a set of members. *)
Inductive value :=
| Hash (h : gmap string string)
| SetOf (m : gset string).

Abbreviation db := (gmap string value).

(** The cursor of [SCAN]: [None] is the cursor ['0'] (start, and end, of an
    iteration); [Some k] resumes after key [k]. *)
Abbreviation cursor := (option string).

(** What travels to the server. *)
Inductive command :=
| HGET (key field : string)
| HSET (key field val : string)
| HDEL (key field : string)
| HLEN (key : string)
| HKEYS (key : string)
| HEXISTS (key field : string)
| SADD (key member : string)
| SREM (key member : string)
| SMEMBERS (key : string)
| SCAN (cur : cursor) (pattern : string) (count : nat)
| KEYS (pattern : string)
| DEL (keys : list string)
| QUIT.

(** A missing key reads as the empty hash, and as the empty set; a key of
    the other kind is a WRONGTYPE error ([None]). *)
Definition hash_at (k : string) (d : db) : option (gmap string string) :=
  match d !! k with
  | None => Some ∅
  | Some (Hash h) => Some h
  | Some (SetOf _) => None
  end.

Definition set_at (k : string) (d : db) : option (gset string) :=
  match d !! k with
  | None => Some ∅
  | Some (SetOf m) => Some m
  | Some (Hash _) => None
  end.

(** Redis drops a key when its hash or set becomes empty. *)
Definition put_hash (k : string) (h : gmap string string) (d : db) : db :=
  if decide (h = ∅) then delete k d else <[k := Hash h]> d.

Definition put_set (k : string) (m : gset string) (d : db) : db :=
  if decide (m = ∅) then delete k d else <[k := SetOf m]> d.

Definition hget (k f : string) (d : db) : option (option string) :=
  h ← hash_at k d; Some (h !! f).

Definition hset (k f v : string) (d : db) : option db :=
  h ← hash_at k d; Some (put_hash k (<[f := v]> h) d).

Definition hdel (k f : string) (d : db) : option db :=
  h ← hash_at k d; Some (put_hash k (delete f h) d).

Definition hlen (k : string) (d : db) : option Z :=
  h ← hash_at k d; Some (Z.of_nat (size h)).

Definition hkeys (k : string) (d : db) : option (list string) :=
  h ← hash_at k d; Some (elements (dom h)).

Definition hexists (k f : string) (d : db) : option Z :=
  h ← hash_at k d; Some (if h !! f is Some _ then 1 else 0).

Definition sadd (k x : string) (d : db) : option db :=
  m ← set_at k d; Some (put_set k ({[x]} ∪ m) d).

Definition srem (k x : string) (d : db) : option db :=
  m ← set_at k d; Some (put_set k (m ∖ {[x]}) d).

Definition smembers (k : string) (d : db) : option (list string) :=
  m ← set_at k d; Some (elements m).

(** [DEL] removes keys of either kind; a missing key is skipped. *)
Definition del (ks : list string) (d : db) : db :=
  foldr delete d ks.

(** Glob patterns of [MATCH]: [*] and [?]; every other character stands
    for itself (no bracket class, no escape). *)
Fixpoint glob (p : string) : string → bool :=
  match p with
  | EmptyString => λ s, bool_decide (s = "")
  | String c p' =>
      if Ascii.eqb c "*"%char then
        fix star (s : string) : bool :=
          glob p' s || match s with EmptyString => false | String _ s' => star s' end
      else if Ascii.eqb c "?"%char then
        λ s, match s with EmptyString => false | String _ s' => glob p' s' end
      else
        λ s, match s with
             | EmptyString => false
             | String c' s' => Ascii.eqb c c' && glob p' s'
             end
  end.

Definition key_le (a b : string) : Prop := String.leb a b = true.

#[global] Instance key_le_dec : RelDecision key_le :=
  λ a b, decide (String.leb a b = true).

Definition keys_in_order (d : db) : list string :=
  merge_sort key_le (elements (dom d)).

Definition after (cur : cursor) (k : string) : bool :=
  match cur with
  | None => true
  | Some c => String.ltb c k
  end.

(** [SCAN cur MATCH p COUNT n]: one page of the iteration. The keys are
    walked in key order, [n] keys per call; the pattern filters the page
    after it is taken, so a page can come back short or empty; the next
    cursor is ['0'] once the walk has reached the end. *)
Definition scan (cur : cursor) (pattern : string) (count : nat) (d : db)
  : cursor * list string :=
  let rest := filter (λ k, after cur k = true) (keys_in_order d) in
  let page := take count rest in
  let next := if decide (length rest ≤ count)%nat then None else last page in
  (next, filter (λ k, glob pattern k = true) page).

(** [KEYS p]: every key that matches, in one reply. *)
Definition keys (pattern : string) (d : db) : list string :=
  filter (λ k, glob pattern k = true) (keys_in_order d).

End Redis.

Import Redis.

(** ** The host application and the service's options *)

Record ServerInfo := { id : string }.

(** [msg: any]: the payload handed to [pushMessage], passed on untouched. *)
#[local] Set Warnings "-register-all".
Inductive any :=
| AUndefined
| ABool (b : bool)
| ANumber (n : Z)
| AString (s : string)
| AObject (fields : list (string * any)).

(** The envelope given to [rpcInvoke]; [args] is
    [[route, msg, uids, { isPush }]]. *)
Record RpcArgs := {
  arg_route : string;
  arg_msg : any;
  arg_uids : list string;
  arg_isPush : bool
}.

Record RpcParams := {
  namespace : string;
  service : string;
  method : string;
  args : RpcArgs
}.

(** The part of [Application] the registry reads: the server directory.
    [rpcInvoke] is an effect, recorded in [invoked] below. *)
Record Application := {
  getServersByType : string → list ServerInfo
}.

Record RedisOptions := { keyPrefix : string }.

Record Options := {
  url : string;
  options : option RedisOptions;
  cleanOnStartUp : bool
}.

Definition DEFALT_PREFIX : string := "{POMELO-GLOBALCHANNEL}".

(** The ioredis client: it puts its [keyPrefix] in front of every key
    argument of a command; patterns ([SCAN ... MATCH]) and replies are left
    as they are. *)
Record IORedis := { prefix : string }.

Definition new_IORedis (u : string) (o : option RedisOptions) : IORedis :=
  {| prefix := match o with Some r => keyPrefix r | None => "" end |}.

Inductive STATE := ST_INITED | ST_STARTED | ST_CLOSED.

#[global] Instance STATE_eq_dec : EqDecision STATE.
Proof. solve_decision. Defined.

(** A [leave] that was started without being awaited, stopped at its
    [await this.redis.hget(...)]: the command is out and answered, the rest
    of the body runs when the reply is handed over. *)
Record Parked := {
  parked_channel : string;
  parked_uid : string;
  parked_reply : option string
}.

#[global] Instance Parked_eq_dec : EqDecision Parked.
Proof. solve_decision. Defined.

(** ** The whole system: the service object, the manager object, the Redis
    server behind the client, and what went out *)

Record System := {
  app : Application;
  opts : Options;                            (* this.opts, shared by both objects *)
  state : STATE;                             (* ChannelService.state *)
  redis : option IORedis;                    (* ChannelManager.redis *)
  store : gmap string value;                 (* the keyspace of the server *)
  wire : list command;                       (* commands sent, oldest first *)
  invoked : list (string * RpcParams);       (* app.rpcInvoke(id, params, ...) *)
  parked : list Parked                       (* un-awaited leaves, oldest first *)
}.

Definition set_state (x : STATE) (s : System) : System :=
  {| app := app s; opts := opts s; state := x; redis := redis s;
     store := store s; wire := wire s; invoked := invoked s; parked := parked s |}.

Definition set_redis (x : option IORedis) (s : System) : System :=
  {| app := app s; opts := opts s; state := state s; redis := x;
     store := store s; wire := wire s; invoked := invoked s; parked := parked s |}.

Definition set_store (x : gmap string value) (s : System) : System :=
  {| app := app s; opts := opts s; state := state s; redis := redis s;
     store := x; wire := wire s; invoked := invoked s; parked := parked s |}.

Definition set_wire (x : list command) (s : System) : System :=
  {| app := app s; opts := opts s; state := state s; redis := redis s;
     store := store s; wire := x; invoked := invoked s; parked := parked s |}.

Definition set_invoked (x : list (string * RpcParams)) (s : System) : System :=
  {| app := app s; opts := opts s; state := state s; redis := redis s;
     store := store s; wire := wire s; invoked := x; parked := parked s |}.

Definition set_parked (x : list Parked) (s : System) : System :=
  {| app := app s; opts := opts s; state := state s; redis := redis s;
     store := store s; wire := wire s; invoked := invoked s; parked := x |}.

(** ** Async methods *)

Inductive Outcome (A : Type) :=
| Done (a : A) (s : System)       (* the promise resolves with [a] *)
| Thrown (s : System).            (* the promise rejects *)
Arguments Done {A} a s.
Arguments Thrown {A} s.

Definition Async (A : Type) : Type := System → Outcome A.

Definition ret {A} (a : A) : Async A := λ s, Done a s.

Definition bind {A B} (m : Async A) (k : A → Async B) : Async B :=
  λ s, match m s with
       | Done a s' => k a s'
       | Thrown s' => Thrown s'
       end.

Declare Scope async_scope.
Delimit Scope async_scope with async.
Notation "'await' x ← m ; k" := (bind m (λ x, k))
  (at level 10, x name, m at level 100, k at level 200) : async_scope.
Notation "'wait' m ; k" := (bind m (λ _, k))
  (at level 10, m at level 100, k at level 200) : async_scope.
Open Scope async_scope.

(** A call whose promise is dropped: what it does is done, its reply, an
    error included, reaches nobody. *)
Definition forget {A} (m : Async A) : Async unit :=
  λ s, match m s with
       | Done _ s' => Done tt s'
       | Thrown s' => Done tt s'
       end.

Definition get {A} (f : System → A) : Async A := λ s, Done (f s) s.

Definition sent (c : command) (s : System) : System :=
  set_wire (wire s ++ [c]) s.

(** A reading command: the reply, or the error. *)
Definition ask {A} (c : command) (f : db → option A) : Async A :=
  λ s, match f (store s) with
       | Some a => Done a (sent c s)
       | None => Thrown (sent c s)
       end.

(** A writing command: the keyspace after it, or the error. *)
Definition tell (c : command) (f : db → option db) : Async unit :=
  λ s, match f (store s) with
       | Some d => Done tt (set_store d (sent c s))
       | None => Thrown (sent c s)
       end.

(** JavaScript truthiness of [string | null | undefined] and of
    [uids && uids.length]. *)
Definition truthy (o : option string) : bool :=
  match o with
  | Some s => negb (String.eqb s "")
  | None => false
  end.

Definition nonempty (o : option (list string)) : bool :=
  match o with
  | Some (_ :: _) => true
  | _ => false
  end.

(** The client's methods. *)
Module Client.

Definition key (r : IORedis) (k : string) : string := prefix r +:+ k.
Arguments key : simpl never.

Definition hget (r : IORedis) (k f : string) : Async (option string) :=
  ask (HGET (key r k) f) (Redis.hget (key r k) f).

Definition hset (r : IORedis) (k f v : string) : Async unit :=
  tell (HSET (key r k) f v) (Redis.hset (key r k) f v).

Definition hdel (r : IORedis) (k f : string) : Async unit :=
  tell (HDEL (key r k) f) (Redis.hdel (key r k) f).

Definition hlen (r : IORedis) (k : string) : Async Z :=
  ask (HLEN (key r k)) (Redis.hlen (key r k)).

Definition hkeys (r : IORedis) (k : string) : Async (list string) :=
  ask (HKEYS (key r k)) (Redis.hkeys (key r k)).

Definition hexists (r : IORedis) (k f : string) : Async Z :=
  ask (HEXISTS (key r k) f) (Redis.hexists (key r k) f).

Definition sadd (r : IORedis) (k x : string) : Async unit :=
  tell (SADD (key r k) x) (Redis.sadd (key r k) x).

Definition srem (r : IORedis) (k x : string) : Async unit :=
  tell (SREM (key r k) x) (Redis.srem (key r k) x).

Definition smembers (r : IORedis) (k : string) : Async (list string) :=
  ask (SMEMBERS (key r k)) (Redis.smembers (key r k)).

Definition del (r : IORedis) (ks : list string) : Async unit :=
  tell (DEL (key r <$> ks)) (λ d, Some (Redis.del (key r <$> ks) d)).

Definition scan (r : IORedis) (cur : cursor) (pattern : string) (count : nat)
  : Async (cursor * list string) :=
  ask (SCAN cur pattern count) (λ d, Some (Redis.scan cur pattern count d)).

Definition keys (r : IORedis) (pattern : string) : Async (list string) :=
  ask (KEYS pattern) (λ d, Some (Redis.keys pattern d)).

(** [quit()] on a connected client: QUIT goes out and no key changes. The
    model does not follow the connection after it; what a client is asked
    to send after its own [quit] is outside the model. *)
Definition quit (r : IORedis) : Async unit :=
  tell QUIT (λ d, Some d).

End Client.

(** [condition ? m : nothing] and [list.forEach(f)] for async bodies. *)
Definition when (b : bool) (m : Async unit) : Async unit :=
  if b then m else ret tt.

Fixpoint for_each {A} (l : list A) (f : A → Async unit) : Async unit :=
  match l with
  | [] => ret tt
  | x :: l' => wait f x; for_each l' f
  end.

(** [s.replace(pattern, '')] with a string pattern: the first occurrence of
    the pattern, wherever it is, is cut out. *)
Fixpoint remove_first (pattern s : string) : string :=
  if String.prefix pattern s then
    String.substring (String.length pattern) (String.length s - String.length pattern) s
  else
    match s with
    | EmptyString => EmptyString
    | String c s' => String c (remove_first pattern s')
    end.

(** ** class ChannelManager *)

Module ChannelManager.

(** [constructor(app, opts)]: without [opts.options] the default prefix is
    filled in. *)
Definition constructor (o : Options) : Options :=
  match options o with
  | Some _ => o
  | None => {| url := url o;
               options := Some {| keyPrefix := DEFALT_PREFIX |};
               cleanOnStartUp := cleanOnStartUp o |}
  end.

(** [start(cb)]: a new client; [cb] runs on its [ready] event. The model
    takes the connection to succeed: [start] completes when [cb] would be
    called. *)
Definition start : Async unit :=
  λ s, Done tt (set_redis (Some (new_IORedis (url (opts s)) (options (opts s)))) s).

(** [stop(force, cb)] *)
Definition stop (force : bool) : Async unit :=
  await r ← get redis;
  match r with
  | None => ret tt
  | Some r => forget (Client.quit r)
  end.

(** The [do { ... } while (cursor != '0')] of [cleanup]; [None] when the
    loop is still running after [fuel] pages. *)
Fixpoint cleanup_pages (fuel : nat) (r : IORedis) (keyPrefix : string)
    (cur : cursor) (cleaned : list string) : Async (option (list string)) :=
  match fuel with
  | O => ret None
  | S fuel' =>
      await batch ← Client.scan r cur (keyPrefix +:+ "*") 100;
      let elements := batch.2 in
      let keys :=
        filter (λ k, truthy (Some k) && truthy (Some (remove_first keyPrefix k)) = true)
               elements in
      await cleaned ← (if nonempty (Some elements) && nonempty (Some keys) then
                         wait forget (Client.del r keys);
                         ret (cleaned ++ keys)%list
                       else ret cleaned);
      match batch.1 with
      | Some _ => cleanup_pages fuel' r keyPrefix batch.1 cleaned
      | None => ret (Some cleaned)
      end
  end.

(** [cleanup()]; the result is the list the method logs as cleaned. *)
Definition cleanup (fuel : nat) : Async (option (list string)) :=
  await r ← get redis;
  match r with
  | None => ret (Some [])
  | Some r =>
      await o ← get (λ s, options (opts s));
      let keyPrefix := match o with Some x => keyPrefix x | None => "" end in
      cleanup_pages fuel r keyPrefix None []
  end.

Definition len (channel : string) : Async (option Z) :=
  await r ← get redis;
  match r with
  | None => ret None
  | Some r => await n ← Client.hlen r ("c#" +:+ channel); ret (Some n)
  end.

Definition add (name uid sid : string) : Async unit :=
  await r ← get redis;
  match r with
  | None => ret tt
  | Some r =>
      await o ← Client.hget r ("u#" +:+ uid) name;
      wait when (truthy o) (Client.srem r ("s#" +:+ name +:+ ":" +:+ sid) uid);
      wait Client.hset r ("u#" +:+ uid) name sid;
      wait Client.sadd r ("s#" +:+ name +:+ ":" +:+ sid) uid;
      Client.hset r ("c#" +:+ name) uid sid
  end.

(** The body of [leave] after [sid] is known: three commands, none awaited. *)
Definition leave_rest (r : IORedis) (channel uid : string) (sid : option string)
  : Async unit :=
  wait forget (Client.hdel r ("u#" +:+ uid) channel);
  wait forget (Client.hdel r ("c#" +:+ channel) uid);
  when (truthy sid) (forget (Client.srem r ("s#" +:+ channel +:+ ":" +:+ default "" sid) uid)).

Definition leave (channel uid : string) (sid : option string) : Async unit :=
  await r ← get redis;
  match r with
  | None => ret tt
  | Some r =>
      await sid ← (if truthy sid then ret sid
                   else Client.hget r ("u#" +:+ uid) channel);
      leave_rest r channel uid sid
  end.

(** [this.leave(channel, uid)] called and not awaited: it runs to its
    [await]; the rest is parked. A refused [HGET] ends that call. *)
Definition leave_unawaited (channel uid : string) : Async unit :=
  λ s, match redis s with
       | None => Done tt s
       | Some r =>
           match Client.hget r ("u#" +:+ uid) channel s with
           | Done reply s' =>
               Done tt (set_parked (parked s' ++
                          [{| parked_channel := channel; parked_uid := uid;
                              parked_reply := reply |}]) s')
           | Thrown s' => Done tt s'
           end
       end.

Definition resume (p : Parked) : Async unit :=
  await r ← get redis;
  match r with
  | None => ret tt
  | Some r => leave_rest r (parked_channel p) (parked_uid p) (parked_reply p)
  end.

Definition members (channel : string) (serverId : option string)
  : Async (option (list string)) :=
  await r ← get redis;
  match r with
  | None => ret None
  | Some r =>
      if truthy serverId then
        await l ← Client.smembers r ("s#" +:+ channel +:+ ":" +:+ default "" serverId);
        ret (Some l)
      else
        await l ← Client.hkeys r ("c#" +:+ channel);
        ret (Some l)
  end.

Definition destroy (channel : string) : Async unit :=
  await r ← get redis;
  match r with
  | None => ret tt
  | Some _ =>
      await members ← members channel None;
      match members with
      | Some l => for_each l (λ uid, leave_unawaited channel uid)
      | None => ret tt
      end
  end.

Definition ismember (channel uid : string) : Async (option Z) :=
  await r ← get redis;
  match r with
  | None => ret None
  | Some r => await n ← Client.hexists r ("c#" +:+ channel) uid; ret (Some n)
  end.

Definition channels (uid : string) : Async (list string) :=
  await r ← get redis;
  match r with
  | None => ret []
  | Some r => Client.hkeys r ("u#" +:+ uid)
  end.

End ChannelManager.

(** The replies to the parked leaves are handed over, oldest first: each
    leave runs the rest of its body. *)
Definition hand_over (s : System) (p : Parked) : System :=
  match ChannelManager.resume p s with
  | Done _ s' => s'
  | Thrown s' => s'
  end.

Definition settle (s : System) : System :=
  foldl hand_over (set_parked [] s) (parked s).

(** ** class ChannelService *)

Module ChannelService.

(** [new ChannelService(app, opts)] in front of a Redis server whose
    keyspace is [d]. *)
Definition constructor (a : Application) (o : Options) (d : db) : System :=
  {| app := a; opts := ChannelManager.constructor o; state := ST_INITED;
     redis := None; store := d; wire := []; invoked := []; parked := [] |}.

(** [start(cb)]; [Some tt] when [cb] has been called. *)
Definition start (fuel : nat) : Async (option unit) :=
  wait ChannelManager.start;
  wait (λ s, Done tt (set_state ST_STARTED s));
  await clean ← get (λ s, cleanOnStartUp (opts s));
  if clean then
    await cleaned ← ChannelManager.cleanup fuel;
    ret (match cleaned with Some _ => Some tt | None => None end)
  else ret (Some tt).

Definition stop (force : bool) : Async unit :=
  wait (λ s, Done tt (set_state ST_CLOSED s));
  ChannelManager.stop force.

(** [if (this.state !== STATE.ST_STARTED) { ...; return }] *)
Definition started {A} (otherwise : A) (m : Async A) : Async A :=
  await st ← get state;
  if bool_decide (st = ST_STARTED) then m else ret otherwise.

Definition destroy (name : string) : Async unit :=
  started tt (ChannelManager.destroy name).

Definition len (channel : string) : Async (option Z) :=
  started None (ChannelManager.len channel).

Definition add (channel uid serverId : string) : Async unit :=
  started tt (ChannelManager.add channel uid serverId).

Definition leave (channel uid : string) (sid : option string) : Async unit :=
  started tt (ChannelManager.leave channel uid sid).

Definition members (channel : string) (serverId : option string)
  : Async (option (list string)) :=
  started None (ChannelManager.members channel serverId).

Definition ismember (channel uid : string) : Async (option Z) :=
  started None (ChannelManager.ismember channel uid).

Definition channels (uid : string) : Async (option (list string)) :=
  started None (await l ← ChannelManager.channels uid; ret (Some l)).

Definition rpcInvoke (serverId : string) (params : RpcParams) : Async unit :=
  λ s, Done tt (set_invoked (invoked s ++ [(serverId, params)]) s).

Definition envelope (route : string) (msg : any) (uids : list string) : RpcParams :=
  {| namespace := "sys"; service := "channelRemote"; method := "pushMessage";
     args := {| arg_route := route; arg_msg := msg; arg_uids := uids;
                arg_isPush := true |} |}.

(** The [for (let i in servers)] of [pushMessage]. *)
Fixpoint push_each (route : string) (msg : any) (channelName : string)
    (servers : list ServerInfo) (users : list string) : Async (list string) :=
  match servers with
  | [] => ret users
  | server :: rest =>
      await uids ← members channelName (Some (id server));
      if nonempty uids then
        let users := (users ++ default [] uids)%list in
        wait rpcInvoke (id server) (envelope route msg (default [] uids));
        push_each route msg channelName rest users
      else push_each route msg channelName rest users
  end.

Definition pushMessage (serverType route : string) (msg : any)
    (channelName : string) (opts : any) : Async (option (list string)) :=
  started None
    (await servers ← get (λ s, getServersByType (app s) serverType);
     match servers with
     | [] => ret None
     | _ :: _ =>
         await users ← push_each route msg channelName servers [];
         ret (Some users)
     end).

End ChannelService.

(** ** The older manager of [components/globalChannel.ts] *)

Module Component.

(** Its [clean()]: the keys under the prefix are listed with KEYS, the
    prefix is cut off each of them, and what is left goes to [del], where
    the client puts the prefix back. *)
Definition clean : Async unit :=
  await r ← get redis;
  match r with
  | None => ret tt
  | Some r =>
      await o ← get (λ s, options (opts s));
      let keyPrefix := match o with Some x => keyPrefix x | None => "" end in
      await keys ← Client.keys r (keyPrefix +:+ "*");
      let cmds := map (λ k, if truthy (Some keyPrefix)
                            then remove_first keyPrefix k else k) keys in
      when (nonempty (Some cmds)) (Client.del r cmds)
  end.

(** [start(cb)] of the service in that file. *)
Definition start : Async unit :=
  wait ChannelManager.start;
  wait (λ s, Done tt (set_state ST_STARTED s));
  await c ← get (λ s, cleanOnStartUp (opts s));
  when c clean.

End Component.

(** ** What a caller sees *)

(** The system after a call, and what the call returned ([None] when it
    threw). *)
Definition after {A} (m : Async A) (s : System) : System :=
  match m s with Done _ s' => s' | Thrown s' => s' end.

Definition result {A} (m : Async A) (s : System) : option A :=
  match m s with Done a _ => Some a | Thrown _ => None end.

(** [x] is in the list a query returned. *)
Definition listed (x : string) (o : option (option (list string))) : Prop :=
  ∃ l, o = Some (Some l) ∧ x ∈ l.

(** The list [members(channel, serverId)] returns to [pushMessage]; an
    [undefined] counts as no member. *)
Definition server_members (channel serverId : string) (s : System) : list string :=
  match result (ChannelService.members channel (Some serverId)) s with
  | Some (Some l) => l
  | _ => []
  end.

(** The servers [pushMessage] calls: those with a member to reach. *)
Definition targeted (channel : string) (servers : list ServerInfo) (s : System)
  : list ServerInfo :=
  filter (λ sv, server_members channel (id sv) s ≠ []) servers.

(** ** The surface of the service, call by call *)

Inductive call :=
| Start
| Stop (force : bool)
| Add (channel uid serverId : string)
| Leave (channel uid : string) (sid : option string)
| Destroy (name : string)
| Len (channel : string)
| Members (channel : string) (serverId : option string)
| Ismember (channel uid : string)
| Channels (uid : string)
| PushMessage (serverType route : string) (msg : any) (channelName : string) (opts : any)
| Replies.   (* not a call: the replies the parked leaves wait for come in *)

Definition perform (fuel : nat) (k : call) (s : System) : System :=
  match k with
  | Start => after (ChannelService.start fuel) s
  | Stop force => after (ChannelService.stop force) s
  | Add c u sid => after (ChannelService.add c u sid) s
  | Leave c u sid => after (ChannelService.leave c u sid) s
  | Destroy c => after (ChannelService.destroy c) s
  | Len c => after (ChannelService.len c) s
  | Members c sid => after (ChannelService.members c sid) s
  | Ismember c u => after (ChannelService.ismember c u) s
  | Channels u => after (ChannelService.channels u) s
  | PushMessage t route msg c o => after (ChannelService.pushMessage t route msg c o) s
  | Replies => settle s
  end.

Definition perform_all (fuel : nat) (ks : list call) (s : System) : System :=
  foldl (λ s k, perform fuel k s) s ks.

(** ** Kinds: the hash families hold hashes, the set family holds sets *)

(** Under the client's prefix [p], a [c#] or [u#] key must not hold a set
    and an [s#] key must not hold a hash; every other key is free. *)
Definition kind_ok (p k : string) (v : value) : bool :=
  match v with
  | Hash _ => negb (String.prefix (p +:+ "s#") k)
  | SetOf _ => negb (String.prefix (p +:+ "c#") k || String.prefix (p +:+ "u#") k)
  end.

Definition well_kinded (p : string) (d : db) : bool :=
  forallb (λ kv, kind_ok p kv.1 kv.2) (map_to_list d).

(** The service is started, its client exists, the keyspace behind the
    client is well kinded (every command of the registry gets its reply),
    and no leave is waiting for a reply. *)
Definition running (s : System) : bool :=
  bool_decide (state s = ST_STARTED) &&
  match redis s with
  | Some r => well_kinded (prefix r) (store s)
  | None => false
  end &&
  bool_decide (parked s = []).

Definition kinded (p : string) (d : db) : Prop :=
  ∀ k v, d !! k = Some v → kind_ok p k v = true.

Definition Ready (r : IORedis) (s : System) : Prop :=
  state s = ST_STARTED ∧ redis s = Some r ∧ kinded (prefix r) (store s).

(** The three keys of a membership record. *)
Definition Kc (r : IORedis) (c : string) : string := Client.key r ("c#" +:+ c).
Definition Ku (r : IORedis) (u : string) : string := Client.key r ("u#" +:+ u).
Definition Ks (r : IORedis) (c sid : string) : string :=
  Client.key r ("s#" +:+ c +:+ ":" +:+ sid).

(** ** The three indexes, read off the keyspace *)

(** channel → { user: server } *)
Definition chan (r : IORedis) (d : db) (c : string) : gmap string string :=
  default ∅ (hash_at (Kc r c) d).

(** user → { channel: server } *)
Definition user (r : IORedis) (d : db) (u : string) : gmap string string :=
  default ∅ (hash_at (Ku r u) d).

(** (channel, server) → { user } *)
Definition srv (r : IORedis) (d : db) (c sid : string) : gset string :=
  default ∅ (set_at (Ks r c sid) d).

(** The server whose set [leave] cleans: the one given, or else the one
    the [u#] hash has for the channel. *)
Definition resolved (r : IORedis) (d : db) (c u : string) (sid : option string)
  : option string :=
  if truthy sid then sid else user r d u !! c.

(** What a call leaves alone in the two objects and in the application. *)
Definition same_service (s s' : System) : Prop :=
  app s' = app s ∧ opts s' = opts s ∧ state s' = state s ∧ redis s' = redis s ∧
  invoked s' = invoked s ∧ parked s' = parked s.

(** The same list, read off the indexes: the [s#] set of the server, or the
    whole channel when the server id is the empty string. *)
Definition index_members (r : IORedis) (d : db) (c sid : string) : list string :=
  if truthy (Some sid) then elements (srv r d c sid)
  else elements (dom (chan r d c)).

(** A body that leaves the observation [f] of the system as it was. *)
Definition keeps {X A} (f : System → X) (m : Async A) : Prop :=
  ∀ s, f (after m s) = f s.

(** ** Destroying a channel *)

(** The service objects and the keyspace are the same in [s] and [s']; the
    wire, the remote calls and the parked leaves may differ. *)
Definition same_store (s s' : System) : Prop :=
  state s' = state s ∧ redis s' = redis s ∧ app s' = app s ∧ store s' = store s.

(** The channel is filled by one [add] per (user, server) pair. *)
Definition populate (c : string) (l : list (string * string)) : Async unit :=
  for_each l (λ us, ChannelService.add c us.1 us.2).

(** From [s] to [s'] records were only taken out of the indexes. *)
Definition shrunk (r : IORedis) (s s' : System) : Prop :=
  redis s' = Some r ∧ kinded (prefix r) (store s') ∧ state s' = state s ∧
  (∀ c, chan r (store s') c ⊆ chan r (store s) c) ∧
  (∀ u, user r (store s') u ⊆ user r (store s) u) ∧
  (∀ c x, srv r (store s') c x ⊆ srv r (store s) c x).

(** The record a parked leave is after is out of the indexes. *)
Definition cleared (r : IORedis) (s : System) (p : Parked) : Prop :=
  chan r (store s) (parked_channel p) !! parked_uid p = None ∧
  user r (store s) (parked_uid p) !! parked_channel p = None ∧
  (truthy (parked_reply p) = true →
   parked_uid p ∉ srv r (store s) (parked_channel p) (default "" (parked_reply p))).

(** The indexes of channel [c] agree: whoever is in the set of a server has
    that server in the [u#] hash, and whoever has the channel in the [u#]
    hash is in the [c#] hash. *)
Definition tidy (r : IORedis) (d : db) (c : string) : Prop :=
  (∀ u x, x ≠ "" → u ∈ srv r d c x → user r d u !! c = Some x) ∧
  (∀ u, is_Some (user r d u !! c) → is_Some (chan r d c !! u)).

(** ** Scenarios *)

(** The directory and the scenario of the specification. *)
Definition directory : Application :=
  {| getServersByType := λ _, [ {| id := "srvA" |}; {| id := "srvB" |} ] |}.

Definition plain : Options :=
  {| url := "redis://127.0.0.1:6379"; options := Some {| keyPrefix := "" |};
     cleanOnStartUp := false |}.

(** Started on an empty keyspace. *)
Definition lobby0 : System :=
  after (ChannelService.start 1) (ChannelService.constructor directory plain ∅).

(** [u1] on [srvA], nobody on [srvB]. *)
Definition lobby1 : System :=
  after (ChannelService.add "lobby" "u1" "srvA") lobby0.

(** [u1] and [u2] on [srvA], [u3] on [srvB]. *)
Definition lobby3 : System :=
  after (ChannelService.add "lobby" "u3" "srvB")
   (after (ChannelService.add "lobby" "u2" "srvA")
     (after (ChannelService.add "lobby" "u1" "srvA") lobby0)).

(** The configuration of the repository's test, and a restart. *)

Definition test_opts : Options :=
  {| url := "redis://127.0.0.1:6379";
     options := Some {| keyPrefix := "keyPrefix#" |};
     cleanOnStartUp := true |}.

(** What a first run leaves in the store: one member of [global-chat]. *)
Definition first_run : System :=
  after (ChannelService.add "global-chat" "10010" "connector-server-1")
    (after (ChannelService.start 1) (ChannelService.constructor directory test_opts ∅)).

(** The process starts again on that store. *)
Definition restart : System :=
  ChannelService.constructor directory test_opts (store first_run).

(** ** More of the registry: what the properties below speak of *)

(** No key holds an empty hash or an empty set: Redis keeps none. *)
Definition compact (d : db) : bool :=
  forallb (λ kv, match kv.2 with
                 | Hash h => negb (bool_decide (h = ∅))
                 | SetOf m => negb (bool_decide (m = ∅))
                 end) (map_to_list d).

(** The calls that go through the gate of the service. *)
Definition gated (k : call) : bool :=
  match k with
  | Start | Stop _ | Replies => false
  | _ => true
  end.

(** The one command [members(channel, serverId)] sends. *)
Definition members_command (r : IORedis) (c sid : string) : command :=
  if truthy (Some sid) then SMEMBERS (Ks r c sid) else HKEYS (Kc r c).

(** The calls that only ask the store: the four questions, and
    [pushMessage], which asks for the members of each server. [destroy] is
    not one of them: the leaves it starts write as soon as their replies
    come in. *)
Definition reads (k : call) : bool :=
  match k with
  | Len _ | Members _ _ | Ismember _ _ | Channels _
  | PushMessage _ _ _ _ _ => true
  | _ => false
  end.

Definition pushes (k : call) : bool :=
  match k with PushMessage _ _ _ _ _ => true | _ => false end.

(** The keys a SCAN that resumes at [cur] has still to walk. *)
Definition pending (cur : cursor) (d : db) : list string :=
  filter (λ k, Redis.after cur k = true) (keys_in_order d).

(** ** The component of [components/globalChannel.ts]

    The older registry: the users of a channel in the hash [name], those of
    a server in the set [name:sid], and what a user has joined in the set
    [user.<uid>.sids], as the text [JSON.stringify({ name, sid })]. The
    client, the options and the states are those above. *)

(** [throw]: the promise of the method rejects. *)
Definition throw {A} : Async A := λ s, Thrown s.

(** [try { body } catch (err) { logger.error(...) }] *)
Definition try_catch (body : Async unit) : Async unit :=
  λ s, match body s with
       | Done _ s' => Done tt s'
       | Thrown s' => Done tt s'
       end.

(** [JSON.stringify] of a string: the text between double quotes, with the
    double quote and the backslash escaped, the control characters as
    [\b], [\t], [\n], [\f], [\r] or [\u00xx], and every other character as
    it is. *)
Definition double_quote : ascii := "034"%char.
Definition backslash : ascii := "092"%char.

Definition hex_digit (n : N) : ascii :=
  nth (N.to_nat n) (String.list_ascii_of_string "0123456789abcdef") "0"%char.

Definition json_char (c : ascii) : string :=
  let n := N_of_ascii c in
  if (n =? 8)%N then "\b"
  else if (n =? 9)%N then "\t"
  else if (n =? 10)%N then "\n"
  else if (n =? 12)%N then "\f"
  else if (n =? 13)%N then "\r"
  else if (n =? 34)%N then String backslash (String double_quote "")
  else if (n =? 92)%N then String backslash (String backslash "")
  else if (n <? 32)%N then
    "\u00" +:+ String (hex_digit (n / 16)) (String (hex_digit (n mod 16)) "")
  else String c "".

Fixpoint json_chars (s : string) : string :=
  match s with
  | EmptyString => EmptyString
  | String c s' => json_char c +:+ json_chars s'
  end.

Definition JSON_stringify_string (s : string) : string :=
  String double_quote (json_chars s +:+ String double_quote "").

(** [JSON.stringify({ name, sid })] for two strings. *)
Definition JSON_stringify_entry (name sid : string) : string :=
  "{" +:+ JSON_stringify_string "name" +:+ ":" +:+ JSON_stringify_string name +:+
  "," +:+ JSON_stringify_string "sid" +:+ ":" +:+ JSON_stringify_string sid +:+ "}".

(** What the component does with a text it reads back from Redis:
    [JSON.parse] (which throws on a text that is no JSON), and on the value
    [member] it gives, [JSON.stringify(member)], [member && member.name]
    when that is a string, and the text of [member.sid] in a template
    literal. *)
Record JSON := {
  json : Type;
  JSON_parse : string → option json;
  JSON_stringify : json → string;
  member_name : json → option string;
  member_sid : json → string
}.

(** [Application] as this file declares it: [getServers()] with
    [isFrontend] on each server, in the order [for (var sid in servers)]
    walks the ids; and what [rpcInvoke] answers through its callback,
    [None] for an error, else the list of failed ids or [undefined]. *)
Record Servers := {
  getServers : list (string * bool);
  rpcReply : string → RpcParams → option (option (list string))
}.

Module GlobalChannel.

Module Manager.

Definition user_key (uid : string) : string := "user." +:+ uid +:+ ".sids".
Definition server_key (name sid : string) : string := name +:+ ":" +:+ sid.

(** [destroyChannel(name)]: one [del] of [name + sid] for every frontend
    server, sent in one MULTI ... EXEC when there is any. The two frames of
    the transaction are not recorded on the wire. *)
Definition destroyChannel (e : Servers) (name : string) : Async unit :=
  await r ← get redis;
  match r with
  | None => ret tt
  | Some r =>
      let cmds := map (λ sv, name +:+ sv.1) (filter (λ sv, sv.2 = true) (getServers e)) in
      when (nonempty (Some cmds)) (for_each cmds (λ k, Client.del r [k]))
  end.

Definition add (name uid sid : string) : Async unit :=
  await r ← get redis;
  match r with
  | None => ret tt
  | Some r =>
      wait Client.sadd r (user_key uid) (JSON_stringify_entry name sid);
      wait Client.sadd r (server_key name sid) uid;
      Client.hset r name uid sid
  end.

(** The body of [for (let i in members)] in [leave]. *)
Definition leave_member (J : JSON) (r : IORedis) (name uid text : string)
  : Async unit :=
  match JSON_parse J text with
  | None => ret tt
  | Some member =>
      if bool_decide (member_name J member = Some name) then
        try_catch
          (wait Client.srem r (user_key uid) (JSON_stringify J member);
           wait Client.srem r (server_key name (member_sid J member)) uid;
           Client.hdel r name uid)
      else ret tt
  end.

Definition leave (J : JSON) (name uid : string) (sid : option string) : Async unit :=
  await r ← get redis;
  match r with
  | None => ret tt
  | Some r =>
      if negb (truthy sid) then
        await members ← Client.smembers r (user_key uid);
        for_each members (leave_member J r name uid)
      else
        wait Client.srem r (user_key uid) (JSON_stringify_entry name (default "" sid));
        wait Client.srem r (server_key name (default "" sid)) uid;
        Client.hdel r name uid
  end.

Definition members (name : string) : Async (option (list string)) :=
  await r ← get redis;
  match r with
  | None => ret None
  | Some r => await l ← Client.hkeys r name; ret (Some l)
  end.

Definition ismember (name uid : string) : Async (option Z) :=
  await r ← get redis;
  match r with
  | None => ret None
  | Some r => await n ← Client.hexists r name uid; ret (Some n)
  end.

Definition getMembersBySid (name sid : string) : Async (option (list string)) :=
  await r ← get redis;
  match r with
  | None => ret None
  | Some r => await l ← Client.smembers r (server_key name sid); ret (Some l)
  end.

(** [getChannelsByUid(uid)]: each text of the set parsed, or left as it is
    when it does not parse. *)
Definition getChannelsByUid (J : JSON) (uid : string)
  : Async (list (string + json J)) :=
  await r ← get redis;
  match r with
  | None => ret []
  | Some r =>
      await channels ← Client.smembers r (user_key uid);
      ret (map (λ text, match JSON_parse J text with
                        | Some v => inr v
                        | None => inl text
                        end) channels)
  end.

End Manager.

Module Service.

Definition destroyChannel (e : Servers) (name : string) : Async unit :=
  ChannelService.started tt (Manager.destroyChannel e name).

Definition add (name uid sid : string) : Async unit :=
  ChannelService.started tt (Manager.add name uid sid).

Definition leave (J : JSON) (name uid : string) (sid : option string) : Async unit :=
  ChannelService.started tt (Manager.leave J name uid sid).

Definition getMembersBySid (name sid : string) : Async (option (list string)) :=
  ChannelService.started (Some []) (Manager.getMembersBySid name sid).

Definition getMembersByChannel (name : string) : Async (list string) :=
  ChannelService.started [] (await l ← Manager.members name; ret (default [] l)).

(** [(await this.manager.ismember(name, uid)) || false]: the reply of
    HEXISTS when it is not 0, else [false]. *)
Definition isMemberInChannel (name uid : string) : Async any :=
  ChannelService.started (ABool false)
    (await n ← Manager.ismember name uid;
     ret (match n with
          | Some n => if (n =? 0)%Z then ABool false else ANumber n
          | None => ABool false
          end)).

(** The [for] of [getMembersByChannelName]. *)
Fixpoint collect (name : string) (servers : list ServerInfo) (members : list string)
  : Async (list string) :=
  match servers with
  | [] => ret members
  | server :: rest =>
      await m ← getMembersBySid name (id server);
      if nonempty m then collect name rest (members ++ default [] m)%list
      else collect name rest members
  end.

Definition getMembersByChannelName (stype name : string)
  : Async (option (list string)) :=
  ChannelService.started None
    (await servers ← get (λ s, getServersByType (app s) stype);
     match servers with
     | [] => ret (Some [])
     | _ :: _ => await members ← collect name servers []; ret (Some members)
     end).

Definition getChannelsByMember (J : JSON) (uid : string)
  : Async (list (string + json J)) :=
  ChannelService.started [] (Manager.getChannelsByUid J uid).

(** The [for (let i in servers)] of [pushMessage]; [promisify] makes an
    error of the remote call reject the method. *)
Fixpoint push_each (e : Servers) (route : string) (msg : any) (channelName : string)
    (servers : list ServerInfo) (failIds : list string) : Async (list string) :=
  match servers with
  | [] => ret failIds
  | server :: rest =>
      await uids ← getMembersBySid channelName (id server);
      if nonempty uids then
        let params := ChannelService.envelope route msg (default [] uids) in
        wait ChannelService.rpcInvoke (id server) params;
        match rpcReply e (id server) params with
        | None => throw
        | Some fails =>
            push_each e route msg channelName rest
              (if fails is Some l then failIds ++ l else failIds)%list
        end
      else push_each e route msg channelName rest failIds
  end.

(** [pushMessage]. Its not-started branch logs [name], an identifier that
    nothing in the file binds: [global_name] is what the runtime has for
    it, [None] when it has nothing and the reference throws. *)
Definition pushMessage (global_name : option any) (e : Servers)
    (serverType route : string) (msg : any) (channelName : string) (opts : any)
  : Async (option (list string)) :=
  await st ← get state;
  if bool_decide (st = ST_STARTED) then
    await servers ← get (λ s, getServersByType (app s) serverType);
    match servers with
    | [] => ret None
    | _ :: _ =>
        await failIds ← push_each e route msg channelName servers [];
        ret (Some failIds)
    end
  else
    match global_name with
    | None => throw
    | Some _ => ret None
    end.

End Service.

End GlobalChannel.

(** What [getMembersBySid(name, sid)] of the older service gives its
    callers, [undefined] and a rejection counting as no member; and the
    servers its [pushMessage] calls. *)
Definition older_members (name sid : string) (s : System) : list string :=
  match result (GlobalChannel.Service.getMembersBySid name sid) s with
  | Some (Some l) => l
  | _ => []
  end.

Definition older_targeted (name : string) (servers : list ServerInfo) (s : System)
  : list ServerInfo :=
  filter (λ sv, older_members name (id sv) s ≠ []) servers.

(** From [d] to [d'] sets and hashes only lost members and fields, and
    every key that could be read as a set, or as a hash, still can. *)
Definition dwindled (d d' : db) : Prop :=
  (∀ k m, set_at k d = Some m → ∃ m', set_at k d' = Some m' ∧ m' ⊆ m) ∧
  (∀ k h, hash_at k d = Some h → ∃ h', hash_at k d' = Some h' ∧ h' ⊆ h).

(** * Properties *)

(** ** Strings and keys *)

Lemma prefix_app_cancel (p a b : string) :
  String.prefix (p +:+ a) (p +:+ b) = String.prefix a b.
Proof.
  induction p as [|ch p IH]; simpl; [done|].
  destruct (Ascii.ascii_dec ch ch); [apply IH | congruence].
Qed.

Lemma prefix_app_l (p a x : string) :
  String.prefix (p +:+ a) (p +:+ a +:+ x) = true.
Proof.
  rewrite prefix_app_cancel. induction a as [|ch a IH]; simpl.
  - by destruct x.
  - by destruct (Ascii.ascii_dec ch ch).
Qed.

Lemma app_String (a : ascii) (x y : string) : String a x +:+ y = String a (x +:+ y).
Proof. reflexivity. Qed.

Lemma app_Empty (y : string) : "" +:+ y = y.
Proof. reflexivity. Qed.

(** Two keys under the same prefix: compare what follows the prefix. *)
Ltac key_eq E :=
  unfold Client.key in E;
  repeat (apply (inj (String.app _)) in E);
  rewrite ?app_String, ?app_Empty in E;
  try discriminate E;
  try (injection E as E; repeat (apply (inj (String.app _)) in E);
       rewrite ?app_String, ?app_Empty in E; try discriminate E;
       try (injection E as E)).

Lemma Ks_inj r c s1 s2 : Ks r c s1 = Ks r c s2 → s1 = s2.
Proof. unfold Ks. intros E. by key_eq E. Qed.

Lemma Kc_inj r c1 c2 : Kc r c1 = Kc r c2 → c1 = c2.
Proof. unfold Kc. intros E. by key_eq E. Qed.

Lemma Ku_inj r u1 u2 : Ku r u1 = Ku r u2 → u1 = u2.
Proof. unfold Ku. intros E. by key_eq E. Qed.

Lemma Kc_Ku r c u : Kc r c ≠ Ku r u.
Proof. unfold Kc, Ku. intros E. key_eq E. Qed.

Lemma Kc_Ks r c c' sid : Kc r c ≠ Ks r c' sid.
Proof. unfold Kc, Ks. intros E. key_eq E. Qed.

Lemma Ku_Ks r u c sid : Ku r u ≠ Ks r c sid.
Proof. unfold Ku, Ks. intros E. key_eq E. Qed.

(** ** Reading the keyspace after a write *)

Lemma hash_at_put_hash k h d : hash_at k (put_hash k h d) = Some h.
Proof.
  unfold hash_at, put_hash. case_decide; subst.
  - by rewrite lookup_delete_eq.
  - by rewrite lookup_insert_eq.
Qed.

Lemma set_at_put_set k m d : set_at k (put_set k m d) = Some m.
Proof.
  unfold set_at, put_set. case_decide; subst.
  - by rewrite lookup_delete_eq.
  - by rewrite lookup_insert_eq.
Qed.

Lemma lookup_put_hash_ne k k' h d : k ≠ k' → put_hash k h d !! k' = d !! k'.
Proof.
  intros. unfold put_hash. case_decide.
  - by rewrite lookup_delete_ne.
  - by rewrite lookup_insert_ne.
Qed.

Lemma lookup_put_set_ne k k' m d : k ≠ k' → put_set k m d !! k' = d !! k'.
Proof.
  intros. unfold put_set. case_decide.
  - by rewrite lookup_delete_ne.
  - by rewrite lookup_insert_ne.
Qed.

Lemma hash_at_put_hash_ne k k' h d : k ≠ k' → hash_at k' (put_hash k h d) = hash_at k' d.
Proof. intros. unfold hash_at. by rewrite lookup_put_hash_ne. Qed.

Lemma set_at_put_hash_ne k k' h d : k ≠ k' → set_at k' (put_hash k h d) = set_at k' d.
Proof. intros. unfold set_at. by rewrite lookup_put_hash_ne. Qed.

Lemma hash_at_put_set_ne k k' m d : k ≠ k' → hash_at k' (put_set k m d) = hash_at k' d.
Proof. intros. unfold hash_at. by rewrite lookup_put_set_ne. Qed.

Lemma set_at_put_set_ne k k' m d : k ≠ k' → set_at k' (put_set k m d) = set_at k' d.
Proof. intros. unfold set_at. by rewrite lookup_put_set_ne. Qed.

(** ** Well-kinded keyspaces *)

Lemma well_kinded_kinded p d : well_kinded p d = true → kinded p d.
Proof.
  unfold well_kinded, kinded. rewrite forallb_forall. intros H k v Hk.
  apply (H (k, v)). apply list_elem_of_In. by apply elem_of_map_to_list.
Qed.

Lemma kinded_hash p d k :
  kinded p d →
  String.prefix (p +:+ "c#") k || String.prefix (p +:+ "u#") k = true →
  ∃ h, hash_at k d = Some h.
Proof.
  intros Hd Hk. unfold hash_at. destruct (d !! k) as [[h|m]|] eqn:E; eauto.
  apply Hd in E. simpl in E. rewrite Hk in E. done.
Qed.

Lemma kinded_set p d k :
  kinded p d → String.prefix (p +:+ "s#") k = true → ∃ m, set_at k d = Some m.
Proof.
  intros Hd Hk. unfold set_at. destruct (d !! k) as [[h|m]|] eqn:E; eauto.
  apply Hd in E. simpl in E. rewrite Hk in E. done.
Qed.

Lemma kinded_Kc r d c : kinded (prefix r) d → ∃ h, hash_at (Kc r c) d = Some h.
Proof.
  intros Hd. apply (kinded_hash _ _ _ Hd). unfold Kc, Client.key.
  by rewrite prefix_app_l.
Qed.

Lemma kinded_Ku r d u : kinded (prefix r) d → ∃ h, hash_at (Ku r u) d = Some h.
Proof.
  intros Hd. apply (kinded_hash _ _ _ Hd). unfold Ku, Client.key.
  rewrite (prefix_app_l _ "u#"). apply orb_true_r.
Qed.

Lemma kinded_Ks r d c sid : kinded (prefix r) d → ∃ m, set_at (Ks r c sid) d = Some m.
Proof.
  intros Hd. apply (kinded_set _ _ _ Hd). unfold Ks, Client.key.
  apply (prefix_app_l _ "s#").
Qed.

Lemma kinded_put_hash p d k h :
  kinded p d → String.prefix (p +:+ "s#") k = false → kinded p (put_hash k h d).
Proof.
  intros Hd Hk k' v. unfold put_hash. case_decide.
  - rewrite lookup_delete. case_decide; [done | apply Hd].
  - rewrite lookup_insert. case_decide; [|apply Hd].
    intros [= <-]. subst k'. simpl. by rewrite Hk.
Qed.

Lemma kinded_put_set p d k m :
  kinded p d →
  String.prefix (p +:+ "c#") k || String.prefix (p +:+ "u#") k = false →
  kinded p (put_set k m d).
Proof.
  intros Hd Hk k' v. unfold put_set. case_decide.
  - rewrite lookup_delete. case_decide; [done | apply Hd].
  - rewrite lookup_insert. case_decide; [|apply Hd].
    intros [= <-]. subst k'. simpl. by rewrite Hk.
Qed.

Lemma kinded_put_Kc r d c h : kinded (prefix r) d → kinded (prefix r) (put_hash (Kc r c) h d).
Proof.
  intros. apply kinded_put_hash; [done|]. unfold Kc, Client.key.
  by rewrite prefix_app_cancel.
Qed.

Lemma kinded_put_Ku r d u h : kinded (prefix r) d → kinded (prefix r) (put_hash (Ku r u) h d).
Proof.
  intros. apply kinded_put_hash; [done|]. unfold Ku, Client.key.
  by rewrite prefix_app_cancel.
Qed.

Lemma kinded_put_Ks r d c sid m :
  kinded (prefix r) d → kinded (prefix r) (put_set (Ks r c sid) m d).
Proof.
  intros. apply kinded_put_set; [done|]. unfold Ks, Client.key.
  by rewrite !prefix_app_cancel.
Qed.

Lemma hash_at_chan r d c : kinded (prefix r) d → hash_at (Kc r c) d = Some (chan r d c).
Proof. intros H. unfold chan. by destruct (kinded_Kc r d c H) as [h ->]. Qed.

Lemma hash_at_user r d u : kinded (prefix r) d → hash_at (Ku r u) d = Some (user r d u).
Proof. intros H. unfold user. by destruct (kinded_Ku r d u H) as [h ->]. Qed.

Lemma set_at_srv r d c sid : kinded (prefix r) d → set_at (Ks r c sid) d = Some (srv r d c sid).
Proof. intros H. unfold srv. by destruct (kinded_Ks r d c sid H) as [h ->]. Qed.

(** Solves [k ≠ k'] between keys of different families, or from what is
    known about the names. *)
Ltac keys :=
  solve [ apply Kc_Ku | apply Kc_Ks | apply Ku_Ks
        | apply not_eq_sym; first [apply Kc_Ku | apply Kc_Ks | apply Ku_Ks]
        | assumption | apply not_eq_sym; assumption
        | let E := fresh in
          intros E;
          first [apply Kc_inj in E | apply Ku_inj in E | apply Ks_inj in E];
          congruence ].

(** Reads through the writes, whatever key they went to. *)
Ltac through :=
  repeat first
    [ rewrite hash_at_put_hash
    | rewrite set_at_put_set
    | rewrite hash_at_put_hash_ne by keys
    | rewrite hash_at_put_set_ne by keys
    | rewrite set_at_put_hash_ne by keys
    | rewrite set_at_put_set_ne by keys
    | rewrite lookup_put_hash_ne by keys
    | rewrite lookup_put_set_ne by keys ].

(** ** Commands that get their reply *)

Lemma hget_runs r k f s h :
  hash_at (Client.key r k) (store s) = Some h →
  Client.hget r k f s = Done (h !! f) (sent (HGET (Client.key r k) f) s).
Proof. unfold Client.hget, ask, Redis.hget. by intros ->. Qed.

Lemma hset_runs r k f v s h :
  hash_at (Client.key r k) (store s) = Some h →
  Client.hset r k f v s =
  Done tt (set_store (put_hash (Client.key r k) (<[f := v]> h) (store s))
                     (sent (HSET (Client.key r k) f v) s)).
Proof. unfold Client.hset, tell, Redis.hset. by intros ->. Qed.

Lemma hdel_runs r k f s h :
  hash_at (Client.key r k) (store s) = Some h →
  Client.hdel r k f s =
  Done tt (set_store (put_hash (Client.key r k) (delete f h) (store s))
                     (sent (HDEL (Client.key r k) f) s)).
Proof. unfold Client.hdel, tell, Redis.hdel. by intros ->. Qed.

Lemma hlen_runs r k s h :
  hash_at (Client.key r k) (store s) = Some h →
  Client.hlen r k s = Done (Z.of_nat (size h)) (sent (HLEN (Client.key r k)) s).
Proof. unfold Client.hlen, ask, Redis.hlen. by intros ->. Qed.

Lemma hkeys_runs r k s h :
  hash_at (Client.key r k) (store s) = Some h →
  Client.hkeys r k s = Done (elements (dom h)) (sent (HKEYS (Client.key r k)) s).
Proof. unfold Client.hkeys, ask, Redis.hkeys. by intros ->. Qed.

Lemma hexists_runs r k f s h :
  hash_at (Client.key r k) (store s) = Some h →
  Client.hexists r k f s =
  Done (if h !! f is Some _ then 1 else 0) (sent (HEXISTS (Client.key r k) f) s).
Proof. unfold Client.hexists, ask, Redis.hexists. by intros ->. Qed.

Lemma sadd_runs r k x s m :
  set_at (Client.key r k) (store s) = Some m →
  Client.sadd r k x s =
  Done tt (set_store (put_set (Client.key r k) ({[x]} ∪ m) (store s))
                     (sent (SADD (Client.key r k) x) s)).
Proof. unfold Client.sadd, tell, Redis.sadd. by intros ->. Qed.

Lemma srem_runs r k x s m :
  set_at (Client.key r k) (store s) = Some m →
  Client.srem r k x s =
  Done tt (set_store (put_set (Client.key r k) (m ∖ {[x]}) (store s))
                     (sent (SREM (Client.key r k) x) s)).
Proof. unfold Client.srem, tell, Redis.srem. by intros ->. Qed.

Lemma smembers_runs r k s m :
  set_at (Client.key r k) (store s) = Some m →
  Client.smembers r k s = Done (elements m) (sent (SMEMBERS (Client.key r k)) s).
Proof. unfold Client.smembers, ask, Redis.smembers. by intros ->. Qed.

(** The indexes of a keyspace that was just written to. *)
Ltac views :=
  repeat match goal with
  | |- context [chan ?r (put_hash ?k ?h ?d) ?c] =>
      change (chan r (put_hash k h d) c)
        with (default ∅ (hash_at (Kc r c) (put_hash k h d)))
  | |- context [chan ?r (put_set ?k ?h ?d) ?c] =>
      change (chan r (put_set k h d) c)
        with (default ∅ (hash_at (Kc r c) (put_set k h d)))
  | |- context [user ?r (put_hash ?k ?h ?d) ?c] =>
      change (user r (put_hash k h d) c)
        with (default ∅ (hash_at (Ku r c) (put_hash k h d)))
  | |- context [user ?r (put_set ?k ?h ?d) ?c] =>
      change (user r (put_set k h d) c)
        with (default ∅ (hash_at (Ku r c) (put_set k h d)))
  | |- context [srv ?r (put_hash ?k ?h ?d) ?c ?x] =>
      change (srv r (put_hash k h d) c x)
        with (default ∅ (set_at (Ks r c x) (put_hash k h d)))
  | |- context [srv ?r (put_set ?k ?h ?d) ?c ?x] =>
      change (srv r (put_set k h d) c x)
        with (default ∅ (set_at (Ks r c x) (put_set k h d)))
  end;
  through;
  repeat match goal with
  | |- context [default ∅ (hash_at (Kc ?r ?c) ?d)] =>
      change (default ∅ (hash_at (Kc r c) d)) with (chan r d c)
  | |- context [default ∅ (hash_at (Ku ?r ?c) ?d)] =>
      change (default ∅ (hash_at (Ku r c) d)) with (user r d c)
  | |- context [default ∅ (set_at (Ks ?r ?c ?x) ?d)] =>
      change (default ∅ (set_at (Ks r c x) d)) with (srv r d c x)
  end;
  cbn [default from_option Datatypes.id].

(** Writes of the registry keep the keyspace well kinded. *)
Ltac kinds :=
  repeat first [apply kinded_put_Kc | apply kinded_put_Ku | apply kinded_put_Ks].

(** The fields of a system after a step. *)
Ltac fields :=
  cbn [app opts state redis store wire invoked parked
       set_state set_redis set_store set_wire set_invoked set_parked sent] in *.

(** Runs the next command of the body with its reply lemma. *)
Tactic Notation "run" uconstr(lem) :=
  erewrite lem by (fields; through; first [eassumption | reflexivity]); fields.

(** ** [ChannelManager.add] *)

Lemma in_added (u : string) (m : gset string) : u ∈ {[u]} ∪ m.
Proof. apply elem_of_union_l. by apply elem_of_singleton. Qed.

Lemma not_in_removed (u : string) (m : gset string) : u ∉ m ∖ {[u]}.
Proof. intros [_ H]%elem_of_difference. apply H. by apply elem_of_singleton. Qed.

Lemma other_in_added (u v : string) (m : gset string) :
  v ≠ u → v ∈ {[u]} ∪ m ↔ v ∈ m.
Proof.
  intros Hne. rewrite elem_of_union, elem_of_singleton. tauto.
Qed.

Lemma removed_subseteq (u : string) (m : gset string) : m ∖ {[u]} ⊆ m.
Proof. intros x [H _]%elem_of_difference. exact H. Qed.

Lemma readd_member (u : string) (m : gset string) : {[u]} ∪ m ∖ {[u]} = {[u]} ∪ m.
Proof.
  apply set_eq. intros x.
  rewrite !elem_of_union, elem_of_difference, elem_of_singleton.
  destruct (decide (x = u)); tauto.
Qed.

Lemma add_runs r s c u sid :
  redis s = Some r → kinded (prefix r) (store s) →
  ∃ s', ChannelManager.add c u sid s = Done tt s' ∧
        same_service s s' ∧
        kinded (prefix r) (store s') ∧
        chan r (store s') c = <[u := sid]> (chan r (store s) c) ∧
        user r (store s') u = <[c := sid]> (user r (store s) u) ∧
        srv r (store s') c sid = {[u]} ∪ srv r (store s) c sid ∧
        (∀ k, k ≠ Kc r c → k ≠ Ku r u → k ≠ Ks r c sid →
              store s' !! k = store s !! k) ∧
        wire s' = (wire s ++ [HGET (Ku r u) c] ++
                   (if truthy (user r (store s) u !! c)
                    then [SREM (Ks r c sid) u] else []) ++
                   [HSET (Ku r u) c sid; SADD (Ks r c sid) u; HSET (Kc r c) u sid])%list.
Proof.
  intros Hr Hk.
  pose proof (hash_at_user r _ u Hk) as Hu.
  pose proof (hash_at_chan r _ c Hk) as Hc.
  pose proof (set_at_srv r _ c sid Hk) as Hs.
  unfold ChannelManager.add, bind, get. rewrite Hr.
  run hget_runs.
  destruct (truthy (user r (store s) u !! c)) eqn:Ho; unfold when, ret.
  1: run srem_runs.
  all: run hset_runs.
  all: run sadd_runs.
  all: run hset_runs.
  all: eexists; split; [reflexivity|]; fields.
  all: split; [done|].
  all: split; [by kinds|].
  all: split; [by views|]; split; [by views|].
  all: split; [views; by rewrite ?readd_member|].
  all: split; [intros k ? ? ?; by through|].
  all: by rewrite <- ?app_assoc.
Qed.

(** ** [ChannelManager.leave] *)

Lemma leave_rest_runs r s c u sid :
  kinded (prefix r) (store s) →
  ∃ s', ChannelManager.leave_rest r c u sid s = Done tt s' ∧
        same_service s s' ∧
        kinded (prefix r) (store s') ∧
        chan r (store s') c = delete u (chan r (store s) c) ∧
        user r (store s') u = delete c (user r (store s) u) ∧
        (truthy sid = true →
         srv r (store s') c (default "" sid) = srv r (store s) c (default "" sid) ∖ {[u]}) ∧
        (∀ k, k ≠ Kc r c → k ≠ Ku r u →
              (truthy sid = true → k ≠ Ks r c (default "" sid)) →
              store s' !! k = store s !! k) ∧
        wire s' = (wire s ++ [HDEL (Ku r u) c; HDEL (Kc r c) u] ++
                   (if truthy sid then [SREM (Ks r c (default "" sid)) u] else []))%list.
Proof.
  intros Hk.
  pose proof (hash_at_user r _ u Hk) as Hu.
  pose proof (hash_at_chan r _ c Hk) as Hc.
  pose proof (set_at_srv r _ c (default "" sid) Hk) as Hs.
  unfold ChannelManager.leave_rest, bind, forget.
  run hdel_runs. run hdel_runs.
  destruct (truthy sid) eqn:Ho; unfold when, ret.
  1: run srem_runs.
  all: eexists; split; [reflexivity|]; fields.
  all: split; [done|].
  all: split; [by kinds|].
  all: split; [by views|]; split; [by views|].
  all: split; [intros; by views|].
  all: split; [intros k ? ? Hne; try specialize (Hne eq_refl); by through|].
  all: by rewrite <- ?app_assoc.
Qed.

Lemma leave_runs r s c u sid :
  redis s = Some r → kinded (prefix r) (store s) →
  let sid' := resolved r (store s) c u sid in
  ∃ s', ChannelManager.leave c u sid s = Done tt s' ∧
        same_service s s' ∧
        kinded (prefix r) (store s') ∧
        chan r (store s') c = delete u (chan r (store s) c) ∧
        user r (store s') u = delete c (user r (store s) u) ∧
        (truthy sid' = true →
         srv r (store s') c (default "" sid') = srv r (store s) c (default "" sid') ∖ {[u]}) ∧
        (∀ k, k ≠ Kc r c → k ≠ Ku r u →
              (truthy sid' = true → k ≠ Ks r c (default "" sid')) →
              store s' !! k = store s !! k) ∧
        wire s' = (wire s ++ (if truthy sid then [] else [HGET (Ku r u) c]) ++
                   [HDEL (Ku r u) c; HDEL (Kc r c) u] ++
                   (if truthy sid' then [SREM (Ks r c (default "" sid')) u] else []))%list.
Proof.
  intros Hr Hk sid'. subst sid'. unfold resolved.
  pose proof (hash_at_user r _ u Hk) as Hu.
  unfold ChannelManager.leave, bind, get. rewrite Hr.
  destruct (truthy sid) eqn:Ho; unfold ret.
  - destruct (leave_rest_runs r s c u sid Hk) as (s' & -> & H).
    exists s'. split; [done|]. exact H.
  - run hget_runs.
    destruct (leave_rest_runs r (sent (HGET (Client.key r ("u#" +:+ u)) c) s) c u
                (user r (store s) u !! c) Hk) as (s' & -> & H).
    exists s'. split; [done|]. fields.
    destruct H as (? & ? & ? & ? & ? & ? & ->).
    repeat (split; [done|]). by rewrite <- app_assoc.
Qed.

(** ** The queries of the manager *)

Lemma members_runs r s c sid :
  redis s = Some r → kinded (prefix r) (store s) →
  ChannelManager.members c sid s =
  if truthy sid then
    Done (Some (elements (srv r (store s) c (default "" sid))))
         (sent (SMEMBERS (Ks r c (default "" sid))) s)
  else
    Done (Some (elements (dom (chan r (store s) c)))) (sent (HKEYS (Kc r c)) s).
Proof.
  intros Hr Hk.
  pose proof (hash_at_chan r _ c Hk) as Hc.
  pose proof (set_at_srv r _ c (default "" sid) Hk) as Hs.
  unfold ChannelManager.members, bind, get. rewrite Hr.
  destruct (truthy sid).
  - by run smembers_runs.
  - by run hkeys_runs.
Qed.

Lemma ismember_runs r s c u :
  redis s = Some r → kinded (prefix r) (store s) →
  ChannelManager.ismember c u s =
  Done (Some (if chan r (store s) c !! u is Some _ then 1 else 0))
       (sent (HEXISTS (Kc r c) u) s).
Proof.
  intros Hr Hk. pose proof (hash_at_chan r _ c Hk) as Hc.
  unfold ChannelManager.ismember, bind, get. rewrite Hr. by run hexists_runs.
Qed.

Lemma len_runs r s c :
  redis s = Some r → kinded (prefix r) (store s) →
  ChannelManager.len c s =
  Done (Some (Z.of_nat (size (chan r (store s) c)))) (sent (HLEN (Kc r c)) s).
Proof.
  intros Hr Hk. pose proof (hash_at_chan r _ c Hk) as Hc.
  unfold ChannelManager.len, bind, get. rewrite Hr. by run hlen_runs.
Qed.

Lemma channels_runs r s u :
  redis s = Some r → kinded (prefix r) (store s) →
  ChannelManager.channels u s =
  Done (elements (dom (user r (store s) u))) (sent (HKEYS (Ku r u)) s).
Proof.
  intros Hr Hk. pose proof (hash_at_user r _ u Hk) as Hu.
  unfold ChannelManager.channels, bind, get. rewrite Hr. by run hkeys_runs.
Qed.

(** ** The gate of the service *)

Lemma started_runs {A} (o : A) (m : Async A) s :
  state s = ST_STARTED → ChannelService.started o m s = m s.
Proof. intros H. unfold ChannelService.started, bind, get. by rewrite H. Qed.

Lemma started_gate {A} (o : A) (m : Async A) s :
  state s ≠ ST_STARTED → ChannelService.started o m s = Done o s.
Proof.
  intros H. unfold ChannelService.started, bind, get.
  by rewrite bool_decide_eq_false_2.
Qed.

Lemma running_Ready s : running s = true → ∃ r, Ready r s.
Proof.
  unfold running, Ready. intros [[H1 H2]%andb_prop _]%andb_prop.
  apply bool_decide_eq_true in H1.
  destruct (redis s) as [r|]; [|done].
  exists r. auto using well_kinded_kinded.
Qed.

(** ** The service, started and connected *)

Lemma Ready_same r s s' :
  Ready r s → same_service s s' → kinded (prefix r) (store s') → Ready r s'.
Proof.
  intros (Hst & Hr & _) (_ & _ & Hst' & Hr' & _) Hk.
  unfold Ready. by rewrite Hst', Hr'.
Qed.

Lemma Ready_sent r s c : Ready r s → Ready r (sent c s).
Proof. by intros (? & ? & ?). Qed.

Lemma service_add_runs r s c u sid :
  Ready r s →
  ∃ s', ChannelService.add c u sid s = Done tt s' ∧
        Ready r s' ∧ same_service s s' ∧
        chan r (store s') c = <[u := sid]> (chan r (store s) c) ∧
        user r (store s') u = <[c := sid]> (user r (store s) u) ∧
        srv r (store s') c sid = {[u]} ∪ srv r (store s) c sid ∧
        (∀ k, k ≠ Kc r c → k ≠ Ku r u → k ≠ Ks r c sid →
              store s' !! k = store s !! k) ∧
        wire s' = (wire s ++ [HGET (Ku r u) c] ++
                   (if truthy (user r (store s) u !! c)
                    then [SREM (Ks r c sid) u] else []) ++
                   [HSET (Ku r u) c sid; SADD (Ks r c sid) u; HSET (Kc r c) u sid])%list.
Proof.
  intros HR. pose proof HR as (Hst & Hr & Hk).
  unfold ChannelService.add. rewrite started_runs by done.
  destruct (add_runs r s c u sid Hr Hk) as (s' & E & Hsame & Hk' & H).
  exists s'. eauto using Ready_same.
Qed.

Lemma service_leave_runs r s c u sid :
  Ready r s →
  let sid' := resolved r (store s) c u sid in
  ∃ s', ChannelService.leave c u sid s = Done tt s' ∧
        Ready r s' ∧ same_service s s' ∧
        chan r (store s') c = delete u (chan r (store s) c) ∧
        user r (store s') u = delete c (user r (store s) u) ∧
        (truthy sid' = true →
         srv r (store s') c (default "" sid') = srv r (store s) c (default "" sid') ∖ {[u]}) ∧
        (∀ k, k ≠ Kc r c → k ≠ Ku r u →
              (truthy sid' = true → k ≠ Ks r c (default "" sid')) →
              store s' !! k = store s !! k) ∧
        wire s' = (wire s ++ (if truthy sid then [] else [HGET (Ku r u) c]) ++
                   [HDEL (Ku r u) c; HDEL (Kc r c) u] ++
                   (if truthy sid' then [SREM (Ks r c (default "" sid')) u] else []))%list.
Proof.
  intros HR. pose proof HR as (Hst & Hr & Hk).
  unfold ChannelService.leave. rewrite started_runs by done.
  destruct (leave_runs r s c u sid Hr Hk) as (s' & E & Hsame & Hk' & H).
  exists s'. eauto using Ready_same.
Qed.

Lemma service_members_runs r s c sid :
  Ready r s →
  ChannelService.members c sid s =
  if truthy sid then
    Done (Some (elements (srv r (store s) c (default "" sid))))
         (sent (SMEMBERS (Ks r c (default "" sid))) s)
  else
    Done (Some (elements (dom (chan r (store s) c)))) (sent (HKEYS (Kc r c)) s).
Proof.
  intros (Hst & Hr & Hk). unfold ChannelService.members.
  rewrite started_runs by done. by apply members_runs.
Qed.

Lemma service_ismember_runs r s c u :
  Ready r s →
  ChannelService.ismember c u s =
  Done (Some (if chan r (store s) c !! u is Some _ then 1 else 0))
       (sent (HEXISTS (Kc r c) u) s).
Proof.
  intros (Hst & Hr & Hk). unfold ChannelService.ismember.
  rewrite started_runs by done. by apply ismember_runs.
Qed.

Lemma service_len_runs r s c :
  Ready r s →
  ChannelService.len c s =
  Done (Some (Z.of_nat (size (chan r (store s) c)))) (sent (HLEN (Kc r c)) s).
Proof.
  intros (Hst & Hr & Hk). unfold ChannelService.len.
  rewrite started_runs by done. by apply len_runs.
Qed.

Lemma service_channels_runs r s u :
  Ready r s →
  ChannelService.channels u s =
  Done (Some (elements (dom (user r (store s) u)))) (sent (HKEYS (Ku r u)) s).
Proof.
  intros (Hst & Hr & Hk). unfold ChannelService.channels.
  rewrite started_runs by done. unfold bind.
  by rewrite (channels_runs r s u Hr Hk).
Qed.

(** What [members(c, sid)] lists, in terms of the indexes: the set of the
    server, or, for the empty server id, the whole channel. *)
Lemma listed_members r s c sid u :
  Ready r s →
  listed u (result (ChannelService.members c (Some sid)) s) ↔
  if truthy (Some sid) then u ∈ srv r (store s) c sid
  else is_Some (chan r (store s) c !! u).
Proof.
  intros HR. unfold listed, result.
  rewrite (service_members_runs r s c (Some sid) HR).
  destruct (truthy (Some sid)); simpl.
  - split.
    + intros (l & [= <-] & Hl). by apply elem_of_elements in Hl.
    + intros Hu. eexists. split; [done|]. by apply elem_of_elements.
  - split.
    + intros (l & [= <-] & Hl). by apply elem_of_elements, elem_of_dom in Hl.
    + intros Hu. eexists. split; [done|]. by apply elem_of_elements, elem_of_dom.
Qed.

(** ** Join, then read *)

(** C2. For every channel [c], user [u] and server [sid], in a started
    service: [add(c, u, sid)] completes, and after it [ismember(c, u)]
    returns 1 (the reply of HEXISTS, true for JavaScript) and
    [members(c, sid)] lists [u]. *)
Theorem add_then_member s c u sid :
  running s = true →
  let s1 := after (ChannelService.add c u sid) s in
  result (ChannelService.add c u sid) s = Some tt ∧
  result (ChannelService.ismember c u) s1 = Some (Some 1) ∧
  listed u (result (ChannelService.members c (Some sid)) s1).
Proof.
  intros [r HR]%running_Ready.
  destruct (service_add_runs r s c u sid HR)
    as (s' & E & HR' & _ & Hc & _ & Hs & _).
  unfold after, result at 1. rewrite E. cbn zeta.
  split; [done|]. split.
  - unfold result. rewrite (service_ismember_runs r s' c u HR').
    by rewrite Hc, lookup_insert_eq.
  - apply (listed_members r s' c sid u HR').
    destruct (truthy (Some sid)).
    + rewrite Hs. apply in_added.
    + by rewrite Hc, lookup_insert_eq.
Qed.

Lemma add_then_member_witness :
  running lobby0 = true ∧
  listed "u1" (result (ChannelService.members "lobby" (Some "srvA"))
                      (after (ChannelService.add "lobby" "u1" "srvA") lobby0)).
Proof.
  split; [vm_compute; reflexivity|].
  apply (add_then_member lobby0 "lobby" "u1" "srvA"). vm_compute; reflexivity.
Defined.

(** ** Join, then leave without naming the server *)

(** C3, as the code has it. For every channel [c], user [u] and server
    [sid], in a started service, [add(c, u, sid)] and then [leave(c, u)]
    with no server: the leave first asks the [u#] hash of the user for the
    server of the channel (HGET), then deletes the channel from that hash,
    the user from the [c#] hash of the channel and, when the server it got
    is not the empty string, the user from the [s#] set of that server.
    After it [ismember(c, u)] returns 0, [members(c, sid)] does not list
    [u] and [channels(u)] does not list [c]; the record is out of the [c#]
    and the [u#] index, and out of the [s#] index when [sid] is not the
    empty string. For the empty server id the reply of the HGET is falsy,
    no SREM is sent, and the set [s#c:] keeps the user. *)
Theorem add_leave_gone s r c u sid :
  running s = true → redis s = Some r →
  let s1 := after (ChannelService.add c u sid) s in
  let s2 := after (ChannelService.leave c u None) s1 in
  result (ChannelService.leave c u None) s1 = Some tt ∧
  wire s2 = (wire s1 ++ [HGET (Ku r u) c; HDEL (Ku r u) c; HDEL (Kc r c) u] ++
             (if truthy (Some sid) then [SREM (Ks r c sid) u] else []))%list ∧
  result (ChannelService.ismember c u) s2 = Some (Some 0) ∧
  ¬ listed u (result (ChannelService.members c (Some sid)) s2) ∧
  ¬ listed c (result (ChannelService.channels u) s2) ∧
  chan r (store s2) c !! u = None ∧
  user r (store s2) u !! c = None ∧
  (sid ≠ "" → u ∉ srv r (store s2) c sid) ∧
  (sid = "" → u ∈ srv r (store s2) c sid).
Proof.
  intros [r' HR]%running_Ready Hr.
  assert (r' = r) as -> by (destruct HR as (_ & Hr' & _); congruence).
  destruct (service_add_runs r s c u sid HR)
    as (s1 & E1 & HR1 & _ & Hc1 & Hu1 & Hs1 & _).
  destruct (service_leave_runs r s1 c u None HR1)
    as (s2 & E2 & HR2 & _ & Hc2 & Hu2 & Hs2 & Hf2 & Hw2).
  unfold resolved in Hs2, Hf2, Hw2. cbn [truthy] in Hs2, Hf2, Hw2.
  rewrite Hu1, lookup_insert_eq in Hs2, Hf2, Hw2.
  cbn [default from_option Datatypes.id] in *.
  unfold after, result at 1. rewrite E1. cbn zeta. rewrite E2.
  split; [done|]. split; [exact Hw2|].
  split; [|split; [|split; [|split; [|split; [|split]]]]].
  - unfold result. rewrite (service_ismember_runs r s2 c u HR2).
    by rewrite Hc2, lookup_delete_eq.
  - rewrite (listed_members r s2 c sid u HR2).
    destruct (truthy (Some sid)).
    + rewrite Hs2 by done. apply not_in_removed.
    + rewrite Hc2, lookup_delete_eq. by intros [? ?].
  - unfold listed, result. rewrite (service_channels_runs r s2 u HR2).
    intros (l & [= <-] & Hl).
    apply elem_of_elements, elem_of_dom in Hl.
    rewrite Hu2, lookup_delete_eq in Hl. by destruct Hl.
  - by rewrite Hc2, lookup_delete_eq.
  - by rewrite Hu2, lookup_delete_eq.
  - intros Hne. rewrite Hs2; [apply not_in_removed|].
    simpl. by apply negb_true_iff, String.eqb_neq.
  - intros ->.
    assert (Hk : store s2 !! Ks r c "" = store s1 !! Ks r c "").
    { apply Hf2; [keys | keys | intros Ht; discriminate Ht]. }
    assert (srv r (store s2) c "" = srv r (store s1) c "") as ->
      by (unfold srv, set_at; by rewrite Hk).
    rewrite Hs1. apply elem_of_union_l. by apply elem_of_singleton.
Qed.

Lemma add_leave_gone_witness :
  running lobby0 = true ∧ redis lobby0 = Some {| prefix := "" |} ∧
  ¬ listed "u1" (result (ChannelService.members "lobby" (Some "srvA"))
                   (after (ChannelService.leave "lobby" "u1" None)
                      (after (ChannelService.add "lobby" "u1" "srvA") lobby0))).
Proof.
  split; [vm_compute; reflexivity|]. split; [vm_compute; reflexivity|].
  apply (add_leave_gone lobby0 {| prefix := "" |} "lobby" "u1" "srvA");
    vm_compute; reflexivity.
Defined.

(** C3 as it was stated fails for the empty server id: after
    [add('lobby', 'u1', '')] and [leave('lobby', 'u1')] the three queries
    show no record, but the leave sent no SREM and the set [s#lobby:] of
    the server index still holds [u1]: the record is not out of all three
    indexes. *)
Lemma leave_keeps_unnamed_server_set :
  let s2 := after (ChannelService.leave "lobby" "u1" None)
                  (after (ChannelService.add "lobby" "u1" "") lobby0) in
  result (ChannelService.leave "lobby" "u1" None)
         (after (ChannelService.add "lobby" "u1" "") lobby0) = Some tt ∧
  result (ChannelService.ismember "lobby" "u1") s2 = Some (Some 0) ∧
  wire s2 = [HGET "u#u1" "lobby"; HSET "u#u1" "lobby" ""; SADD "s#lobby:" "u1";
             HSET "c#lobby" "u1" "";
             HGET "u#u1" "lobby"; HDEL "u#u1" "lobby"; HDEL "c#lobby" "u1"] ∧
  store s2 !! "s#lobby:" = Some (SetOf {["u1"]}) ∧
  elements (dom (store s2)) = ["s#lobby:"].
Proof. vm_compute. done. Qed.

(** The three indexes after the leave: the record is out of the [c#] and
    the [u#] hash, and out of the [s#] set of the server unless the server
    id is the empty string, for which [leave] sends no SREM. *)
Lemma add_leave_indexes s r c u sid :
  Ready r s →
  let s2 := after (ChannelService.leave c u None)
                  (after (ChannelService.add c u sid) s) in
  chan r (store s2) c !! u = None ∧
  user r (store s2) u !! c = None ∧
  (sid ≠ "" → u ∉ srv r (store s2) c sid).
Proof.
  intros HR.
  destruct (service_add_runs r s c u sid HR)
    as (s1 & E1 & HR1 & _ & Hc1 & Hu1 & Hs1 & _).
  destruct (service_leave_runs r s1 c u None HR1)
    as (s2 & E2 & HR2 & _ & Hc2 & Hu2 & Hs2 & _ & Hw2).
  unfold resolved in Hs2. cbn [truthy] in Hs2.
  rewrite Hu1, lookup_insert_eq in Hs2. cbn [default from_option Datatypes.id] in *.
  unfold after. rewrite E1, E2. cbn zeta.
  rewrite Hc2, Hu2, !lookup_delete_eq. repeat split.
  intros Hne. rewrite Hs2; [apply not_in_removed|].
  simpl. by apply negb_true_iff, String.eqb_neq.
Qed.

(** ** The gate *)

(** C5. While the service is not started (before [start], after [stop]),
    each of [add], [leave], [destroy], [len], [members], [ismember],
    [channels] and [pushMessage] completes with [undefined] and leaves the
    whole system as it was: the keyspace and its three indexes, the list of
    commands sent to the store (nothing is read, nothing written) and the
    list of remote calls. *)
Theorem not_started_gate s c u sid (osid : option string) stype route msg o :
  state s ≠ ST_STARTED →
  ChannelService.add c u sid s = Done tt s ∧
  ChannelService.leave c u osid s = Done tt s ∧
  ChannelService.destroy c s = Done tt s ∧
  ChannelService.len c s = Done None s ∧
  ChannelService.members c osid s = Done None s ∧
  ChannelService.ismember c u s = Done None s ∧
  ChannelService.channels u s = Done None s ∧
  ChannelService.pushMessage stype route msg c o s = Done None s.
Proof.
  intros H. repeat split; by apply started_gate.
Qed.

Lemma not_started_gate_witness :
  let s := after (ChannelService.stop false) lobby3 in
  state s ≠ ST_STARTED ∧
  ChannelService.add "lobby" "u4" "srvA" s = Done tt s ∧
  ChannelService.len "lobby" s = Done None s.
Proof.
  intros s.
  assert (H : state s ≠ ST_STARTED) by (vm_compute; discriminate).
  split; [exact H|].
  pose proof (not_started_gate s "lobby" "u4" "srvA" None "" "" AUndefined AUndefined H)
    as (Ha & _ & _ & Hl & _).
  exact (conj Ha Hl).
Defined.

(** ** One user, two servers *)

(** C1, as the code runs it. [u1] joins [lobby] on [srvA] and then on
    [srvB]. The second [add] reads the old server from the [u#] hash and
    then sends its SREM to the set of the new server, [s#lobby:srvB]: the
    set of [srvA] keeps [u1], and [members] lists [u1] on both servers. *)
Theorem move_keeps_old_entry :
  let s1 := after (ChannelService.add "lobby" "u1" "srvA") lobby0 in
  let s2 := after (ChannelService.add "lobby" "u1" "srvB") s1 in
  wire s2 = (wire s1 ++ [HGET "u#u1" "lobby"; SREM "s#lobby:srvB" "u1";
                         HSET "u#u1" "lobby" "srvB"; SADD "s#lobby:srvB" "u1";
                         HSET "c#lobby" "u1" "srvB"])%list ∧
  result (ChannelService.members "lobby" (Some "srvA")) s2 = Some (Some ["u1"]) ∧
  result (ChannelService.members "lobby" (Some "srvB")) s2 = Some (Some ["u1"]).
Proof. vm_compute. done. Qed.

(** The same for every channel, user and pair of different servers: the
    old [s#] set is never the target of the SREM, and still lists the
    user. *)
Lemma old_server_entry_stays s r c u sid1 sid2 :
  Ready r s → sid1 ≠ sid2 →
  let s1 := after (ChannelService.add c u sid1) s in
  let s2 := after (ChannelService.add c u sid2) s1 in
  wire s2 = (wire s1 ++ [HGET (Ku r u) c] ++
             (if truthy (Some sid1) then [SREM (Ks r c sid2) u] else []) ++
             [HSET (Ku r u) c sid2; SADD (Ks r c sid2) u; HSET (Kc r c) u sid2])%list ∧
  listed u (result (ChannelService.members c (Some sid1)) s2) ∧
  listed u (result (ChannelService.members c (Some sid2)) s2).
Proof.
  intros HR Hne.
  destruct (service_add_runs r s c u sid1 HR)
    as (s1 & E1 & HR1 & _ & Hc1 & Hu1 & Hs1 & _).
  destruct (service_add_runs r s1 c u sid2 HR1)
    as (s2 & E2 & HR2 & _ & Hc2 & Hu2 & Hs2 & Hf2 & Hw2).
  unfold after. rewrite E1. cbn zeta. rewrite E2.
  rewrite Hu1, lookup_insert_eq in Hw2.
  split; [exact Hw2|].
  rewrite !(listed_members r s2 c) by done. split.
  - destruct (truthy (Some sid1)).
    + unfold srv, set_at. rewrite Hf2 by keys.
      change (u ∈ srv r (store s1) c sid1). rewrite Hs1. apply in_added.
    + by rewrite Hc2, lookup_insert_eq.
  - destruct (truthy (Some sid2)).
    + rewrite Hs2. apply in_added.
    + by rewrite Hc2, lookup_insert_eq.
Qed.

(** ** What a join leaves alone *)

Lemma chan_frame r d d' c : d' !! Kc r c = d !! Kc r c → chan r d' c = chan r d c.
Proof. unfold chan, hash_at. by intros ->. Qed.

Lemma user_frame r d d' u : d' !! Ku r u = d !! Ku r u → user r d' u = user r d u.
Proof. unfold user, hash_at. by intros ->. Qed.

Lemma srv_frame r d d' c sid :
  d' !! Ks r c sid = d !! Ks r c sid → srv r d' c sid = srv r d c sid.
Proof. unfold srv, set_at. by intros ->. Qed.

Lemma srv_same_key r d c sid c' sid' :
  Ks r c' sid' = Ks r c sid → srv r d c' sid' = srv r d c sid.
Proof. unfold srv. by intros ->. Qed.

Lemma Ks_eq r c sid c' sid' :
  Ks r c' sid' = Ks r c sid ↔ c' +:+ ":" +:+ sid' = c +:+ ":" +:+ sid.
Proof.
  unfold Ks, Client.key. split.
  - intros E. apply (inj (String.app _)) in E. by apply (inj (String.app "s#")) in E.
  - by intros ->.
Qed.

(** C10, as the code has it. For every [(c', u')] other than [(c, u)],
    [add(c, u, sid)] in a started service leaves [ismember(c', u')] as it
    was, and leaves the presence of [u'] in [members(c', sid')] as it was
    for every server [sid'] that is the empty string, or with [u'] other
    than [u], or with the text [c':sid'] other than the text [c:sid] (the
    [s#] set of a channel and a server is named by that text). *)
Theorem add_frame s c u sid c' u' :
  running s = true → (c', u') ≠ (c, u) →
  let s1 := after (ChannelService.add c u sid) s in
  result (ChannelService.ismember c' u') s1 = result (ChannelService.ismember c' u') s ∧
  ∀ sid', sid' = "" ∨ u' ≠ u ∨ c' +:+ ":" +:+ sid' ≠ c +:+ ":" +:+ sid →
          (listed u' (result (ChannelService.members c' (Some sid')) s1) ↔
           listed u' (result (ChannelService.members c' (Some sid')) s)).
Proof.
  intros [r HR]%running_Ready Hne.
  destruct (service_add_runs r s c u sid HR)
    as (s1 & E1 & HR1 & _ & Hc1 & Hu1 & Hs1 & Hf1 & _).
  unfold after. rewrite E1. cbn zeta.
  assert (Hchan : chan r (store s1) c' !! u' = chan r (store s) c' !! u').
  { destruct (decide (c' = c)) as [->|Hc].
    - rewrite Hc1. apply lookup_insert_ne. congruence.
    - f_equal. apply chan_frame, Hf1; keys. }
  split.
  - unfold result.
    rewrite (service_ismember_runs r s1 c' u' HR1), (service_ismember_runs r s c' u' HR).
    by rewrite Hchan.
  - intros sid' Hside.
    rewrite (listed_members r s1 c' sid' u' HR1), (listed_members r s c' sid' u' HR).
    destruct (truthy (Some sid')) eqn:Ht; [|by rewrite Hchan].
    destruct (decide (Ks r c' sid' = Ks r c sid)) as [Hk|Hk].
    + rewrite !(srv_same_key r _ c sid c' sid' Hk), Hs1.
      apply Ks_eq in Hk. destruct Hside as [->|[Hu|Hu]]; [done| |done].
      by apply other_in_added.
    + rewrite (srv_frame r (store s) (store s1) c' sid'); [done|].
      apply Hf1; keys.
Qed.

Lemma add_frame_witness :
  let s1 := after (ChannelService.add "lobby" "u1" "srvA") lobby0 in
  running lobby0 = true ∧ ("lobby2", "u1") ≠ ("lobby", "u1") ∧
  result (ChannelService.ismember "lobby2" "u1") s1 =
  result (ChannelService.ismember "lobby2" "u1") lobby0 ∧
  ("srvA" = "" ∨ "u1" ≠ "u1" ∨
   "lobby2" +:+ ":" +:+ "srvA" ≠ "lobby" +:+ ":" +:+ "srvA") ∧
  (listed "u1" (result (ChannelService.members "lobby2" (Some "srvA")) s1) ↔
   listed "u1" (result (ChannelService.members "lobby2" (Some "srvA")) lobby0)).
Proof.
  intros s1.
  assert (H1 : running lobby0 = true) by (vm_compute; reflexivity).
  assert (H2 : ("lobby2", "u1") ≠ ("lobby", "u1")) by discriminate.
  assert (H3 : "srvA" = "" ∨ "u1" ≠ "u1" ∨
               "lobby2" +:+ ":" +:+ "srvA" ≠ "lobby" +:+ ":" +:+ "srvA")
    by (right; right; vm_compute; discriminate).
  destruct (add_frame lobby0 "lobby" "u1" "srvA" "lobby2" "u1" H1 H2) as [Hi Hm].
  split; [exact H1|]. split; [exact H2|]. split; [exact Hi|]. split; [exact H3|].
  exact (Hm "srvA" H3).
Defined.

(** C10 as it was stated fails where two (channel, server) pairs spell the
    same text: [u] joins channel [a] on server [b:c], and [members] of
    channel [a:b] on server [c], empty before, lists [u] after. *)
Lemma add_frame_counterexample :
  let s := lobby0 in
  let s1 := after (ChannelService.add "a" "u" "b:c") s in
  running s = true ∧ ("a:b", "u") ≠ ("a", "u") ∧
  ¬ (listed "u" (result (ChannelService.members "a:b" (Some "c")) s1) ↔
     listed "u" (result (ChannelService.members "a:b" (Some "c")) s)).
Proof.
  intros s s1.
  assert (E : result (ChannelService.members "a:b" (Some "c")) s = Some (Some []))
    by (vm_compute; reflexivity).
  assert (E1 : result (ChannelService.members "a:b" (Some "c")) s1 = Some (Some ["u"]))
    by (vm_compute; reflexivity).
  split; [vm_compute; reflexivity|]. split; [discriminate|].
  rewrite E, E1. intros [H _].
  destruct H as (l & [= <-] & Hl).
  - exists ["u"]. split; [done|]. by apply list_elem_of_singleton.
  - by apply not_elem_of_nil in Hl.
Qed.

(** ** What the bodies leave alone *)

Lemma after_bind {A B} (m : Async A) (k : A → Async B) s :
  after (bind m k) s =
  match m s with Done a s' => after (k a) s' | Thrown s' => s' end.
Proof. unfold after, bind. by destruct (m s). Qed.

Section Keeps.

(** An observation that does not look at the keyspace, the wire, the
    remote calls or the parked leaves: the state, the client, the options,
    the application. *)
Context {X : Type} (f : System → X).
Hypothesis f_store : ∀ d s, f (set_store d s) = f s.
Hypothesis f_wire : ∀ w s, f (set_wire w s) = f s.
Hypothesis f_invoked : ∀ l s, f (set_invoked l s) = f s.
Hypothesis f_parked : ∀ l s, f (set_parked l s) = f s.

Lemma keeps_ret {A} (a : A) : keeps f (ret a).
Proof. by intros s. Qed.

Lemma keeps_get {A} (g : System → A) : keeps f (get g).
Proof. by intros s. Qed.

Lemma keeps_bind {A B} (m : Async A) (k : A → Async B) :
  keeps f m → (∀ a, keeps f (k a)) → keeps f (bind m k).
Proof.
  intros Hm Hk s. rewrite after_bind. specialize (Hm s). unfold after in Hm.
  destruct (m s) as [a s'|s']; [|done]. by rewrite Hk.
Qed.

Lemma keeps_forget {A} (m : Async A) : keeps f m → keeps f (forget m).
Proof.
  intros Hm s. specialize (Hm s). unfold after, forget in *. by destruct (m s).
Qed.

Lemma keeps_ask {A} c (g : db → option A) : keeps f (ask c g).
Proof.
  intros s. unfold after, ask, sent. destruct (g (store s)); apply f_wire.
Qed.

Lemma keeps_tell c (g : db → option db) : keeps f (tell c g).
Proof.
  intros s. unfold after, tell, sent.
  destruct (g (store s)); by rewrite ?f_store, f_wire.
Qed.

Lemma keeps_when b (m : Async unit) : keeps f m → keeps f (when b m).
Proof. intros. destruct b; [done | apply keeps_ret]. Qed.

Lemma keeps_for_each {A} (l : list A) (g : A → Async unit) :
  (∀ a, keeps f (g a)) → keeps f (for_each l g).
Proof.
  intros Hg. induction l as [|a l IH]; [apply keeps_ret|].
  apply keeps_bind; [apply Hg | done].
Qed.

Lemma keeps_started {A} (o : A) (m : Async A) :
  keeps f m → keeps f (ChannelService.started o m).
Proof.
  intros Hm. apply keeps_bind; [apply keeps_get|].
  intros st. case_bool_decide; [done | apply keeps_ret].
Qed.

Lemma keeps_rpcInvoke sid p : keeps f (ChannelService.rpcInvoke sid p).
Proof. intros s. apply f_invoked. Qed.

Lemma keeps_leave_unawaited c u : keeps f (ChannelManager.leave_unawaited c u).
Proof.
  intros s. unfold after, ChannelManager.leave_unawaited.
  destruct (redis s) as [r|]; [|done].
  pose proof (keeps_ask (HGET (Client.key r ("u#" +:+ u)) c)
                (Redis.hget (Client.key r ("u#" +:+ u)) c) s) as H.
  unfold after in H. unfold Client.hget.
  destruct (ask _ _ s); by rewrite ?f_parked.
Qed.

End Keeps.

(** Breaks a body into its commands. *)
Ltac keep :=
  repeat first
    [ apply keeps_ret | apply keeps_get | apply keeps_ask | apply keeps_tell
    | apply keeps_rpcInvoke | apply keeps_leave_unawaited
    | apply keeps_forget | apply keeps_when | apply keeps_started
    | apply keeps_for_each; intros
    | apply keeps_bind; [|intros]
    | assumption
    | match goal with
      | |- keeps _ (match ?x with _ => _ end) => destruct x
      end ].

Section KeepsCalls.

Context {X : Type} (f : System → X).
Hypothesis f_store : ∀ d s, f (set_store d s) = f s.
Hypothesis f_wire : ∀ w s, f (set_wire w s) = f s.
Hypothesis f_invoked : ∀ l s, f (set_invoked l s) = f s.
Hypothesis f_parked : ∀ l s, f (set_parked l s) = f s.

Lemma keeps_leave_rest r c u sid : keeps f (ChannelManager.leave_rest r c u sid).
Proof. unfold ChannelManager.leave_rest, Client.hdel, Client.srem. keep. Qed.

Lemma keeps_cleanup_pages fuel r p cur cleaned :
  keeps f (ChannelManager.cleanup_pages fuel r p cur cleaned).
Proof.
  revert cur cleaned. induction fuel as [|fuel IH]; intros cur cleaned; simpl.
  - keep.
  - unfold Client.scan, Client.del. keep; apply IH.
Qed.

Lemma keeps_cleanup fuel : keeps f (ChannelManager.cleanup fuel).
Proof. unfold ChannelManager.cleanup. keep; apply keeps_cleanup_pages. Qed.

Lemma keeps_add c u sid : keeps f (ChannelService.add c u sid).
Proof.
  unfold ChannelService.add, ChannelManager.add, Client.hget, Client.hset,
    Client.sadd, Client.srem. keep.
Qed.

Lemma keeps_leave c u sid : keeps f (ChannelService.leave c u sid).
Proof.
  unfold ChannelService.leave, ChannelManager.leave, Client.hget.
  keep.
Qed.

Lemma keeps_members c sid : keeps f (ChannelService.members c sid).
Proof.
  unfold ChannelService.members, ChannelManager.members, Client.smembers,
    Client.hkeys. keep.
Qed.

Lemma keeps_destroy c : keeps f (ChannelService.destroy c).
Proof.
  unfold ChannelService.destroy, ChannelManager.destroy, ChannelManager.members,
    Client.smembers, Client.hkeys. keep.
Qed.

Lemma keeps_len c : keeps f (ChannelService.len c).
Proof. unfold ChannelService.len, ChannelManager.len, Client.hlen. keep. Qed.

Lemma keeps_ismember c u : keeps f (ChannelService.ismember c u).
Proof. unfold ChannelService.ismember, ChannelManager.ismember, Client.hexists. keep. Qed.

Lemma keeps_channels u : keeps f (ChannelService.channels u).
Proof. unfold ChannelService.channels, ChannelManager.channels, Client.hkeys. keep. Qed.

Lemma keeps_push_each route msg c servers users :
  keeps f (ChannelService.push_each route msg c servers users).
Proof.
  revert users. induction servers as [|sv servers IH]; intros users; simpl.
  - keep.
  - apply keeps_bind; [apply keeps_members|].
    intros uids. destruct (nonempty uids); [|apply IH].
    apply keeps_bind; [by apply keeps_rpcInvoke | intros; apply IH].
Qed.

Lemma keeps_pushMessage t route msg c o :
  keeps f (ChannelService.pushMessage t route msg c o).
Proof. unfold ChannelService.pushMessage. keep; apply keeps_push_each. Qed.

Lemma settle_keeps s : f (settle s) = f s.
Proof.
  unfold settle. rewrite <- (f_parked [] s).
  generalize (set_parked [] s). induction (parked s) as [|p l IH]; intros s0; [done|].
  simpl. rewrite IH. unfold hand_over.
  assert (H : keeps f (ChannelManager.resume p)).
  { unfold ChannelManager.resume. keep; apply keeps_leave_rest. }
  apply H.
Qed.

End KeepsCalls.

(** ** The lifecycle *)

Lemma start_state fuel s : state (after (ChannelService.start fuel) s) = ST_STARTED.
Proof.
  unfold ChannelService.start, ChannelManager.start.
  rewrite after_bind, after_bind.
  match goal with |- state (after ?m ?s') = _ => assert (H : keeps state m) end.
  { apply keeps_bind; [apply keeps_get|]. intros clean. destruct clean.
    - apply keeps_bind; [by apply keeps_cleanup | intros; apply keeps_ret].
    - apply keeps_ret. }
  by rewrite H.
Qed.

Lemma stop_state force s : state (after (ChannelService.stop force) s) = ST_CLOSED.
Proof.
  unfold ChannelService.stop. rewrite after_bind.
  assert (H : keeps state (ChannelManager.stop force)).
  { unfold ChannelManager.stop, Client.quit.
    apply keeps_bind; [apply keeps_get|]. intros [r|]; [|apply keeps_ret].
    by apply keeps_forget, keeps_tell. }
  by rewrite H.
Qed.

(** C7, as the code has it. [start] puts the service in [ST_STARTED] and
    [stop] puts it in [ST_CLOSED], each from whatever state it is in (the
    methods look at no state); no other call, and no reply coming in,
    changes the state. A closed service therefore stays closed as long as
    [start] is not called again, and no longer. *)
Theorem lifecycle :
  (∀ fuel k s,
     state (perform fuel k s) =
     match k with
     | Start => ST_STARTED
     | Stop _ => ST_CLOSED
     | _ => state s
     end) ∧
  (∀ fuel ks s,
     Start ∉ ks → state s = ST_CLOSED → state (perform_all fuel ks s) = ST_CLOSED).
Proof.
  assert (Hstep : ∀ fuel k s,
     state (perform fuel k s) =
     match k with Start => ST_STARTED | Stop _ => ST_CLOSED | _ => state s end).
  { intros fuel k s. destruct k; simpl.
    - apply start_state.
    - apply stop_state.
    - by apply keeps_add.
    - by apply keeps_leave.
    - by apply keeps_destroy.
    - by apply keeps_len.
    - by apply keeps_members.
    - by apply keeps_ismember.
    - by apply keeps_channels.
    - by apply keeps_pushMessage.
    - by apply settle_keeps. }
  split; [exact Hstep|].
  intros fuel ks. unfold perform_all.
  induction ks as [|k ks IH]; intros s Hno Hs; [done|].
  simpl. apply IH.
  - intros ?. apply Hno. by right.
  - rewrite Hstep. destruct k; try done. exfalso. apply Hno. by left.
Qed.

Lemma lifecycle_witness :
  let s := perform 1 (Stop false) lobby3 in
  (Start ∉ [Len "lobby"; Add "lobby" "u4" "srvA"; Replies]) ∧
  state s = ST_CLOSED ∧
  state (perform_all 1 [Len "lobby"; Add "lobby" "u4" "srvA"; Replies] s) = ST_CLOSED.
Proof.
  intros s.
  assert (H1 : Start ∉ [Len "lobby"; Add "lobby" "u4" "srvA"; Replies]).
  { intros H. repeat (apply elem_of_cons in H as [H|H]; [discriminate H|]).
    by apply not_elem_of_nil in H. }
  assert (H2 : state s = ST_CLOSED) by (vm_compute; reflexivity).
  split; [exact H1|]. split; [exact H2|].
  exact (proj2 lifecycle 1%nat _ s H1 H2).
Defined.

(** C7 as it was stated fails: a service that was stopped and is started
    again is in [ST_STARTED]. *)
Lemma closed_not_terminal :
  let s := perform 1 (Stop false) lobby3 in
  state s = ST_CLOSED ∧ state (perform_all 1 [Len "lobby"; Start] s) = ST_STARTED.
Proof. vm_compute. done. Qed.

(** ** Fan-out *)

Lemma server_members_index r s c sid :
  Ready r s → server_members c sid s = index_members r (store s) c sid.
Proof.
  intros HR. unfold server_members, index_members, result.
  rewrite (service_members_runs r s c (Some sid) HR).
  by destruct (truthy (Some sid)).
Qed.

Lemma service_members_index r s c sid :
  Ready r s →
  ∃ s', ChannelService.members c (Some sid) s =
        Done (Some (index_members r (store s) c sid)) s' ∧
        Ready r s' ∧ store s' = store s ∧ invoked s' = invoked s.
Proof.
  intros HR. rewrite (service_members_runs r s c (Some sid) HR).
  unfold index_members.
  destruct (truthy (Some sid)); eexists; (split; [reflexivity|]);
    auto using Ready_sent.
Qed.

Lemma push_each_runs r s route msg c servers users :
  Ready r s →
  ∃ s', ChannelService.push_each route msg c servers users s =
        Done (users ++ concat (map (λ sv, index_members r (store s) c (id sv)) servers))%list s' ∧
        Ready r s' ∧ store s' = store s ∧
        invoked s' =
        (invoked s ++
         map (λ sv, (id sv, ChannelService.envelope route msg
                              (index_members r (store s) c (id sv))))
             (filter (λ sv, index_members r (store s) c (id sv) ≠ []) servers))%list.
Proof.
  revert s users. induction servers as [|sv servers IH]; intros s users HR; simpl.
  - exists s. by rewrite !app_nil_r.
  - unfold bind.
    destruct (service_members_index r s c (id sv) HR) as (s1 & -> & HR1 & Hd1 & Hi1).
    destruct (index_members r (store s) c (id sv)) as [|x l] eqn:El; simpl.
    + destruct (IH s1 users HR1) as (s' & -> & HR' & Hd' & Hi').
      exists s'. rewrite Hd1 in *. rewrite Hi1 in Hi'.
      rewrite filter_cons_False by (rewrite El; naive_solver). done.
    + match goal with |- context [ChannelService.push_each _ _ _ _ ?us ?s2] =>
        destruct (IH s2 us) as (s' & -> & HR' & Hd' & Hi');
          [by destruct HR1 as (? & ? & ?)|]
      end.
      exists s'. fields. rewrite Hd1 in *. rewrite Hi1 in Hi'.
      rewrite filter_cons_True by (rewrite El; done).
      simpl. rewrite El, Hi', <- !app_assoc. done.
Qed.

Lemma concat_targeted {A} (g : A → list string) (l : list A) :
  concat (map g (filter (λ a, g a ≠ []) l)) = concat (map g l).
Proof.
  induction l as [|a l IH]; [done|].
  destruct (decide (g a = [])) as [E|E].
  - rewrite filter_cons_False by naive_solver. simpl. by rewrite E, IH.
  - rewrite filter_cons_True by done. simpl. by rewrite IH.
Qed.

Lemma targeted_index r s c servers :
  Ready r s →
  targeted c servers s =
  filter (λ sv, index_members r (store s) c (id sv) ≠ []) servers.
Proof.
  intros HR. unfold targeted. apply list_filter_iff. intros sv.
  by rewrite (server_members_index r s c (id sv) HR).
Qed.

Lemma pushMessage_runs r s stype route msg c o :
  Ready r s →
  let servers := getServersByType (app s) stype in
  ∃ s', ChannelService.pushMessage stype route msg c o s =
        Done (match servers with
              | [] => None
              | _ => Some (concat (map (λ sv, server_members c (id sv) s)
                                       (targeted c servers s)))
              end) s' ∧
        store s' = store s ∧
        invoked s' =
        (invoked s ++
         map (λ sv, (id sv, ChannelService.envelope route msg (server_members c (id sv) s)))
             (targeted c servers s))%list.
Proof.
  intros HR servers. pose proof HR as (Hst & _).
  unfold ChannelService.pushMessage. rewrite started_runs by done.
  unfold bind, get. fold servers.
  destruct servers as [|sv servers'] eqn:Es.
  - exists s. by rewrite app_nil_r.
  - rewrite <- Es. clear Es.
    destruct (push_each_runs r s route msg c servers [] HR) as (s' & -> & _ & Hd & Hi).
    exists s'. rewrite (targeted_index r s c servers HR).
    split; [|split; [done|]].
    + do 2 f_equal.
      rewrite <- (concat_targeted (λ sv, index_members r (store s) c (id sv))).
      simpl. f_equal. apply map_ext_in. intros sv' _.
      by rewrite (server_members_index r s c (id sv') HR).
    + rewrite Hi. f_equal. apply map_ext_in. intros sv' _.
      by rewrite (server_members_index r s c (id sv') HR).
Qed.

(** C6. [pushMessage(serverType, route, msg, channel, opts)] in a started
    service calls [rpcInvoke] once for each server of the resolved list, in
    the order of the list, whose [members(channel, server.id)] is not empty,
    and for no other server; each call goes to that server's id with
    namespace [sys], service [channelRemote], method [pushMessage] and
    arguments [[route, msg, uids, { isPush: true }]], [uids] being that
    server's member list. *)
Theorem push_targets s stype route msg c o :
  running s = true →
  let servers := getServersByType (app s) stype in
  invoked (after (ChannelService.pushMessage stype route msg c o) s) =
  (invoked s ++
   map (λ sv, (id sv,
               {| namespace := "sys"; service := "channelRemote";
                  method := "pushMessage";
                  args := {| arg_route := route; arg_msg := msg;
                             arg_uids := server_members c (id sv) s;
                             arg_isPush := true |} |}))
       (filter (λ sv, server_members c (id sv) s ≠ []) servers))%list.
Proof.
  intros [r HR]%running_Ready servers.
  destruct (pushMessage_runs r s stype route msg c o HR) as (s' & E & _ & Hi).
  unfold after. rewrite E. exact Hi.
Qed.

(** C9. When the resolved server list is not empty, [pushMessage] in a
    started service returns the member lists of the servers it called, one
    after the other in the order of the calls: the user ids it targeted.
    What the remote calls answer is not read. *)
Theorem push_returns_targeted s stype route msg c o :
  running s = true →
  getServersByType (app s) stype ≠ [] →
  result (ChannelService.pushMessage stype route msg c o) s =
  Some (Some (concat (map (λ sv, server_members c (id sv) s)
                          (targeted c (getServersByType (app s) stype) s)))).
Proof.
  intros [r HR]%running_Ready Hne.
  destruct (pushMessage_runs r s stype route msg c o HR) as (s' & E & _).
  unfold result. rewrite E.
  by destruct (getServersByType (app s) stype).
Qed.

Lemma push_targets_witness :
  running lobby1 = true ∧
  invoked (after (ChannelService.pushMessage "connector" "chat"
                    (AObject [("text", AString "hi")]) "lobby" (AObject [])) lobby1) =
  [("srvA", ChannelService.envelope "chat" (AObject [("text", AString "hi")]) ["u1"])].
Proof.
  assert (H : running lobby1 = true) by (vm_compute; reflexivity).
  split; [exact H|].
  rewrite (push_targets lobby1 "connector" "chat" _ "lobby" (AObject []) H).
  vm_compute. reflexivity.
Defined.

Lemma push_returns_targeted_witness :
  running lobby3 = true ∧
  getServersByType (app lobby3) "connector" ≠ [] ∧
  result (ChannelService.pushMessage "connector" "chat" (AObject []) "lobby" (AObject []))
         lobby3 = Some (Some ["u1"; "u2"; "u3"]).
Proof.
  assert (H1 : running lobby3 = true) by (vm_compute; reflexivity).
  assert (H2 : getServersByType (app lobby3) "connector" ≠ []) by (vm_compute; discriminate).
  split; [exact H1|]. split; [exact H2|].
  rewrite (push_returns_targeted lobby3 "connector" "chat" _ "lobby" (AObject []) H1 H2).
  vm_compute. reflexivity.
Defined.

(** ** Parked leaves and their replies *)

Lemma shrunk_refl r s : redis s = Some r → kinded (prefix r) (store s) → shrunk r s s.
Proof. intros. unfold shrunk. by repeat split. Qed.

Lemma shrunk_trans r s1 s2 s3 : shrunk r s1 s2 → shrunk r s2 s3 → shrunk r s1 s3.
Proof.
  intros (_ & _ & Hst & Hc & Hu & Hs) (Hr' & Hk' & Hst' & Hc' & Hu' & Hs').
  unfold shrunk. rewrite Hst', Hst. repeat split; try done.
  - intros c. etrans; [apply Hc' | apply Hc].
  - intros u. etrans; [apply Hu' | apply Hu].
  - intros c x. etrans; [apply Hs' | apply Hs].
Qed.

Lemma cleared_shrunk r s s' p : cleared r s p → shrunk r s s' → cleared r s' p.
Proof.
  intros (Hc & Hu & Hs) (_ & _ & _ & Hc' & Hu' & Hs'). unfold cleared.
  split; [|split].
  - destruct (chan r (store s') _ !! _) eqn:E; [|done].
    eapply lookup_weaken in E; [|apply Hc']. congruence.
  - destruct (user r (store s') _ !! _) eqn:E; [|done].
    eapply lookup_weaken in E; [|apply Hu']. congruence.
  - intros Ht Hin. apply (Hs Ht). by apply (Hs' _ _).
Qed.

Lemma hand_over_spec r s p :
  redis s = Some r → kinded (prefix r) (store s) →
  shrunk r s (hand_over s p) ∧ cleared r (hand_over s p) p.
Proof.
  intros Hr Hk. destruct p as [c u sid].
  unfold hand_over, ChannelManager.resume, bind, get. rewrite Hr. cbn [parked_channel parked_uid parked_reply].
  destruct (leave_rest_runs r s c u sid Hk)
    as (s' & -> & (_ & _ & Hst & Hr' & _) & Hk' & Hc & Hu & Hs & Hf & _).
  split.
  - unfold shrunk. rewrite Hr', Hr. repeat split; try done.
    + intros c'. destruct (decide (c' = c)) as [->|Hne].
      * rewrite Hc. apply delete_subseteq.
      * rewrite (chan_frame r (store s) (store s') c'); [done|]. apply Hf; intros; keys.
    + intros u'. destruct (decide (u' = u)) as [->|Hne].
      * rewrite Hu. apply delete_subseteq.
      * rewrite (user_frame r (store s) (store s') u'); [done|]. apply Hf; intros; keys.
    + intros c' x.
      destruct (decide (truthy sid = true ∧ Ks r c' x = Ks r c (default "" sid)))
        as [[Ht Hkey]|Hne].
      * rewrite !(srv_same_key r _ _ _ _ _ Hkey), (Hs Ht). apply removed_subseteq.
      * rewrite (srv_frame r (store s) (store s') c' x); [done|].
        apply Hf; try keys. intros Ht Hkey. by apply Hne.
  - unfold cleared. cbn [parked_channel parked_uid parked_reply].
    rewrite Hc, Hu, !lookup_delete_eq. repeat split.
    intros Ht. rewrite (Hs Ht). apply not_in_removed.
Qed.

Lemma settle_fold r P s :
  redis s = Some r → kinded (prefix r) (store s) →
  shrunk r s (foldl hand_over s P) ∧
  ∀ p, p ∈ P → cleared r (foldl hand_over s P) p.
Proof.
  induction P as [|p P IH] in s |- *; intros Hr Hk; simpl.
  - split; [by apply shrunk_refl|]. intros p Hp. by apply not_elem_of_nil in Hp.
  - destruct (hand_over_spec r s p Hr Hk) as [Hsh Hcl].
    pose proof Hsh as (Hr' & Hk' & _).
    destruct (IH (hand_over s p) Hr' Hk') as [Hsh' Hcl'].
    split; [by eapply shrunk_trans|].
    intros q [->|Hq]%elem_of_cons; [|by apply Hcl'].
    by eapply cleared_shrunk.
Qed.

Lemma settle_spec r s :
  redis s = Some r → kinded (prefix r) (store s) →
  shrunk r s (settle s) ∧ ∀ p, p ∈ parked s → cleared r (settle s) p.
Proof.
  intros Hr Hk. unfold settle.
  destruct (settle_fold r (parked s) (set_parked [] s) Hr Hk) as [Hsh Hcl].
  split; [exact Hsh | exact Hcl].
Qed.

(** A leave that is started without [await] and then gets its reply does
    what the awaited [leave(channel, uid)] does. *)
Lemma leave_unawaited_settled c u s :
  parked s = [] →
  settle (after (ChannelManager.leave_unawaited c u) s) =
  after (ChannelManager.leave c u None) s.
Proof.
  intros Hp.
  assert (Hs : ∀ s', parked s' = [] → set_parked [] s' = s').
  { intros [] E. simpl in E. by subst. }
  unfold after, ChannelManager.leave_unawaited, ChannelManager.leave, bind, get.
  destruct (redis s) as [r|] eqn:Hr; [|unfold settle; by rewrite Hp, Hs].
  cbn [truthy].
  destruct (Client.hget r ("u#" +:+ u) c s) as [reply s'|s'] eqn:E.
  - assert (Hp' : parked s' = []).
    { unfold Client.hget, ask in E. destruct (Redis.hget _ _ _); by simplify_eq. }
    assert (Hr' : redis s' = Some r).
    { unfold Client.hget, ask in E. destruct (Redis.hget _ _ _); by simplify_eq. }
    destruct s' as [a o st rd d w i pk]. simpl in Hp', Hr'. subst pk rd.
    unfold settle. simpl. unfold hand_over, ChannelManager.resume, bind, get.
    done.
  - assert (Hp' : parked s' = []).
    { unfold Client.hget, ask in E. destruct (Redis.hget _ _ _); by simplify_eq. }
    unfold settle. by rewrite Hp', Hs.
Qed.

(** ** [destroy]: the members are listed, a leave is started for each *)

Lemma leave_unawaited_runs r s c l :
  redis s = Some r → kinded (prefix r) (store s) →
  ∃ s', for_each l (λ uid, ChannelManager.leave_unawaited c uid) s = Done tt s' ∧
        same_store s s' ∧
        parked s' =
        (parked s ++
         map (λ u, {| parked_channel := c; parked_uid := u;
                      parked_reply := user r (store s) u !! c |}) l)%list.
Proof.
  induction l as [|u l IH] in s |- *; intros Hr Hk; simpl.
  - exists s. by rewrite app_nil_r.
  - unfold bind, ChannelManager.leave_unawaited at 1. rewrite Hr.
    rewrite (hget_runs r _ _ s _ (hash_at_user r _ u Hk)).
    match goal with |- context [for_each _ _ ?s1] =>
      destruct (IH s1) as (s' & -> & Hsame & Hp); [done..|]
    end.
    exists s'. split; [done|]. fields. split.
    + destruct Hsame as (? & ? & ? & ?). by repeat split.
    + rewrite Hp. fields. by rewrite <- app_assoc.
Qed.

Lemma destroy_runs r s c :
  Ready r s →
  ∃ s', ChannelService.destroy c s = Done tt s' ∧
        same_store s s' ∧
        parked s' =
        (parked s ++
         map (λ u, {| parked_channel := c; parked_uid := u;
                      parked_reply := user r (store s) u !! c |})
             (elements (dom (chan r (store s) c))))%list.
Proof.
  intros (Hst & Hr & Hk).
  unfold ChannelService.destroy. rewrite started_runs by done.
  unfold ChannelManager.destroy, bind, get. rewrite Hr.
  rewrite (members_runs r s c None Hr Hk). cbn [truthy].
  destruct (leave_unawaited_runs r (sent (HKEYS (Kc r c)) s) c
              (elements (dom (chan r (store s) c))) Hr Hk)
    as (s' & -> & Hsame & Hp).
  exists s'. split; [done|]. split; [|exact Hp].
  destruct Hsame as (? & ? & ? & ?). by repeat split.
Qed.

(** ** Filling a channel with users that are new to it *)

Lemma listed_channels r s c u :
  Ready r s →
  listed c (result (ChannelService.channels u) s) ↔ is_Some (user r (store s) u !! c).
Proof.
  intros HR. unfold listed, result. rewrite (service_channels_runs r s u HR). split.
  - intros (l & [= <-] & Hl). by apply elem_of_elements, elem_of_dom in Hl.
  - intros Hu. eexists. split; [done|]. by apply elem_of_elements, elem_of_dom.
Qed.

Lemma truthy_Some x : x ≠ "" → truthy (Some x) = true.
Proof. intros. simpl. by apply negb_true_iff, String.eqb_neq. Qed.

Lemma add_new_tidy r s s' c u sid :
  tidy r (store s) c → user r (store s) u !! c = None →
  chan r (store s') c = <[u := sid]> (chan r (store s) c) →
  user r (store s') u = <[c := sid]> (user r (store s) u) →
  srv r (store s') c sid = {[u]} ∪ srv r (store s) c sid →
  (∀ k, k ≠ Kc r c → k ≠ Ku r u → k ≠ Ks r c sid → store s' !! k = store s !! k) →
  tidy r (store s') c ∧
  ∀ v, v ≠ u → user r (store s') v = user r (store s) v.
Proof.
  intros [J1 J2] Hnew Hc Hu Hs Hf.
  assert (Hother : ∀ v, v ≠ u → user r (store s') v = user r (store s) v).
  { intros v Hv. apply user_frame, Hf; keys. }
  split; [|exact Hother]. split.
  - intros v x Hx Hin.
    assert (Hold : v ∈ srv r (store s) c x → user r (store s') v !! c = Some x).
    { intros Hv. pose proof (J1 v x Hx Hv) as Huv.
      rewrite Hother; [done|]. intros ->. congruence. }
    destruct (decide (x = sid)) as [->|Hne].
    + rewrite Hs in Hin. apply elem_of_union in Hin as [->%elem_of_singleton|Hv].
      * by rewrite Hu, lookup_insert_eq.
      * by apply Hold.
    + apply Hold. rewrite <- (srv_frame r (store s) (store s') c x); [done|].
      apply Hf; keys.
  - intros v Hv. rewrite Hc.
    destruct (decide (v = u)) as [->|Hne]; [by rewrite lookup_insert_eq|].
    rewrite lookup_insert_ne by done. apply J2. by rewrite <- Hother.
Qed.

Lemma populate_runs r s c l :
  Ready r s → tidy r (store s) c →
  (∀ us, us ∈ l → user r (store s) us.1 !! c = None) → NoDup l.*1 →
  ∃ s', populate c l s = Done tt s' ∧ Ready r s' ∧ tidy r (store s') c.
Proof.
  unfold populate.
  induction l as [|[u sid] l IH] in s |- *; intros HR Ht Hnew Hnd; simpl.
  - by exists s.
  - apply NoDup_cons in Hnd as [Hu Hnd]. unfold bind.
    destruct (service_add_runs r s c u sid HR)
      as (s1 & -> & HR1 & _ & Hc1 & Hu1 & Hs1 & Hf1 & _).
    destruct (add_new_tidy r s s1 c u sid Ht) as [Ht1 Hother]; try done.
    { apply (Hnew (u, sid)). by left. }
    apply IH; try done.
    intros us Hus. rewrite Hother.
    + apply Hnew. by right.
    + intros E. apply Hu. rewrite <- E. apply list_elem_of_fmap. by exists us.
Qed.

(** ** [destroy] empties the channel *)

(** Whatever the keyspace holds for the channel: once the leaves that
    [destroy] started have run, the [c#] hash of the channel is empty. *)
Lemma destroy_settled_chan r s c :
  Ready r s →
  let s' := settle (after (ChannelService.destroy c) s) in
  Ready r s' ∧ shrunk r s s' ∧ chan r (store s') c = ∅ ∧
  ∀ u, is_Some (chan r (store s) c !! u) →
       cleared r s' {| parked_channel := c; parked_uid := u;
                       parked_reply := user r (store s) u !! c |}.
Proof.
  intros HR. pose proof HR as (Hst & Hr & Hk).
  destruct (destroy_runs r s c HR) as (s1 & E & (Hst1 & Hr1 & _ & Hd1) & Hp).
  unfold after. rewrite E. cbn zeta.
  rewrite <- Hd1 in Hk. rewrite Hr in Hr1.
  destruct (settle_spec r s1 Hr1 Hk) as [Hsh Hcl].
  assert (Hsh' : shrunk r s (settle s1)).
  { destruct Hsh as (? & ? & Hst' & ?). unfold shrunk.
    rewrite Hst', Hst1. by rewrite Hd1 in *. }
  assert (Hall : ∀ u, is_Some (chan r (store s) c !! u) →
       cleared r (settle s1) {| parked_channel := c; parked_uid := u;
                                parked_reply := user r (store s) u !! c |}).
  { intros u Hu. apply Hcl. rewrite Hp. apply elem_of_app. right.
    apply list_elem_of_fmap. exists u. split; [done|].
    by apply elem_of_elements, elem_of_dom. }
  split; [|split; [done|split; [|done]]].
  - destruct Hsh' as (? & ? & Hst' & _). unfold Ready. by rewrite Hst'.
  - apply map_empty. intros u.
    destruct (chan r (store s) c !! u) eqn:Eu.
    + apply (Hall u). by rewrite Eu.
    + destruct (chan r (store (settle s1)) c !! u) eqn:E'; [|done].
      destruct Hsh' as (_ & _ & _ & Hc & _).
      eapply lookup_weaken in E'; [|apply Hc]. congruence.
Qed.

(** The removal itself, once it has run. A started service in which
    channel [c] has no record (no server lists a member of [c], no user
    lists [c]); any number of users, no two the same, each added to [c] on
    a server of its own choice; then [destroy(c)]. Once the leaves that
    [destroy] started (it awaits none of them) have received their replies,
    [len(c)] is 0, [members(c)] is the empty list, and no query shows a
    record of [c]: [ismember(c, u)] is 0 for every user, [members(c, x)]
    lists nobody for every server, and [channels(u)] lists [c] for no
    user. *)
Lemma destroy_empties s c (l : list (string * string)) :
  running s = true →
  (∀ u x, ¬ listed u (result (ChannelService.members c (Some x)) s)) →
  (∀ u, ¬ listed c (result (ChannelService.channels u) s)) →
  NoDup l.*1 →
  let s1 := after (populate c l) s in
  let s2 := settle (after (ChannelService.destroy c) s1) in
  result (ChannelService.len c) s2 = Some (Some 0) ∧
  result (ChannelService.members c None) s2 = Some (Some []) ∧
  (∀ u, result (ChannelService.ismember c u) s2 = Some (Some 0)) ∧
  (∀ u x, ¬ listed u (result (ChannelService.members c (Some x)) s2)) ∧
  (∀ u, ¬ listed c (result (ChannelService.channels u) s2)).
Proof.
  intros [r HR]%running_Ready Hsrv Huser Hnd.
  assert (Hnone : ∀ u, user r (store s) u !! c = None).
  { intros u. destruct (user r (store s) u !! c) eqn:E; [|done].
    exfalso. apply (Huser u), (listed_channels r s c u HR). by rewrite E. }
  assert (Ht : tidy r (store s) c).
  { split.
    - intros u x Hx Hin. exfalso. apply (Hsrv u x).
      apply (listed_members r s c x u HR). by rewrite truthy_Some.
    - intros u Hu. rewrite Hnone in Hu. by destruct Hu. }
  destruct (populate_runs r s c l HR Ht) as (s1 & E1 & HR1 & [J1 J2]); [done..|].
  assert (Es : after (populate c l) s = s1) by (unfold after; by rewrite E1).
  rewrite Es. cbn zeta.
  destruct (destroy_settled_chan r s1 c HR1) as (HR2 & Hsh & Hc & Hcl).
  set (s2 := settle (after (ChannelService.destroy c) s1)) in *.
  destruct Hsh as (_ & _ & _ & _ & Hsu & Hss).
  unfold result.
  rewrite (service_len_runs r s2 c HR2), (service_members_runs r s2 c None HR2).
  cbn [truthy]. rewrite Hc.
  split; [done|]. split; [done|]. split; [|split].
  - intros u. by rewrite (service_ismember_runs r s2 c u HR2), Hc.
  - intros u x. rewrite (listed_members r s2 c x u HR2).
    destruct (truthy (Some x)) eqn:Hx.
    + intros Hin.
      assert (x ≠ "") as Hne by (intros ->; done).
      pose proof (Hss c x u Hin) as Hin1.
      pose proof (J1 u x Hne Hin1) as Hu1.
      destruct (Hcl u) as (_ & _ & Hout); [apply J2; by rewrite Hu1|].
      rewrite Hu1 in Hout. by apply Hout.
    + rewrite Hc, lookup_empty. by intros [? ?].
  - intros u. rewrite (listed_channels r s2 c u HR2). intros [v Hv].
    pose proof Hv as Hv1. eapply lookup_weaken in Hv1; [|apply Hsu].
    destruct (Hcl u) as (_ & Hgone & _); [apply J2; by rewrite Hv1|].
    cbn [parked_channel parked_uid] in Hgone. congruence.
Qed.

Lemma destroy_empties_witness :
  running lobby0 = true ∧
  (∀ u x, ¬ listed u (result (ChannelService.members "lobby" (Some x)) lobby0)) ∧
  (∀ u, ¬ listed "lobby" (result (ChannelService.channels u) lobby0)) ∧
  NoDup [("u1", "srvA"); ("u2", "srvA"); ("u3", "srvB")].*1 ∧
  result (ChannelService.len "lobby")
         (settle (after (ChannelService.destroy "lobby")
                    (after (populate "lobby"
                              [("u1", "srvA"); ("u2", "srvA"); ("u3", "srvB")])
                       lobby0))) = Some (Some 0).
Proof.
  assert (H1 : running lobby0 = true) by (vm_compute; reflexivity).
  assert (H2 : ∀ u x, ¬ listed u (result (ChannelService.members "lobby" (Some x)) lobby0)).
  { intros u x (l & E & Hl). destruct x; vm_compute in E; injection E as <-;
      by apply not_elem_of_nil in Hl. }
  assert (H3 : ∀ u, ¬ listed "lobby" (result (ChannelService.channels u) lobby0)).
  { intros u (l & E & Hl). vm_compute in E. injection E as <-.
    by apply not_elem_of_nil in Hl. }
  assert (H4 : NoDup [("u1", "srvA"); ("u2", "srvA"); ("u3", "srvB")].*1).
  { apply (bool_decide_unpack _). vm_compute. reflexivity. }
  split; [exact H1|]. split; [exact H2|]. split; [exact H3|]. split; [exact H4|].
  exact (proj1 (destroy_empties lobby0 "lobby" _ H1 H2 H3 H4)).
Defined.

(** [destroy] itself writes nothing: when its promise resolves the leaves
    are parked at their HGET and the keyspace is as it was. *)
Lemma destroy_parks_leaves r s c :
  Ready r s →
  let s' := after (ChannelService.destroy c) s in
  store s' = store s ∧
  parked s' =
  (parked s ++
   map (λ u, {| parked_channel := c; parked_uid := u;
                parked_reply := user r (store s) u !! c |})
       (elements (dom (chan r (store s) c))))%list.
Proof.
  intros HR. destruct (destroy_runs r s c HR) as (s' & E & (_ & _ & _ & Hd) & Hp).
  unfold after. by rewrite E.
Qed.

(** C4, as the code runs it. [lobby] has [u1] and [u2] on [srvA] and [u3]
    on [srvB]. [destroy('lobby')] completes after one HKEYS and three
    HGETs: the leaves it started are parked, nothing is deleted yet. The
    [len('lobby')] and the [members('lobby')] that come next still answer 3
    and the three users. Only when the replies to the HGETs have been
    handed over are the records deleted, and then [len] answers 0. *)
Theorem destroy_then_len :
  let s := after (ChannelService.destroy "lobby") lobby3 in
  result (ChannelService.destroy "lobby") lobby3 = Some tt ∧
  wire s = (wire lobby3 ++ [HKEYS "c#lobby"; HGET "u#u3" "lobby";
                            HGET "u#u1" "lobby"; HGET "u#u2" "lobby"])%list ∧
  length (parked s) = 3%nat ∧
  result (ChannelService.len "lobby") s = Some (Some 3) ∧
  result (ChannelService.members "lobby" None) s = Some (Some ["u3"; "u1"; "u2"]) ∧
  result (ChannelService.len "lobby") (settle s) = Some (Some 0) ∧
  store (settle s) = ∅.
Proof. vm_compute. done. Qed.

(** The scenario of the specification. *)
Example scenario_lobby :
  result (ChannelService.len "lobby") lobby3 = Some (Some 3) ∧
  let s := after (ChannelService.leave "lobby" "u2" None) lobby3 in
  result (ChannelService.len "lobby") s = Some (Some 2) ∧
  result (ChannelService.members "lobby" (Some "srvA")) s = Some (Some ["u1"]).
Proof. vm_compute. done. Qed.

(** ** The sweep at start-up *)

Lemma del_spares ks (d : db) k0 : k0 ∉ ks → Redis.del ks d !! k0 = d !! k0.
Proof.
  induction ks as [|k ks IH]; intros Hk; simpl; [done|].
  apply not_elem_of_cons in Hk as [Hne Hk].
  rewrite lookup_delete_ne by done. by apply IH.
Qed.

Lemma del_shrinks ks (d : db) k : is_Some (Redis.del ks d !! k) → is_Some (d !! k).
Proof.
  induction ks as [|k' ks IH]; simpl; [done|].
  rewrite lookup_delete. case_decide; [by intros [? ?] | exact IH].
Qed.

Lemma scan_in_store cur pattern count (d : db) k :
  k ∈ (Redis.scan cur pattern count d).2 → is_Some (d !! k).
Proof.
  unfold Redis.scan, Redis.keys_in_order. cbn [snd].
  intros Hk%list_elem_of_filter. destruct Hk as [_ Hk].
  apply elem_of_take in Hk as (i & Hk & _). apply list_elem_of_lookup_2 in Hk.
  apply list_elem_of_filter in Hk as [_ Hk].
  rewrite merge_sort_Permutation in Hk.
  by apply elem_of_elements, elem_of_dom in Hk.
Qed.

(** Whatever the pages and however many of them: [cleanup] hands the keys
    it scanned to [del] as they are, the client puts its prefix in front of
    each, and so a key of the store is only ever deleted when it spells
    the prefix followed by a key of the store. Every other key stays. *)
Lemma cleanup_pages_spares fuel r p cur cleaned s k0 v :
  store s !! k0 = Some v →
  (∀ k, is_Some (store s !! k) → k0 ≠ prefix r +:+ k) →
  store (after (ChannelManager.cleanup_pages fuel r p cur cleaned) s) !! k0 = Some v.
Proof.
  induction fuel as [|fuel IH] in cur, cleaned, s |- *; intros Hk0 Hfree; [done|].
  cbn [ChannelManager.cleanup_pages].
  rewrite after_bind. unfold Client.scan at 1, ask at 1.
  set (batch := Redis.scan cur (p +:+ "*") 100 (store s)).
  set (keys := filter _ batch.2).
  set (s1 := sent (SCAN cur (p +:+ "*") 100) s).
  rewrite after_bind.
  assert (Hkeys : ∀ k, k ∈ keys → is_Some (store s !! k)).
  { intros k Hk. apply list_elem_of_filter in Hk as [_ Hk].
    by apply (scan_in_store cur (p +:+ "*") 100). }
  destruct (nonempty (Some batch.2) && nonempty (Some keys)).
  - unfold bind, forget, Client.del, tell, ret.
    destruct batch.1; [|unfold after, ret; fields].
    + apply IH; fields.
      * rewrite del_spares; [done|]. intros (k & -> & Hk)%list_elem_of_fmap.
        by apply (Hfree k); [apply Hkeys|].
      * intros k Hk%del_shrinks. by apply Hfree.
    + rewrite del_spares; [done|]. intros (k & -> & Hk)%list_elem_of_fmap.
      by apply (Hfree k); [apply Hkeys|].
  - unfold ret at 1. destruct batch.1; [by apply IH | done].
Qed.

Lemma cleanup_spares fuel s r k0 v :
  redis s = Some r → store s !! k0 = Some v →
  (∀ k, is_Some (store s !! k) → k0 ≠ prefix r +:+ k) →
  store (after (ChannelManager.cleanup fuel) s) !! k0 = Some v.
Proof.
  intros Hr Hk0 Hfree. unfold ChannelManager.cleanup.
  rewrite after_bind. unfold get at 1. rewrite Hr.
  rewrite after_bind. unfold get at 1.
  by apply cleanup_pages_spares.
Qed.

(** C8, as the code runs it, under the configuration of the repository's
    own test ([keyPrefix: 'keyPrefix#'], [cleanOnStartUp: true]), on a
    store that holds the three keys of one member from an earlier run.
    [start] completes; the sweep sent one [SCAN 0 MATCH keyPrefix#* COUNT
    100], got the three keys, and sent them to [del] through the prefixing
    client, which asked Redis for [keyPrefix#keyPrefix#...]: nothing was
    deleted, the three registry keys are there after [start], and the
    member of the earlier run still counts. *)
Theorem restart_keeps_registry_keys :
  let s := after (ChannelService.start 8) restart in
  result (ChannelService.start 8) restart = Some (Some tt) ∧
  state s = ST_STARTED ∧
  wire s = [SCAN None "keyPrefix#*" 100;
            DEL ["keyPrefix#keyPrefix#c#global-chat";
                 "keyPrefix#keyPrefix#s#global-chat:connector-server-1";
                 "keyPrefix#keyPrefix#u#10010"]] ∧
  store s = store first_run ∧
  elements (dom (store s)) =
    ["keyPrefix#s#global-chat:connector-server-1"; "keyPrefix#c#global-chat";
     "keyPrefix#u#10010"] ∧
  result (ChannelService.len "global-chat") s = Some (Some 1).
Proof. vm_compute. done. Qed.

(** The [clean] of [components/globalChannel.ts], on the same store: it
    cuts the prefix off before [del], and the store is empty after it. *)
Example older_clean_empties :
  let s := after Component.start restart in
  wire s = [KEYS "keyPrefix#*";
            DEL ["keyPrefix#c#global-chat";
                 "keyPrefix#s#global-chat:connector-server-1";
                 "keyPrefix#u#10010"]] ∧
  store s = ∅.
Proof. vm_compute. done. Qed.

(** With an empty prefix the two texts are the same and the sweep does
    delete what it scanned. *)
Example sweep_without_prefix :
  let o := {| url := ""; options := Some {| keyPrefix := "" |}; cleanOnStartUp := true |} in
  store (after (ChannelService.start 8)
           (ChannelService.constructor directory o (store lobby3))) = ∅.
Proof. vm_compute. done. Qed.

(** * More properties of the registry *)

(** ** Keyspaces without empty values *)

Lemma compact_lookup d k :
  compact d = true → d !! k ≠ Some (Hash ∅) ∧ d !! k ≠ Some (SetOf ∅).
Proof.
  unfold compact. rewrite forallb_forall. intros H.
  split; intros E; apply elem_of_map_to_list, list_elem_of_In, H in E;
    simpl in E; by rewrite bool_decide_eq_true_2 in E.
Qed.

Lemma lookup_of_hash d k h :
  hash_at k d = Some h → h ≠ ∅ → d !! k = Some (Hash h).
Proof.
  unfold hash_at. destruct (d !! k) as [[h'|m]|]; intros [= <-] Hne; done.
Qed.

Lemma lookup_of_set d k m :
  set_at k d = Some m → m ≠ ∅ → d !! k = Some (SetOf m).
Proof.
  unfold set_at. destruct (d !! k) as [[h'|m']|]; intros [= <-] Hne; done.
Qed.

Lemma put_hash_same d k h :
  compact d = true → hash_at k d = Some h → put_hash k h d = d.
Proof.
  intros Hc Hk. unfold put_hash. case_decide as E.
  - subst h. apply delete_id. unfold hash_at in Hk.
    destruct (d !! k) as [[h'|m]|] eqn:Ek; [|done..].
    injection Hk as ->. by destruct (compact_lookup d k Hc).
  - apply insert_id. by apply lookup_of_hash.
Qed.

Lemma put_set_same d k m :
  compact d = true → set_at k d = Some m → put_set k m d = d.
Proof.
  intros Hc Hk. unfold put_set. case_decide as E.
  - subst m. apply delete_id. unfold set_at in Hk.
    destruct (d !! k) as [[h'|m']|] eqn:Ek; [done| |done].
    injection Hk as ->. by destruct (compact_lookup d k Hc).
  - apply insert_id. by apply lookup_of_set.
Qed.

(** ** Joining twice *)

(** X1. In a started service a second [add(c, u, sid)] right after the
    first completes and leaves every key of the store as the first left
    it. *)
Theorem add_idempotent s c u sid :
  running s = true →
  let s1 := after (ChannelService.add c u sid) s in
  let s2 := after (ChannelService.add c u sid) s1 in
  result (ChannelService.add c u sid) s1 = Some tt ∧ store s2 = store s1.
Proof.
  intros [r HR]%running_Ready.
  destruct (service_add_runs r s c u sid HR)
    as (s1 & E1 & HR1 & _ & Hc1 & Hu1 & Hs1 & _).
  destruct (service_add_runs r s1 c u sid HR1)
    as (s2 & E2 & HR2 & _ & Hc2 & Hu2 & Hs2 & Hf2 & _).
  unfold after, result. rewrite E1. cbn zeta. rewrite E2.
  split; [done|].
  pose proof HR1 as (_ & _ & Hk1). pose proof HR2 as (_ & _ & Hk2).
  rewrite Hc1, insert_insert_eq in Hc2. rewrite Hu1, insert_insert_eq in Hu2.
  rewrite Hs1, (assoc_L (∪)), (idemp_L (∪)) in Hs2.
  apply map_eq. intros k.
  destruct (decide (k = Kc r c)) as [->|Hkc].
  { rewrite (lookup_of_hash _ _ _ (hash_at_chan r _ c Hk1)),
            (lookup_of_hash _ _ _ (hash_at_chan r _ c Hk2)).
    - by rewrite Hc2, Hc1.
    - rewrite Hc2. apply insert_non_empty.
    - rewrite Hc1. apply insert_non_empty. }
  destruct (decide (k = Ku r u)) as [->|Hku].
  { rewrite (lookup_of_hash _ _ _ (hash_at_user r _ u Hk1)),
            (lookup_of_hash _ _ _ (hash_at_user r _ u Hk2)).
    - by rewrite Hu2, Hu1.
    - rewrite Hu2. apply insert_non_empty.
    - rewrite Hu1. apply insert_non_empty. }
  destruct (decide (k = Ks r c sid)) as [->|Hks]; [|by apply Hf2].
  assert (Hne : {[u]} ∪ srv r (store s) c sid ≠ (∅ : gset string)).
  { intros E. apply (not_elem_of_empty (C:=gset string) u). rewrite <- E. apply in_added. }
  rewrite (lookup_of_set _ _ _ (set_at_srv r _ c sid Hk1)),
          (lookup_of_set _ _ _ (set_at_srv r _ c sid Hk2)).
  - by rewrite Hs2, Hs1.
  - by rewrite Hs2.
  - by rewrite Hs1.
Qed.

Lemma add_idempotent_witness :
  running lobby3 = true ∧
  store (after (ChannelService.add "lobby" "u2" "srvA")
           (after (ChannelService.add "lobby" "u2" "srvA") lobby3)) =
  store (after (ChannelService.add "lobby" "u2" "srvA") lobby3).
Proof.
  assert (H : running lobby3 = true) by (vm_compute; reflexivity).
  split; [exact H|].
  exact (proj2 (add_idempotent lobby3 "lobby" "u2" "srvA" H)).
Defined.

(** ** Leaving *)

Lemma ismember_zero r s c u :
  Ready r s →
  result (ChannelService.ismember c u) s = Some (Some 0) ↔
  chan r (store s) c !! u = None.
Proof.
  intros HR. unfold result. rewrite (service_ismember_runs r s c u HR).
  destruct (chan r (store s) c !! u); split; intros H; done.
Qed.

(** X2. A user who is not in the channel leaves it, no server named, in a
    started service (the user is not in the [c#] hash and the channel not
    in the user's [u#] hash; the store holds no empty value): the call
    completes, sends HGET, HDEL, HDEL and no SREM, and leaves every key of
    the store as it was. *)
Theorem leave_stranger s r c u :
  running s = true → redis s = Some r → compact (store s) = true →
  result (ChannelService.ismember c u) s = Some (Some 0) →
  ¬ listed c (result (ChannelService.channels u) s) →
  let s' := after (ChannelService.leave c u None) s in
  result (ChannelService.leave c u None) s = Some tt ∧
  store s' = store s ∧
  wire s' = (wire s ++ [HGET (Ku r u) c; HDEL (Ku r u) c; HDEL (Kc r c) u])%list.
Proof.
  intros [r' HR]%running_Ready Hr Hcompact Hnot Hnoc.
  assert (r' = r) as -> by (destruct HR as (_ & Hr' & _); congruence).
  pose proof HR as (Hst & _ & Hk).
  apply (ismember_zero r s c u HR) in Hnot.
  assert (Hu0 : user r (store s) u !! c = None).
  { destruct (user r (store s) u !! c) eqn:E; [|done].
    exfalso. apply Hnoc, (listed_channels r s c u HR). by rewrite E. }
  pose proof (hash_at_user r _ u Hk) as Hu.
  pose proof (hash_at_chan r _ c Hk) as Hc.
  unfold after, result, ChannelService.leave. rewrite started_runs by done.
  unfold ChannelManager.leave, bind, get. rewrite Hr. cbn [truthy].
  run hget_runs. rewrite Hu0.
  unfold ChannelManager.leave_rest, bind, forget, when. cbn [truthy].
  run hdel_runs. run hdel_runs. unfold ret.
  split; [done|]. fields. split.
  - rewrite (delete_id _ _ Hnot), (delete_id _ _ Hu0).
    rewrite (put_hash_same _ (Client.key r ("u#" +:+ u))) by done.
    by rewrite put_hash_same.
  - by rewrite <- !app_assoc.
Qed.

Lemma leave_stranger_witness :
  running lobby3 = true ∧ redis lobby3 = Some {| prefix := "" |} ∧
  compact (store lobby3) = true ∧
  result (ChannelService.ismember "lobby" "u9") lobby3 = Some (Some 0) ∧
  ¬ listed "lobby" (result (ChannelService.channels "u9") lobby3) ∧
  store (after (ChannelService.leave "lobby" "u9" None) lobby3) = store lobby3.
Proof.
  assert (H1 : running lobby3 = true) by (vm_compute; reflexivity).
  assert (H2 : redis lobby3 = Some {| prefix := "" |}) by (vm_compute; reflexivity).
  assert (H3 : compact (store lobby3) = true) by (vm_compute; reflexivity).
  assert (H4 : result (ChannelService.ismember "lobby" "u9") lobby3 = Some (Some 0))
    by (vm_compute; reflexivity).
  assert (H5 : ¬ listed "lobby" (result (ChannelService.channels "u9") lobby3)).
  { intros (l & E & Hl). vm_compute in E. injection E as <-.
    by apply not_elem_of_nil in Hl. }
  repeat (split; [assumption|]).
  exact (proj1 (proj2 (leave_stranger lobby3 _ "lobby" "u9" H1 H2 H3 H4 H5))).
Defined.

(** X3. [leave(c, u, sid2)] with the server named, after [add(c, u, sid1)]
    in a started service: the call asks nothing (no HGET) and sends HDEL,
    HDEL and the SREM for the set of [sid2]. The user is out of
    [ismember] and the channel out of [channels(u)] whatever [sid2] is;
    [members(c, sid1)] stops listing the user only when [sid2] is [sid1]:
    named with another server, the user stays listed on the real one. *)
Theorem leave_named_server s r c u sid1 sid2 :
  running s = true → redis s = Some r → sid1 ≠ "" → sid2 ≠ "" →
  let s1 := after (ChannelService.add c u sid1) s in
  let s2 := after (ChannelService.leave c u (Some sid2)) s1 in
  result (ChannelService.leave c u (Some sid2)) s1 = Some tt ∧
  wire s2 = (wire s1 ++ [HDEL (Ku r u) c; HDEL (Kc r c) u; SREM (Ks r c sid2) u])%list ∧
  result (ChannelService.ismember c u) s2 = Some (Some 0) ∧
  ¬ listed c (result (ChannelService.channels u) s2) ∧
  (listed u (result (ChannelService.members c (Some sid1)) s2) ↔ sid1 ≠ sid2).
Proof.
  intros [r' HR]%running_Ready Hr Hne1 Hne2.
  assert (r' = r) as -> by (destruct HR as (_ & Hr' & _); congruence).
  destruct (service_add_runs r s c u sid1 HR)
    as (s1 & E1 & HR1 & _ & Hc1 & Hu1 & Hs1 & _).
  destruct (service_leave_runs r s1 c u (Some sid2) HR1)
    as (s2 & E2 & HR2 & _ & Hc2 & Hu2 & Hs2 & Hf2 & Hw2).
  pose proof (truthy_Some sid2 Hne2) as Ht.
  unfold resolved in Hs2, Hf2, Hw2. rewrite Ht in Hs2, Hf2, Hw2.
  rewrite Ht in Hs2, Hf2, Hw2.
  cbn [default from_option Datatypes.id] in Hs2, Hf2, Hw2.
  unfold after, result at 1. rewrite E1. cbn zeta. rewrite E2.
  split; [done|]. split; [by rewrite Hw2|]. split; [|split].
  - apply (ismember_zero r s2 c u HR2). by rewrite Hc2, lookup_delete_eq.
  - rewrite (listed_channels r s2 c u HR2), Hu2, lookup_delete_eq. by intros [? ?].
  - rewrite (listed_members r s2 c sid1 u HR2), (truthy_Some sid1 Hne1).
    destruct (decide (sid1 = sid2)) as [->|Hne].
    + rewrite (Hs2 eq_refl). split; [|done]. intros H. by apply not_in_removed in H.
    + split; [done|]. intros _.
      rewrite (srv_frame r (store s1) (store s2) c sid1).
      * rewrite Hs1. apply in_added.
      * apply Hf2; try keys. intros _. keys.
Qed.

Lemma leave_named_server_witness :
  running lobby0 = true ∧ redis lobby0 = Some {| prefix := "" |} ∧
  "srvA" ≠ "" ∧ "srvB" ≠ "" ∧
  listed "u1" (result (ChannelService.members "lobby" (Some "srvA"))
                 (after (ChannelService.leave "lobby" "u1" (Some "srvB"))
                    (after (ChannelService.add "lobby" "u1" "srvA") lobby0))).
Proof.
  assert (H1 : running lobby0 = true) by (vm_compute; reflexivity).
  assert (H2 : redis lobby0 = Some {| prefix := "" |}) by (vm_compute; reflexivity).
  assert (H3 : "srvA" ≠ "") by discriminate.
  assert (H4 : "srvB" ≠ "") by discriminate.
  repeat (split; [assumption|]).
  destruct (leave_named_server lobby0 _ "lobby" "u1" "srvA" "srvB" H1 H2 H3 H4)
    as (_ & _ & _ & _ & H).
  apply H. discriminate.
Defined.

(** ** Filling a channel *)

(** The three indexes of channel [c] after one [add] per pair of [l], in
    terms of what they held before, whatever that was and with users
    allowed to come twice. *)
Lemma populate_indexes r s c l :
  Ready r s →
  ∃ s', populate c l s = Done tt s' ∧ Ready r s' ∧
        chan r (store s') c = list_to_map (reverse l) ∪ chan r (store s) c ∧
        (∀ v, is_Some (user r (store s') v !! c) ↔
              v ∈ l.*1 ∨ is_Some (user r (store s) v !! c)) ∧
        (∀ x v, v ∈ srv r (store s') c x ↔ (v, x) ∈ l ∨ v ∈ srv r (store s) c x).
Proof.
  unfold populate.
  induction l as [|[u sid] l IH] in s |- *; intros HR;
    rewrite ?reverse_cons; cbn [for_each fmap list_fmap fst snd].
  - exists s. split; [done|]. split; [done|]. split; [|split].
    + by rewrite reverse_nil, list_to_map_nil, (left_id_L ∅ (∪)).
    + intros v. rewrite elem_of_nil. tauto.
    + intros x v. rewrite elem_of_nil. tauto.
  - unfold bind.
    destruct (service_add_runs r s c u sid HR)
      as (s1 & -> & HR1 & _ & Hc1 & Hu1 & Hs1 & Hf1 & _).
    destruct (IH s1 HR1) as (s' & E & HR' & Hc & Hu & Hs).
    exists s'. split; [done|]. split; [done|]. split; [|split].
    + rewrite Hc, Hc1, list_to_map_app. cbn [list_to_map foldr fst snd uncurry].
      rewrite insert_empty, <- (assoc_L (∪)).
      by rewrite <- insert_union_singleton_l.
    + intros v. rewrite Hu, elem_of_cons.
      destruct (decide (v = u)) as [->|Hne].
      * rewrite Hu1, lookup_insert_eq. split; [by auto|by eauto].
      * rewrite (user_frame r (store s) (store s1) v) by (apply Hf1; keys). tauto.
    + intros x v. rewrite Hs, elem_of_cons.
      destruct (decide (x = sid)) as [->|Hne].
      * rewrite Hs1, elem_of_union, elem_of_singleton. split.
        -- intros [?|[->|?]]; auto.
        -- intros [[[= -> ]|?]|?]; auto.
      * rewrite (srv_frame r (store s) (store s1) c x) by (apply Hf1; keys).
        split; [tauto|]. intros [[[= _ ->]|?]|?]; [done|auto..].
Qed.

(** X4. A channel with no record is filled by one [add] per (user, server)
    pair of [l] in a started service; users may come twice. All the adds
    complete. Then [len] counts the users of [l] once each, [ismember]
    answers 1 exactly for them, [channels(u)] lists the channel exactly for
    them, and [members(c, x)] lists, for a named server, exactly the users
    added with that server: a user added twice with two servers is listed
    on both. *)
Theorem populate_fills s c (l : list (string * string)) :
  running s = true →
  (∀ u x, ¬ listed u (result (ChannelService.members c (Some x)) s)) →
  (∀ u, ¬ listed c (result (ChannelService.channels u) s)) →
  let s' := after (populate c l) s in
  result (populate c l) s = Some tt ∧
  result (ChannelService.len c) s' =
    Some (Some (Z.of_nat (length (remove_dups l.*1)))) ∧
  (∀ u, result (ChannelService.ismember c u) s' = Some (Some 1) ↔ u ∈ l.*1) ∧
  (∀ u x, x ≠ "" →
     listed u (result (ChannelService.members c (Some x)) s') ↔ (u, x) ∈ l) ∧
  (∀ u, listed c (result (ChannelService.channels u) s') ↔ u ∈ l.*1).
Proof.
  intros [r HR]%running_Ready Hsrv Huser.
  assert (Hc0 : chan r (store s) c = ∅).
  { apply map_eq. intros u. rewrite lookup_empty.
    destruct (chan r (store s) c !! u) eqn:E; [|done].
    exfalso. apply (Hsrv u ""), (listed_members r s c "" u HR).
    cbn [truthy String.eqb negb]. by rewrite E. }
  assert (Hu0 : ∀ u, ¬ is_Some (user r (store s) u !! c)).
  { intros u Hu. by apply (Huser u), (listed_channels r s c u HR). }
  assert (Hs0 : ∀ x u, x ≠ "" → u ∉ srv r (store s) c x).
  { intros x u Hx Hin. apply (Hsrv u x), (listed_members r s c x u HR).
    by rewrite truthy_Some. }
  destruct (populate_indexes r s c l HR) as (s' & E & HR' & Hc & Hu & Hs).
  assert (Es : after (populate c l) s = s') by (unfold after; by rewrite E).
  rewrite Es. cbn zeta. clear Es.
  rewrite Hc0, (right_id_L ∅ (∪)) in Hc.
  assert (Hdom : ∀ u, is_Some (chan r (store s') c !! u) ↔ u ∈ l.*1).
  { intros u. rewrite Hc, <- elem_of_dom, dom_list_to_map_L, elem_of_list_to_set.
    by rewrite fmap_reverse, elem_of_reverse. }
  split; [unfold result; by rewrite E|]. split; [|split; [|split]].
  - unfold result. rewrite (service_len_runs r s' c HR'). do 3 f_equal.
    rewrite <- size_dom, Hc, dom_list_to_map_L, fmap_reverse.
    rewrite <- (size_list_to_set (C := gset string) (remove_dups l.*1))
      by apply NoDup_remove_dups.
    f_equal. apply set_eq. intros u.
    by rewrite !elem_of_list_to_set, elem_of_reverse, elem_of_remove_dups.
  - intros u. rewrite <- Hdom. unfold result.
    rewrite (service_ismember_runs r s' c u HR').
    destruct (chan r (store s') c !! u); split; intros H;
      first [done | by eauto | by destruct H].
  - intros u x Hx. rewrite (listed_members r s' c x u HR'), (truthy_Some x Hx).
    rewrite Hs. split; [|by auto]. intros [?|?]; [done|]. by destruct (Hs0 x u).
  - intros u. rewrite (listed_channels r s' c u HR'), Hu.
    split; [|by auto]. intros [?|?]; [done|]. by destruct (Hu0 u).
Qed.

Lemma populate_fills_witness :
  running lobby0 = true ∧
  (∀ u x, ¬ listed u (result (ChannelService.members "lobby" (Some x)) lobby0)) ∧
  (∀ u, ¬ listed "lobby" (result (ChannelService.channels u) lobby0)) ∧
  result (ChannelService.len "lobby")
         (after (populate "lobby" [("u1", "srvA"); ("u1", "srvB"); ("u3", "srvB")])
            lobby0) = Some (Some 2).
Proof.
  assert (H1 : running lobby0 = true) by (vm_compute; reflexivity).
  assert (H2 : ∀ u x, ¬ listed u (result (ChannelService.members "lobby" (Some x)) lobby0)).
  { intros u x (l & E & Hl). destruct x; vm_compute in E; injection E as <-;
      by apply not_elem_of_nil in Hl. }
  assert (H3 : ∀ u, ¬ listed "lobby" (result (ChannelService.channels u) lobby0)).
  { intros u (l & E & Hl). vm_compute in E. injection E as <-.
    by apply not_elem_of_nil in Hl. }
  split; [exact H1|]. split; [exact H2|]. split; [exact H3|].
  exact (proj1 (proj2 (populate_fills lobby0 "lobby"
           [("u1", "srvA"); ("u1", "srvB"); ("u3", "srvB")] H1 H2 H3))).
Defined.

(** ** The three questions about a channel agree *)

(** X5. In a started service [members(c)], [len(c)] and [ismember(c, u)]
    tell one story: [members(c)] lists no user twice, [len(c)] is the
    length of that list, and [ismember(c, u)] is 1 exactly for the users on
    it, 0 for every other user. *)
Theorem queries_agree s c :
  running s = true →
  ∃ l, result (ChannelService.members c None) s = Some (Some l) ∧
       NoDup l ∧
       result (ChannelService.len c) s = Some (Some (Z.of_nat (length l))) ∧
       ∀ u, result (ChannelService.ismember c u) s =
            Some (Some (if bool_decide (u ∈ l) then 1 else 0)).
Proof.
  intros [r HR]%running_Ready.
  exists (elements (dom (chan r (store s) c))). unfold result.
  rewrite (service_members_runs r s c None HR), (service_len_runs r s c HR).
  cbn [truthy]. split; [done|]. split; [apply NoDup_elements|]. split.
  - do 3 f_equal. by rewrite <- size_dom.
  - intros u. rewrite (service_ismember_runs r s c u HR). do 2 f_equal.
    case_bool_decide as Hin; rewrite elem_of_elements, elem_of_dom in Hin.
    + by destruct Hin as [x ->].
    + destruct (chan r (store s) c !! u) eqn:E; [|done]. destruct Hin. by eauto.
Qed.

Lemma queries_agree_witness :
  running lobby3 = true ∧
  ∃ l, result (ChannelService.members "lobby" None) lobby3 = Some (Some l) ∧
       result (ChannelService.len "lobby") lobby3 = Some (Some (Z.of_nat (length l))).
Proof.
  assert (H : running lobby3 = true) by (vm_compute; reflexivity).
  split; [exact H|].
  destruct (queries_agree lobby3 "lobby" H) as (l & E1 & _ & E2 & _).
  exists l. exact (conj E1 E2).
Defined.

(** ** What the calls never do *)

(** X6. The questions ([len], [members], [ismember], [channels]) and
    [pushMessage] write nothing and start nothing: in a service where no
    un-awaited leave is pending, whatever its state and whatever the
    keyspace holds, after any sequence of them every key of the store is
    as it was and still no leave is pending. *)
Theorem reads_keep_store fuel ks s :
  parked s = [] → forallb reads ks = true →
  store (perform_all fuel ks s) = store s ∧ parked (perform_all fuel ks s) = [].
Proof.
  unfold perform_all.
  induction ks as [|k ks IH] in s |- *; intros Hp Hks; [done|].
  apply andb_prop in Hks as [Hk Hks]. cbn [foldl].
  assert (Hstep : store (perform fuel k s) = store s ∧ parked (perform fuel k s) = []).
  { rewrite <- Hp.
    destruct k; try discriminate Hk; cbn [perform]; split;
      first [ by apply keeps_len | by apply keeps_members | by apply keeps_ismember
            | by apply keeps_channels | by apply keeps_pushMessage ]. }
  destruct Hstep as [Hd Hp'].
  destruct (IH (perform fuel k s) Hp' Hks) as [Hd' Hp''].
  split; [by rewrite Hd', Hd | exact Hp''].
Qed.

Lemma reads_keep_store_witness :
  parked lobby3 = [] ∧
  forallb reads [Len "lobby"; Members "lobby" None;
                 PushMessage "connector" "chat" AUndefined "lobby" AUndefined] = true ∧
  store (perform_all 1 [Len "lobby"; Members "lobby" None;
                        PushMessage "connector" "chat" AUndefined "lobby" AUndefined]
           lobby3) = store lobby3.
Proof.
  assert (H0 : parked lobby3 = []) by (vm_compute; reflexivity).
  assert (H : forallb reads [Len "lobby"; Members "lobby" None;
                 PushMessage "connector" "chat" AUndefined "lobby" AUndefined] = true)
    by reflexivity.
  split; [exact H0|]. split; [exact H|].
  exact (proj1 (reads_keep_store 1 _ lobby3 H0 H)).
Defined.

Lemma start_keeps_invoked fuel s :
  invoked (after (ChannelService.start fuel) s) = invoked s.
Proof.
  unfold ChannelService.start, ChannelManager.start.
  rewrite after_bind, after_bind.
  match goal with |- invoked (after ?m ?s') = _ => assert (H : keeps invoked m) end.
  { apply keeps_bind; [apply keeps_get|]. intros clean. destruct clean.
    - apply keeps_bind; [by apply keeps_cleanup | intros; apply keeps_ret].
    - apply keeps_ret. }
  by rewrite H.
Qed.

Lemma stop_keeps_invoked force s :
  invoked (after (ChannelService.stop force) s) = invoked s.
Proof.
  unfold ChannelService.stop. rewrite after_bind.
  assert (H : keeps invoked (ChannelManager.stop force)).
  { unfold ChannelManager.stop, Client.quit.
    apply keeps_bind; [apply keeps_get|]. intros [r|]; [|apply keeps_ret].
    by apply keeps_forget, keeps_tell. }
  by rewrite H.
Qed.

(** X7. [pushMessage] is the only place a remote call is made: any
    sequence of the other calls ([start] with its sweep, [stop], [add],
    [leave], [destroy], the questions) and of replies coming in leaves the
    list of [rpcInvoke] calls as it was, in every state of the service. *)
Theorem only_push_invokes fuel ks s :
  forallb (λ k, negb (pushes k)) ks = true →
  invoked (perform_all fuel ks s) = invoked s.
Proof.
  unfold perform_all.
  induction ks as [|k ks IH] in s |- *; intros Hks; [done|].
  apply andb_prop in Hks as [Hk Hks]. cbn [foldl]. rewrite (IH _ Hks).
  destruct k; try discriminate Hk; cbn [perform].
  - apply start_keeps_invoked.
  - apply stop_keeps_invoked.
  - by apply keeps_add.
  - by apply keeps_leave.
  - by apply keeps_destroy.
  - by apply keeps_len.
  - by apply keeps_members.
  - by apply keeps_ismember.
  - by apply keeps_channels.
  - by apply settle_keeps.
Qed.

Lemma only_push_invokes_witness :
  forallb (λ k, negb (pushes k))
    [Add "lobby" "u4" "srvB"; Destroy "lobby"; Replies; Stop false; Start] = true ∧
  invoked (perform_all 4
             [Add "lobby" "u4" "srvB"; Destroy "lobby"; Replies; Stop false; Start]
             lobby3) = invoked lobby3.
Proof.
  assert (H : forallb (λ k, negb (pushes k))
    [Add "lobby" "u4" "srvB"; Destroy "lobby"; Replies; Stop false; Start] = true)
    by reflexivity.
  split; [exact H|].
  exact (only_push_invokes 4 _ lobby3 H).
Defined.

(** ** What [pushMessage] asks the store *)

Lemma push_each_wire r s route msg c servers users :
  Ready r s →
  wire (after (ChannelService.push_each route msg c servers users) s) =
  (wire s ++ map (λ sv, members_command r c (id sv)) servers)%list.
Proof.
  revert s users. induction servers as [|sv servers IH]; intros s users HR.
  - cbn [ChannelService.push_each map]. by rewrite app_nil_r.
  - cbn [ChannelService.push_each map]. rewrite after_bind.
    rewrite (service_members_runs r s c (Some (id sv)) HR).
    unfold members_command.
    assert (Hstep : ∀ (cmd : command) uids users',
      wire (after (if nonempty uids
                   then wait ChannelService.rpcInvoke (id sv)
                               (ChannelService.envelope route msg (default [] uids));
                        ChannelService.push_each route msg c servers users'
                   else ChannelService.push_each route msg c servers users)
                  (sent cmd s)) =
      (wire s ++ cmd :: map (λ sv, members_command r c (id sv)) servers)%list).
    { intros cmd uids users'. destruct (nonempty uids).
      - rewrite after_bind. unfold ChannelService.rpcInvoke at 1.
        rewrite IH.
        + fields. by rewrite <- app_assoc.
        + destruct HR as (? & ? & ?). by repeat split.
      - rewrite IH by by apply Ready_sent.
        fields. by rewrite <- app_assoc. }
    destruct (truthy (Some (id sv))); apply Hstep.
Qed.

(** X8. [pushMessage] in a started service asks the store once for each
    server of the resolved list, in the order of the list and whether or
    not the server has members: SMEMBERS of the server's set, or HKEYS of
    the channel's hash for a server whose id is the empty string. It sends
    nothing else and no key is written. *)
Theorem push_reads s r stype route msg c o :
  running s = true → redis s = Some r →
  let s' := after (ChannelService.pushMessage stype route msg c o) s in
  wire s' = (wire s ++ map (λ sv, members_command r c (id sv))
                           (getServersByType (app s) stype))%list ∧
  store s' = store s.
Proof.
  intros [r' HR]%running_Ready Hr.
  assert (r' = r) as -> by (destruct HR as (_ & Hr' & _); congruence).
  split; [|by apply keeps_pushMessage].
  pose proof HR as (Hst & _).
  unfold ChannelService.pushMessage, after. rewrite started_runs by done.
  unfold bind at 1, get at 1.
  destruct (getServersByType (app s) stype) as [|sv servers] eqn:Es.
  - cbn [map]. unfold ret. by rewrite app_nil_r.
  - pose proof (push_each_wire r s route msg c (sv :: servers) [] HR) as H.
    unfold after in H. unfold bind.
    destruct (ChannelService.push_each route msg c (sv :: servers) [] s); exact H.
Qed.

Lemma push_reads_witness :
  running lobby1 = true ∧ redis lobby1 = Some {| prefix := "" |} ∧
  wire (after (ChannelService.pushMessage "connector" "chat" (AObject []) "lobby"
                 (AObject [])) lobby1) =
  (wire lobby1 ++ [SMEMBERS "s#lobby:srvA"; SMEMBERS "s#lobby:srvB"])%list.
Proof.
  assert (H1 : running lobby1 = true) by (vm_compute; reflexivity).
  assert (H2 : redis lobby1 = Some {| prefix := "" |}) by (vm_compute; reflexivity).
  split; [exact H1|]. split; [exact H2|].
  exact (proj1 (push_reads lobby1 _ "connector" "chat" (AObject []) "lobby"
                  (AObject []) H1 H2)).
Defined.

(** ** What a leave leaves alone, and what it gives back *)

(** X9. The frame of [leave]: in a started service [leave(c, u)], with or
    without a server named, changes the answer of [ismember(c', u')] and
    the presence of [c'] in [channels(u')] for no pair [(c', u')] other
    than [(c, u)], and the presence of [u'] in [members(c', x)] for no
    user [u'] other than [u], whatever the channel and the server. *)
Theorem leave_frame s c u osid c' u' :
  running s = true → (c', u') ≠ (c, u) →
  let s1 := after (ChannelService.leave c u osid) s in
  result (ChannelService.ismember c' u') s1 = result (ChannelService.ismember c' u') s ∧
  (listed c' (result (ChannelService.channels u') s1) ↔
   listed c' (result (ChannelService.channels u') s)) ∧
  (u' ≠ u → ∀ x, listed u' (result (ChannelService.members c' (Some x)) s1) ↔
                 listed u' (result (ChannelService.members c' (Some x)) s)).
Proof.
  intros [r HR]%running_Ready Hne.
  destruct (service_leave_runs r s c u osid HR)
    as (s1 & E1 & HR1 & _ & Hc1 & Hu1 & Hs1 & Hf1 & _).
  unfold after. rewrite E1. cbn zeta.
  set (sid' := resolved r (store s) c u osid) in *.
  assert (Hchan : chan r (store s1) c' !! u' = chan r (store s) c' !! u').
  { destruct (decide (c' = c)) as [->|Hc].
    - rewrite Hc1. apply lookup_delete_ne. congruence.
    - rewrite (chan_frame r (store s) (store s1) c'); [done|].
      apply Hf1; try keys. intros _. keys. }
  assert (Huser : user r (store s1) u' !! c' = user r (store s) u' !! c').
  { destruct (decide (u' = u)) as [->|Hu].
    - rewrite Hu1. apply lookup_delete_ne. congruence.
    - rewrite (user_frame r (store s) (store s1) u'); [done|].
      apply Hf1; try keys. intros _. keys. }
  split; [|split].
  - unfold result.
    by rewrite (service_ismember_runs r s1 c' u' HR1),
               (service_ismember_runs r s c' u' HR), Hchan.
  - by rewrite (listed_channels r s1 c' u' HR1), (listed_channels r s c' u' HR), Huser.
  - intros Hu x.
    rewrite (listed_members r s1 c' x u' HR1), (listed_members r s c' x u' HR), Hchan.
    destruct (truthy (Some x)); [|done].
    destruct (decide (truthy sid' = true ∧ Ks r c' x = Ks r c (default "" sid')))
      as [[Ht Hkey]|Hno].
    + rewrite !(srv_same_key r _ _ _ _ _ Hkey), (Hs1 Ht).
      rewrite elem_of_difference, elem_of_singleton. tauto.
    + rewrite (srv_frame r (store s) (store s1) c' x); [done|].
      apply Hf1; try keys. intros Ht Hkey. by apply Hno.
Qed.

Lemma leave_frame_witness :
  running lobby3 = true ∧ ("lobby", "u2") ≠ ("lobby", "u1") ∧
  result (ChannelService.ismember "lobby" "u2")
         (after (ChannelService.leave "lobby" "u1" None) lobby3) =
  result (ChannelService.ismember "lobby" "u2") lobby3.
Proof.
  assert (H1 : running lobby3 = true) by (vm_compute; reflexivity).
  assert (H2 : ("lobby", "u2") ≠ ("lobby", "u1")) by discriminate.
  split; [exact H1|]. split; [exact H2|].
  exact (proj1 (leave_frame lobby3 "lobby" "u1" None "lobby" "u2" H1 H2)).
Defined.

(** X10. Round trip. A user who has no record in the channel ([ismember]
    is 0, [channels(u)] does not list the channel, the server's
    [members] does not list the user) is added on a named server and then
    leaves without naming it, in a started service. Every question then
    gets the answer it got before the two calls: [len] and [members] of
    every channel, on every server, [ismember] of every pair, [channels]
    of every user. *)
Theorem add_leave_restores s c u sid :
  running s = true → sid ≠ "" →
  result (ChannelService.ismember c u) s = Some (Some 0) →
  ¬ listed c (result (ChannelService.channels u) s) →
  ¬ listed u (result (ChannelService.members c (Some sid)) s) →
  let s2 := after (ChannelService.leave c u None)
                  (after (ChannelService.add c u sid) s) in
  (∀ c', result (ChannelService.len c') s2 = result (ChannelService.len c') s) ∧
  (∀ c' o, result (ChannelService.members c' o) s2 =
           result (ChannelService.members c' o) s) ∧
  (∀ c' u', result (ChannelService.ismember c' u') s2 =
            result (ChannelService.ismember c' u') s) ∧
  (∀ u', result (ChannelService.channels u') s2 =
         result (ChannelService.channels u') s).
Proof.
  intros [r HR]%running_Ready Hsid Hnot Hnoc Hnos.
  apply (ismember_zero r s c u HR) in Hnot.
  assert (Hu0 : user r (store s) u !! c = None).
  { destruct (user r (store s) u !! c) eqn:E; [|done].
    exfalso. apply Hnoc, (listed_channels r s c u HR). by rewrite E. }
  assert (Hs0 : u ∉ srv r (store s) c sid).
  { intros Hin. apply Hnos, (listed_members r s c sid u HR).
    by rewrite (truthy_Some sid Hsid). }
  destruct (service_add_runs r s c u sid HR)
    as (s1 & E1 & HR1 & _ & Hc1 & Hu1 & Hs1 & Hf1 & _).
  destruct (service_leave_runs r s1 c u None HR1)
    as (s2 & E2 & HR2 & _ & Hc2 & Hu2 & Hs2 & Hf2 & _).
  pose proof (truthy_Some sid Hsid) as Ht.
  unfold resolved in Hs2, Hf2. cbn [truthy] in Hs2, Hf2.
  rewrite Hu1, lookup_insert_eq, Ht in Hs2, Hf2.
  cbn [default from_option Datatypes.id] in Hs2, Hf2.
  specialize (Hs2 eq_refl).
  unfold after. rewrite E1, E2. cbn zeta.
  assert (Hchan : ∀ c', chan r (store s2) c' = chan r (store s) c').
  { intros c'. destruct (decide (c' = c)) as [->|Hc].
    - by rewrite Hc2, Hc1, delete_insert_id.
    - rewrite (chan_frame r (store s1) (store s2) c') by (apply Hf2; intros; keys).
      apply chan_frame, Hf1; keys. }
  assert (Huser : ∀ u', user r (store s2) u' = user r (store s) u').
  { intros u'. destruct (decide (u' = u)) as [->|Hu].
    - by rewrite Hu2, Hu1, delete_insert_id.
    - rewrite (user_frame r (store s1) (store s2) u') by (apply Hf2; intros; keys).
      apply user_frame, Hf1; keys. }
  assert (Hsrv : ∀ c' x, srv r (store s2) c' x = srv r (store s) c' x).
  { intros c' x. destruct (decide (Ks r c' x = Ks r c sid)) as [Hkey|Hkey].
    - rewrite !(srv_same_key r _ _ _ _ _ Hkey), Hs2, Hs1.
      apply set_eq. intros v.
      rewrite elem_of_difference, elem_of_union, elem_of_singleton.
      split; [tauto|]. intros Hv. split; [tauto|]. by intros ->.
    - rewrite (srv_frame r (store s1) (store s2) c' x) by (apply Hf2; intros; keys).
      apply srv_frame, Hf1; keys. }
  unfold result. split; [|split; [|split]].
  - intros c'. by rewrite (service_len_runs r s2 c' HR2), (service_len_runs r s c' HR), Hchan.
  - intros c' o.
    rewrite (service_members_runs r s2 c' o HR2), (service_members_runs r s c' o HR).
    destruct (truthy o); by rewrite ?Hsrv, ?Hchan.
  - intros c' u'.
    by rewrite (service_ismember_runs r s2 c' u' HR2),
               (service_ismember_runs r s c' u' HR), Hchan.
  - intros u'.
    by rewrite (service_channels_runs r s2 u' HR2), (service_channels_runs r s u' HR), Huser.
Qed.

Lemma add_leave_restores_witness :
  running lobby3 = true ∧ "srvB" ≠ "" ∧
  result (ChannelService.ismember "lobby" "u4") lobby3 = Some (Some 0) ∧
  ¬ listed "lobby" (result (ChannelService.channels "u4") lobby3) ∧
  ¬ listed "u4" (result (ChannelService.members "lobby" (Some "srvB")) lobby3) ∧
  result (ChannelService.members "lobby" None)
    (after (ChannelService.leave "lobby" "u4" None)
       (after (ChannelService.add "lobby" "u4" "srvB") lobby3)) =
  result (ChannelService.members "lobby" None) lobby3.
Proof.
  assert (H1 : running lobby3 = true) by (vm_compute; reflexivity).
  assert (H2 : "srvB" ≠ "") by discriminate.
  assert (H3 : result (ChannelService.ismember "lobby" "u4") lobby3 = Some (Some 0))
    by (vm_compute; reflexivity).
  assert (H4 : ¬ listed "lobby" (result (ChannelService.channels "u4") lobby3)).
  { intros (l & E & Hl). vm_compute in E. injection E as <-.
    by apply not_elem_of_nil in Hl. }
  assert (H5 : ¬ listed "u4" (result (ChannelService.members "lobby" (Some "srvB")) lobby3)).
  { intros (l & E & Hl). vm_compute in E. injection E as <-.
    apply list_elem_of_singleton in Hl. discriminate Hl. }
  repeat (split; [assumption|]).
  exact (proj1 (proj2 (add_leave_restores lobby3 "lobby" "u4" "srvB" H1 H2 H3 H4 H5))
           "lobby" None).
Defined.

(** ** [destroy], whatever the channel holds *)

(** X11. [destroy(c)] in a started service, whatever the keyspace holds
    for the channel: the call completes, and once the replies to the leaves
    it started have come in, [len(c)] is 0, [members(c)] is the empty list,
    [ismember(c, u)] is 0 for every user, a user who was a member no longer
    has [c] in [channels], and no pair of a channel and a user is a member
    that was not one before. *)
Theorem destroy_settles s c :
  running s = true →
  let s2 := settle (after (ChannelService.destroy c) s) in
  result (ChannelService.destroy c) s = Some tt ∧
  result (ChannelService.len c) s2 = Some (Some 0) ∧
  result (ChannelService.members c None) s2 = Some (Some []) ∧
  (∀ u, result (ChannelService.ismember c u) s2 = Some (Some 0)) ∧
  (∀ u, result (ChannelService.ismember c u) s = Some (Some 1) →
        ¬ listed c (result (ChannelService.channels u) s2)) ∧
  (∀ c' u, result (ChannelService.ismember c' u) s2 = Some (Some 1) →
           result (ChannelService.ismember c' u) s = Some (Some 1)).
Proof.
  intros [r HR]%running_Ready.
  destruct (destroy_settled_chan r s c HR) as (HR2 & Hsh & Hc & Hcl).
  destruct (destroy_runs r s c HR) as (s1 & E & _).
  set (s2 := settle (after (ChannelService.destroy c) s)) in *. cbn zeta.
  unfold result.
  rewrite E, (service_len_runs r s2 c HR2), (service_members_runs r s2 c None HR2).
  cbn [truthy]. rewrite Hc.
  split; [done|]. split; [done|]. split; [done|]. split; [|split].
  - intros u. by rewrite (service_ismember_runs r s2 c u HR2), Hc.
  - intros u. rewrite (service_ismember_runs r s c u HR).
    destruct (chan r (store s) c !! u) eqn:Eu; [|done]. intros _.
    rewrite (listed_channels r s2 c u HR2).
    destruct (Hcl u) as (_ & Hgone & _); [by rewrite Eu|].
    cbn [parked_channel parked_uid] in Hgone. rewrite Hgone. by intros [? ?].
  - intros c' u.
    rewrite (service_ismember_runs r s2 c' u HR2), (service_ismember_runs r s c' u HR).
    destruct Hsh as (_ & _ & _ & Hsub & _).
    destruct (chan r (store s2) c' !! u) eqn:Eu; [|done].
    eapply lookup_weaken in Eu; [|apply Hsub]. by rewrite Eu.
Qed.

Lemma destroy_settles_witness :
  running lobby3 = true ∧
  result (ChannelService.len "lobby")
         (settle (after (ChannelService.destroy "lobby") lobby3)) = Some (Some 0).
Proof.
  assert (H : running lobby3 = true) by (vm_compute; reflexivity).
  split; [exact H|].
  exact (proj1 (proj2 (destroy_settles lobby3 "lobby" H))).
Defined.

(** ** Stopping and starting *)

Lemma gated_ignored fuel k s :
  state s ≠ ST_STARTED → gated k = true → perform fuel k s = s.
Proof.
  intros Hst Hk. destruct k; try discriminate Hk; cbn [perform]; unfold after.
  - unfold ChannelService.add. by rewrite started_gate.
  - unfold ChannelService.leave. by rewrite started_gate.
  - unfold ChannelService.destroy. by rewrite started_gate.
  - unfold ChannelService.len. by rewrite started_gate.
  - unfold ChannelService.members. by rewrite started_gate.
  - unfold ChannelService.ismember. by rewrite started_gate.
  - unfold ChannelService.channels. by rewrite started_gate.
  - unfold ChannelService.pushMessage. by rewrite started_gate.
Qed.

(** X12. [stop(force)] in a running service (started, its client
    connected, no un-awaited leave pending): the call completes, sends
    QUIT and nothing else, keeps the client object, writes no key and
    leaves the service closed; and whatever sequence of [add], [leave],
    [destroy], [pushMessage] and questions follows changes nothing at all:
    no command goes out, no key and no list of the system changes. *)
Theorem stop_quits force s :
  running s = true →
  let s' := after (ChannelService.stop force) s in
  result (ChannelService.stop force) s = Some tt ∧
  wire s' = (wire s ++ [QUIT])%list ∧
  store s' = store s ∧ redis s' = redis s ∧ state s' = ST_CLOSED ∧
  parked s' = [] ∧
  ∀ fuel ks, forallb gated ks = true → perform_all fuel ks s' = s'.
Proof.
  intros Hrun. pose proof Hrun as [r (_ & Hr & _)]%running_Ready.
  assert (Hp : parked s = []).
  { unfold running in Hrun. apply andb_prop in Hrun as [_ Hp].
    by apply bool_decide_eq_true in Hp. }
  cbn zeta.
  assert (Hst : state (after (ChannelService.stop force) s) = ST_CLOSED)
    by apply stop_state.
  assert (E : ChannelService.stop force s =
              Done tt (set_store (store s) (sent QUIT (set_state ST_CLOSED s)))).
  { unfold ChannelService.stop, ChannelManager.stop, bind, get, forget,
      Client.quit, tell. fields. by rewrite Hr. }
  assert (Ea : after (ChannelService.stop force) s =
               set_store (store s) (sent QUIT (set_state ST_CLOSED s)))
    by (unfold after; by rewrite E).
  split; [unfold result; by rewrite E|].
  split; [by rewrite Ea|]. split; [by rewrite Ea|]. split; [by rewrite Ea|].
  split; [done|]. split; [by rewrite Ea|].
  intros fuel ks. generalize dependent (after (ChannelService.stop force) s).
  intros s' Hs' _. unfold perform_all.
  induction ks as [|k ks IH]; intros Hks; [done|].
  apply andb_prop in Hks as [Hk Hks]. cbn [foldl].
  rewrite gated_ignored; [by apply IH | by rewrite Hs' | done].
Qed.

Lemma stop_quits_witness :
  running lobby3 = true ∧
  wire (after (ChannelService.stop false) lobby3) = (wire lobby3 ++ [QUIT])%list ∧
  perform_all 1 [Add "lobby" "u4" "srvA"; Len "lobby"; Destroy "lobby"]
    (after (ChannelService.stop false) lobby3) =
  after (ChannelService.stop false) lobby3.
Proof.
  assert (H : running lobby3 = true) by (vm_compute; reflexivity).
  split; [exact H|].
  destruct (stop_quits false lobby3 H) as (_ & Hw & _ & _ & _ & _ & Hg).
  split; [exact Hw|]. apply Hg. reflexivity.
Defined.

Lemma kinded_well_kinded p d : kinded p d → well_kinded p d = true.
Proof.
  intros Hk. unfold well_kinded. apply forallb_forall. intros [k v] Hin.
  apply list_elem_of_In, elem_of_map_to_list in Hin. by apply (Hk k v).
Qed.

Lemma kinded_subseteq p (d d' : db) : d' ⊆ d → kinded p d → kinded p d'.
Proof. intros Hsub Hk k v Hv. apply (Hk k v). by eapply lookup_weaken. Qed.

Lemma del_subseteq ks (d : db) : Redis.del ks d ⊆ d.
Proof.
  induction ks as [|k ks IH]; simpl; [done|].
  etrans; [apply delete_subseteq | exact IH].
Qed.

Lemma del_absent ks (d : db) : (∀ k, k ∈ ks → d !! k = None) → Redis.del ks d = d.
Proof.
  induction ks as [|k ks IH]; intros H; simpl; [done|].
  rewrite IH by (intros k' Hk'; apply H; by right).
  apply delete_id, H. by left.
Qed.

(** The sweep only deletes, sends no remote call and parks nothing. *)
Lemma cleanup_pages_shrinks fuel r p cur cleaned s :
  store (after (ChannelManager.cleanup_pages fuel r p cur cleaned) s) ⊆ store s.
Proof.
  induction fuel as [|fuel IH] in cur, cleaned, s |- *; [done|].
  cbn [ChannelManager.cleanup_pages].
  rewrite after_bind. unfold Client.scan at 1, ask at 1.
  set (batch := Redis.scan cur (p +:+ "*") 100 (store s)).
  set (keys := filter _ batch.2).
  rewrite after_bind.
  destruct (nonempty (Some batch.2) && nonempty (Some keys)).
  - unfold bind, forget, Client.del, tell, ret.
    destruct batch.1; [|unfold after; fields; apply del_subseteq].
    etrans; [apply IH|]. fields. apply del_subseteq.
  - unfold ret at 1. destruct batch.1; [|done]. etrans; [apply IH|]. done.
Qed.

Lemma start_shrinks fuel s : store (after (ChannelService.start fuel) s) ⊆ store s.
Proof.
  unfold ChannelService.start, ChannelManager.start.
  rewrite after_bind, after_bind, after_bind. unfold get at 1.
  destruct (cleanOnStartUp _); [|done].
  rewrite after_bind. unfold ChannelManager.cleanup.
  match goal with |- context [bind ?m ?k ?s0] =>
    pose proof (after_bind m k s0) as Hb; unfold after at 1 in Hb
  end.
  unfold get at 1 in Hb. fields.
  unfold bind at 1, get at 1. fields.
  unfold bind at 1, get at 1.
  match goal with |- context [ChannelManager.cleanup_pages ?f ?r ?p ?c ?l ?s0] =>
    pose proof (cleanup_pages_shrinks f r p c l s0) as Hsub; unfold after in Hsub;
    destruct (ChannelManager.cleanup_pages f r p c l s0)
  end; exact Hsub.
Qed.

(** X13. A service constructed over a store and started is running: the
    state is started, the client carries the key prefix of the options
    (the default [{POMELO-GLOBALCHANNEL}] when the configuration has no
    [options]), no leave is pending, and the keys it finds are of the right
    kind when they were before. The start only ever deletes keys; without
    [cleanOnStartUp] it sends nothing and leaves the store as it was. *)
Theorem start_runs fuel a o d :
  let p := match options o with Some x => keyPrefix x | None => DEFALT_PREFIX end in
  well_kinded p d = true →
  let s := after (ChannelService.start fuel) (ChannelService.constructor a o d) in
  running s = true ∧ redis s = Some {| prefix := p |} ∧ store s ⊆ d ∧
  (cleanOnStartUp o = false → store s = d ∧ wire s = []).
Proof.
  intros p Hk s.
  assert (Hst : state s = ST_STARTED) by apply start_state.
  assert (Hsub : store s ⊆ d) by apply start_shrinks.
  assert (Hr : redis s = Some {| prefix := p |}).
  { unfold s, ChannelService.start, ChannelManager.start.
    rewrite after_bind, after_bind.
    match goal with |- redis (after ?m ?s') = _ => assert (H : keeps redis m) end.
    { apply keeps_bind; [apply keeps_get|]. intros clean. destruct clean.
      - apply keeps_bind; [by apply keeps_cleanup | intros; apply keeps_ret].
      - apply keeps_ret. }
    rewrite H. fields. unfold ChannelService.constructor, ChannelManager.constructor,
      new_IORedis. subst p. by destruct (options o) eqn:E; fields; rewrite ?E. }
  assert (Hp : parked s = []).
  { unfold s, ChannelService.start, ChannelManager.start.
    rewrite after_bind, after_bind.
    match goal with |- parked (after ?m ?s') = _ => assert (H : keeps parked m) end.
    { apply keeps_bind; [apply keeps_get|]. intros clean. destruct clean.
      - apply keeps_bind; [by apply keeps_cleanup | intros; apply keeps_ret].
      - apply keeps_ret. }
    by rewrite H. }
  split; [|split; [done|split; [done|]]].
  - unfold running. rewrite Hst, Hr, Hp. cbn [prefix].
    rewrite !bool_decide_eq_true_2 by done.
    rewrite (kinded_well_kinded p (store s)); [done|].
    eapply kinded_subseteq; [exact Hsub|]. by apply well_kinded_kinded.
  - intros Hclean. unfold s, ChannelService.start, ChannelManager.start, after,
      bind, get, ret. fields.
    assert (Hc : cleanOnStartUp (ChannelManager.constructor o) = false).
    { unfold ChannelManager.constructor. by destruct (options o). }
    unfold ChannelService.constructor. fields. by rewrite Hc.
Qed.

Lemma start_runs_witness :
  well_kinded DEFALT_PREFIX (store lobby3) = true ∧
  running (after (ChannelService.start 1)
             (ChannelService.constructor directory
                {| url := "redis://127.0.0.1:6379"; options := None;
                   cleanOnStartUp := false |} (store lobby3))) = true.
Proof.
  assert (H : well_kinded DEFALT_PREFIX (store lobby3) = true) by (vm_compute; reflexivity).
  split; [exact H|].
  exact (proj1 (start_runs 1 directory
                  {| url := "redis://127.0.0.1:6379"; options := None;
                     cleanOnStartUp := false |} (store lobby3) H)).
Defined.

(** ** The sweep at start, for every store *)

Lemma cleanup_pages_keeps_store fuel r p cur cleaned s :
  (∀ k, is_Some (store s !! k) → store s !! (prefix r +:+ k) = None) →
  store (after (ChannelManager.cleanup_pages fuel r p cur cleaned) s) = store s.
Proof.
  induction fuel as [|fuel IH] in cur, cleaned, s |- *; intros Hfree; [done|].
  cbn [ChannelManager.cleanup_pages].
  rewrite after_bind. unfold Client.scan at 1, ask at 1.
  set (batch := Redis.scan cur (p +:+ "*") 100 (store s)).
  set (keys := filter _ batch.2).
  rewrite after_bind.
  assert (Hdel : Redis.del (Client.key r <$> keys) (store s) = store s).
  { apply del_absent. intros k (k' & -> & Hk')%list_elem_of_fmap.
    apply Hfree. apply list_elem_of_filter in Hk' as [_ Hk'].
    by apply (scan_in_store cur (p +:+ "*") 100). }
  destruct (nonempty (Some batch.2) && nonempty (Some keys)).
  - unfold bind, forget, Client.del, tell, ret. fields. rewrite Hdel.
    destruct batch.1; [|unfold after; by fields].
    rewrite IH; fields; done.
  - unfold ret at 1. destruct batch.1; [|done]. by rewrite IH.
Qed.

(** X14. The sweep of [start] deletes what the client makes of the keys it
    scanned, and the client puts its prefix in front of them once more. So
    on a store where no key is the prefix followed by another key of the
    store, [start] with or without [cleanOnStartUp], and however many pages
    the scan takes, leaves every key where it was. *)
Theorem sweep_keeps_store fuel s :
  let p := match options (opts s) with Some x => keyPrefix x | None => "" end in
  (∀ k, is_Some (store s !! k) → store s !! (p +:+ k) = None) →
  store (after (ChannelService.start fuel) s) = store s.
Proof.
  intros p Hfree.
  unfold ChannelService.start, ChannelManager.start.
  rewrite after_bind, after_bind, after_bind. unfold get at 1. fields.
  destruct (cleanOnStartUp _); [|done].
  rewrite after_bind. unfold ChannelManager.cleanup.
  unfold bind at 1, get at 1. fields.
  unfold bind at 1, get at 1. fields.
  match goal with |- context [ChannelManager.cleanup_pages ?f ?r ?q ?c ?l ?s0] =>
    pose proof (cleanup_pages_keeps_store f r q c l s0) as H; unfold after in H;
    destruct (ChannelManager.cleanup_pages f r q c l s0)
  end; apply H; exact Hfree.
Qed.

Lemma sweep_keeps_store_witness :
  (∀ k, is_Some (store restart !! k) → store restart !! ("keyPrefix#" +:+ k) = None) ∧
  store (after (ChannelService.start 8) restart) = store restart.
Proof.
  assert (H : ∀ k, is_Some (store restart !! k) →
                   store restart !! ("keyPrefix#" +:+ k) = None).
  { intros k [v Hv]. apply elem_of_map_to_list in Hv.
    vm_compute map_to_list in Hv.
    repeat (apply elem_of_cons in Hv as [Hv|Hv]; [injection Hv as -> _; vm_compute; reflexivity|]).
    by apply not_elem_of_nil in Hv. }
  split; [exact H|].
  exact (sweep_keeps_store 8 restart H).
Defined.

(** ** The sweep with the empty prefix *)

(** The order SCAN walks the keys in. *)
Lemma compare_le_trans a b c :
  String.compare a b ≠ Gt → String.compare b c ≠ Gt → String.compare a c ≠ Gt.
Proof.
  revert b c. induction a as [|x a IH]; intros [|y b] [|z c]; simpl; try done.
  unfold Ascii.compare.
  destruct (N.compare_spec (N_of_ascii x) (N_of_ascii y)) as [E1|L1|G1];
    destruct (N.compare_spec (N_of_ascii y) (N_of_ascii z)) as [E2|L2|G2];
    destruct (N.compare_spec (N_of_ascii x) (N_of_ascii z)) as [E3|L3|G3];
    intros H1 H2; first [lia | congruence | by eapply IH].
Qed.

Lemma leb_iff a b : String.leb a b = true ↔ String.compare a b ≠ Gt.
Proof. unfold String.leb. by destruct (String.compare a b). Qed.

Lemma compare_same a : String.compare a a = Eq.
Proof.
  pose proof (String.compare_antisym a a) as H.
  by destruct (String.compare a a).
Qed.

Lemma ltb_iff a b : String.ltb a b = true ↔ String.leb a b = true ∧ a ≠ b.
Proof.
  unfold String.ltb, String.leb. destruct (String.compare a b) eqn:E.
  - apply String.compare_eq_iff in E. split; [done|]. by intros [_ H].
  - split; [|done]. intros _. split; [done|]. intros ->.
    by rewrite compare_same in E.
  - split; [done|]. by intros [? _].
Qed.

Lemma key_le_trans : Transitive key_le.
Proof.
  intros a b c. unfold key_le. rewrite !leb_iff. apply compare_le_trans.
Qed.

Lemma key_le_total : Total key_le.
Proof. intros a b. apply String.leb_total. Qed.

Lemma ltb_trans a b c :
  String.ltb a b = true → String.ltb b c = true → String.ltb a c = true.
Proof.
  rewrite !ltb_iff. intros [H1 N1] [H2 N2]. split.
  - by apply (key_le_trans a b c).
  - intros ->. apply N2. by apply String.leb_antisym.
Qed.

Lemma leb_not_ltb a b : String.leb a b = true → String.ltb b a = false.
Proof.
  intros H. destruct (String.ltb b a) eqn:E; [|done].
  apply ltb_iff in E as [E N]. destruct N. by apply String.leb_antisym.
Qed.

Lemma StronglySorted_filter {A} (R : relation A) (P : A → Prop)
    `{∀ x, Decision (P x)} (l : list A) :
  StronglySorted R l → StronglySorted R (filter P l).
Proof.
  induction 1 as [|a l Hl IH Ha]; [constructor|].
  rewrite filter_cons. case_decide; [|done].
  constructor; [done|]. apply Forall_forall. intros x [_ Hx]%list_elem_of_filter.
  by eapply Forall_forall in Ha.
Qed.

Lemma pending_spec cur (d : db) :
  StronglySorted key_le (pending cur d) ∧ NoDup (pending cur d) ∧
  ∀ k, k ∈ pending cur d ↔ Redis.after cur k = true ∧ is_Some (d !! k).
Proof.
  unfold pending, keys_in_order. split; [|split].
  - apply StronglySorted_filter, StronglySorted_merge_sort.
    + apply key_le_trans.
    + apply key_le_total.
  - apply NoDup_filter. rewrite merge_sort_Permutation. apply NoDup_elements.
  - intros k. by rewrite list_elem_of_filter, merge_sort_Permutation, elem_of_elements,
      elem_of_dom.
Qed.

Lemma glob_star k : glob "*" k = true.
Proof. induction k as [|a k IH]; [done|]. simpl in *. by rewrite IH. Qed.

Lemma filter_all {A} (P : A → Prop) `{∀ x, Decision (P x)} (l : list A) :
  (∀ x, P x) → filter P l = l.
Proof.
  intros HP. induction l as [|a l IH]; [done|].
  by rewrite filter_cons_True, IH.
Qed.

Lemma scan_star cur (d : db) :
  Redis.scan cur "*" 100 d =
  (if decide (length (pending cur d) ≤ 100)%nat then None
   else last (take 100 (pending cur d)),
   take 100 (pending cur d)).
Proof.
  unfold Redis.scan. fold (pending cur d). cbn zeta. f_equal.
  apply filter_all, glob_star.
Qed.

Lemma substring_all k : String.substring 0 (String.length k) k = k.
Proof. induction k as [|a k IH]; [done|]. simpl. by rewrite IH. Qed.

Lemma remove_first_empty k : remove_first "" k = k.
Proof.
  destruct k as [|a k]; [done|]. cbn [remove_first String.prefix].
  change (String.length "") with 0%nat.
  by rewrite Nat.sub_0_r, substring_all.
Qed.

Lemma swept_keys (page : list string) k :
  k ∈ filter (λ k, truthy (Some k) && truthy (Some (remove_first "" k)) = true) page ↔
  k ∈ page ∧ k ≠ "".
Proof.
  rewrite list_elem_of_filter, remove_first_empty. cbn [truthy].
  rewrite andb_diag, negb_true_iff, String.eqb_neq. tauto.
Qed.

Lemma fmap_key_empty r (l : list string) : prefix r = "" → Client.key r <$> l = l.
Proof.
  intros Hp. induction l as [|k l IH]; [done|].
  rewrite fmap_cons, IH. unfold Client.key. by rewrite Hp.
Qed.

Lemma del_removes ks (d : db) k : k ∈ ks → Redis.del ks d !! k = None.
Proof.
  induction ks as [|k' ks IH]; [by intros ?%not_elem_of_nil|].
  intros Hk. simpl. destruct (decide (k' = k)) as [->|Hne].
  - apply lookup_delete_eq.
  - rewrite lookup_delete_ne by done. apply IH.
    apply elem_of_cons in Hk as [->|Hk]; done.
Qed.

Lemma gone_stays_gone (d d' : db) k : d' ⊆ d → d !! k = None → d' !! k = None.
Proof.
  intros Hsub Hk. destruct (d' !! k) eqn:E; [|done].
  eapply lookup_weaken in E; [|exact Hsub]. congruence.
Qed.

(** One page: the keys of the page are deleted; what is left to walk
    after the page's last key is what was left before, less the page. *)
Lemma page_swept cur (d : db) ks :
  let rest := pending cur d in
  (∀ k, k ∈ ks ↔ k ∈ take 100 rest ∧ k ≠ "") →
  ((length rest ≤ 100)%nat →
   ∀ k, k ≠ "" → Redis.after cur k = true → Redis.del ks d !! k = None) ∧
  (∀ c, last (take 100 rest) = Some c →
        (∀ k, k ≠ "" → Redis.after cur k = true → Redis.after (Some c) k = false →
              Redis.del ks d !! k = None) ∧
        (∀ k, Redis.after (Some c) k = true → Redis.after cur k = true) ∧
        (length (pending (Some c) (Redis.del ks d)) ≤ length rest - 100)%nat).
Proof.
  intros rest Hks.
  destruct (pending_spec cur d) as (Hsorted & Hnd & Hin). fold rest in Hsorted, Hnd, Hin.
  assert (Hdel : ∀ k, k ≠ "" → k ∈ take 100 rest → Redis.del ks d !! k = None).
  { intros k Hk Hpage. apply del_removes, Hks. done. }
  assert (Habsent : ∀ k, d !! k = None → Redis.del ks d !! k = None).
  { intros k. apply gone_stays_gone, del_subseteq. }
  split.
  - intros Hlen k Hk Hafter.
    destruct (d !! k) eqn:E; [|by apply Habsent].
    apply Hdel; [done|]. rewrite take_ge by done. apply Hin. by rewrite E.
  - intros c Hc.
    pose proof (last_Some_elem_of _ _ Hc) as Hcpage.
    assert (Hcrest : c ∈ rest) by (rewrite <- (take_drop 100 rest); set_solver).
    apply Hin in Hcrest as [Hcafter _].
    rewrite <- (take_drop 100 rest) in Hsorted, Hnd.
    assert (Hbeyond : ∀ k, k ∈ drop 100 rest → String.ltb c k = true).
    { intros k Hk. apply ltb_iff. split.
      - by apply (StronglySorted_app_1_elem_of _ _ _ c k Hsorted).
      - intros <-. apply NoDup_app in Hnd as (_ & Hdis & _). by apply (Hdis c). }
    assert (Hwithin : ∀ k, k ∈ take 100 rest → String.ltb c k = false).
    { intros k Hk. apply leb_not_ltb.
      apply last_Some in Hc as [l' El]. rewrite El in Hk, Hsorted.
      apply elem_of_app in Hk as [Hk|Hk%list_elem_of_singleton].
      - apply StronglySorted_app_1_l in Hsorted.
        by apply (StronglySorted_app_1_elem_of _ _ _ k c Hsorted), list_elem_of_singleton.
      - subst k. unfold String.leb. by rewrite compare_same. }
    assert (Hcur : ∀ k, Redis.after (Some c) k = true → Redis.after cur k = true).
    { intros k Hk. destruct cur as [q|]; [|done]. simpl in *. by eapply ltb_trans. }
    split; [|split; [exact Hcur|]].
    + intros k Hk Hafter Hnot.
      destruct (d !! k) eqn:E; [|by apply Habsent].
      apply Hdel; [done|].
      assert (Hrest : k ∈ rest) by (apply Hin; by rewrite E).
      rewrite <- (take_drop 100 rest) in Hrest.
      apply elem_of_app in Hrest as [?|Hdrop]; [done|].
      apply Hbeyond in Hdrop. simpl in Hnot. congruence.
    + rewrite <- length_drop. apply submseteq_length, NoDup_submseteq.
      * apply pending_spec.
      * intros k Hk. apply pending_spec in Hk as [Hk1 Hk2].
        assert (Hrest : k ∈ rest).
        { apply Hin. split; [by apply Hcur|].
          destruct Hk2 as [v Hv]. exists v.
          eapply lookup_weaken; [exact Hv | apply del_subseteq]. }
        rewrite <- (take_drop 100 rest) in Hrest.
        apply elem_of_app in Hrest as [Hpage|?]; [|done].
        apply Hwithin in Hpage. simpl in Hk1. congruence.
Qed.

Lemma bind_Done {A B} (m : Async A) (k : A → Async B) s a s' :
  m s = Done a s' → bind m k s = k a s'.
Proof. unfold bind. by intros ->. Qed.

(** The loop of [cleanup] under the empty prefix comes to its end within
    one page per hundred keys, and it leaves no key with a name. *)
Lemma cleanup_pages_wipes fuel r cur cleaned s :
  prefix r = "" → (1 ≤ fuel)%nat →
  (length (pending cur (store s)) ≤ 100 * fuel)%nat →
  ∃ l s', ChannelManager.cleanup_pages fuel r "" cur cleaned s = Done (Some l) s' ∧
          store s' ⊆ store s ∧
          ∀ k, k ≠ "" → Redis.after cur k = true → store s' !! k = None.
Proof.
  induction fuel as [|fuel IH] in cur, cleaned, s |- *; intros Hp Hfuel Hlen; [lia|].
  cbn [ChannelManager.cleanup_pages].
  change ("" +:+ "*") with "*".
  unfold bind at 1, Client.scan at 1, ask at 1. rewrite scan_star. cbn [fst snd].
  set (rest := pending cur (store s)) in *.
  set (page := take 100 rest).
  set (keys := filter _ page).
  set (s1 := sent (SCAN cur "*" 100) s).
  assert (Hkeys : ∀ k, k ∈ keys ↔ k ∈ page ∧ k ≠ "") by (intros k; apply swept_keys).
  destruct (page_swept cur (store s) keys Hkeys) as [Hshort Hlong].
  fold rest in Hshort, Hlong. fold page in Hlong.
  assert (Hstep : ∃ cl s2,
    (if nonempty (Some page) && nonempty (Some keys)
     then wait forget (Client.del r keys); ret (cleaned ++ keys)%list
     else ret cleaned) s1 = Done cl s2 ∧
    store s2 = Redis.del keys (store s)).
  { destruct (nonempty (Some page) && nonempty (Some keys)) eqn:Ene.
    - unfold bind, forget, Client.del, tell, ret. fields.
      rewrite (fmap_key_empty r keys Hp). by eauto.
    - exists cleaned, s1. split; [done|].
      assert (keys = []) as ->; [|done].
      apply andb_false_iff in Ene as [Ene|Ene].
      + subst keys. by destruct page.
      + by destruct keys. }
  destruct Hstep as (cl & s2 & E & Hd). rewrite (bind_Done _ _ _ _ _ E).
  case_decide as Hcase.
  - exists cl, s2. split; [done|]. rewrite Hd. split; [apply del_subseteq|].
    by apply Hshort.
  - destruct (last page) as [c|] eqn:El.
    + destruct (Hlong c eq_refl) as (Hgone & Hcur & Hless).
      destruct (IH (Some c) cl s2 Hp) as (l & s' & E' & Hsub & Hwiped);
        [lia | rewrite Hd; lia |].
      exists l, s'. split; [done|]. split.
      * etrans; [exact Hsub|]. rewrite Hd. apply del_subseteq.
      * intros k Hk Hafter.
        destruct (Redis.after (Some c) k) eqn:Ec; [by apply Hwiped|].
        eapply gone_stays_gone; [exact Hsub|]. rewrite Hd. by apply Hgone.
    + apply last_None in El. exfalso.
      assert (length page = 0%nat) as Hl0 by by rewrite El.
      unfold page in Hl0. rewrite length_take in Hl0. lia.
Qed.

(** X15. With [cleanOnStartUp] and the empty key prefix the sweep of
    [start] matches every key of the database, not only the registry's:
    when the scan is given one page for every hundred keys, [start]
    completes and no key with a name is left in the store, whoever wrote
    it. *)
Theorem sweep_wipes fuel s :
  options (opts s) = Some {| keyPrefix := "" |} → cleanOnStartUp (opts s) = true →
  (size (store s) < 100 * fuel)%nat →
  result (ChannelService.start fuel) s = Some (Some tt) ∧
  ∀ k, k ≠ "" → store (after (ChannelService.start fuel) s) !! k = None.
Proof.
  intros Ho Hclean Hsize.
  unfold result, after, ChannelService.start, ChannelManager.start, bind, get.
  fields. rewrite Hclean. unfold ChannelManager.cleanup, bind, get. fields.
  rewrite Ho. cbn [keyPrefix].
  match goal with |- context [ChannelManager.cleanup_pages fuel ?r "" None [] ?s0] =>
    destruct (cleanup_pages_wipes fuel r None [] s0) as (l & s' & -> & _ & Hw)
  end.
  - done.
  - lia.
  - fields. unfold pending. etrans; [apply length_filter|].
    unfold keys_in_order. rewrite merge_sort_Permutation.
    change (length (elements (dom (store s)))) with (size (dom (store s))).
    rewrite size_dom. lia.
  - split; [done|]. intros k Hk. by apply Hw.
Qed.

Lemma sweep_wipes_witness :
  let s := ChannelService.constructor directory
             {| url := "redis://127.0.0.1:6379"; options := Some {| keyPrefix := "" |};
                cleanOnStartUp := true |}
             (<["session:42" := SetOf {["alice"]}]> (store lobby3)) in
  options (opts s) = Some {| keyPrefix := "" |} ∧ cleanOnStartUp (opts s) = true ∧
  (size (store s) < 100 * 1)%nat ∧
  store (after (ChannelService.start 1) s) !! "session:42" = None.
Proof.
  intros s.
  assert (H1 : options (opts s) = Some {| keyPrefix := "" |}) by reflexivity.
  assert (H2 : cleanOnStartUp (opts s) = true) by reflexivity.
  assert (H3 : (size (store s) < 100 * 1)%nat).
  { apply Nat.ltb_lt. vm_compute. reflexivity. }
  split; [exact H1|]. split; [exact H2|]. split; [exact H3|].
  apply (proj2 (sweep_wipes 1 s H1 H2 H3)). discriminate.
Defined.

(** * The component of [components/globalChannel.ts] *)

Import GlobalChannel.

Lemma app_ne_self (x y : string) a : x +:+ String a y ≠ x.
Proof.
  induction x as [|c x IH]; [done|]. rewrite app_String. intros [= E]. by apply IH.
Qed.

Lemma server_key_ne r name sid :
  Client.key r (Manager.server_key name sid) ≠ Client.key r name.
Proof.
  unfold Client.key, Manager.server_key. intros E. apply (inj (String.app _)) in E.
  change (":" +:+ sid) with (String ":"%char sid) in E. by apply app_ne_self in E.
Qed.

(** A command on a key of the other kind is refused, and the method
    rejects. *)
Lemma sadd_refused r k x s :
  set_at (Client.key r k) (store s) = None →
  Client.sadd r k x s = Thrown (sent (SADD (Client.key r k) x) s).
Proof. unfold Client.sadd, tell, Redis.sadd. by intros ->. Qed.

Lemma srem_refused r k x s :
  set_at (Client.key r k) (store s) = None →
  Client.srem r k x s = Thrown (sent (SREM (Client.key r k) x) s).
Proof. unfold Client.srem, tell, Redis.srem. by intros ->. Qed.

Lemma hset_refused r k f v s :
  hash_at (Client.key r k) (store s) = None →
  Client.hset r k f v s = Thrown (sent (HSET (Client.key r k) f v) s).
Proof. unfold Client.hset, tell, Redis.hset. by intros ->. Qed.

Lemma smembers_refused r k s :
  set_at (Client.key r k) (store s) = None →
  Client.smembers r k s = Thrown (sent (SMEMBERS (Client.key r k)) s).
Proof. unfold Client.smembers, ask, Redis.smembers. by intros ->. Qed.

(** A key that holds a member is a set, and stays one under writes to
    sets. *)
Lemma member_lookup (d : db) k m x :
  set_at k d = Some m → x ∈ m → d !! k = Some (SetOf m).
Proof.
  unfold set_at. destruct (d !! k) as [[h|m']|]; intros [= <-]; [done|].
  by intros ?%not_elem_of_empty.
Qed.

Lemma put_set_grows k' x' m' (d : db) k x :
  (∃ m, set_at k d = Some m ∧ x ∈ m) → set_at k' d = Some m' →
  ∃ m, set_at k (put_set k' ({[x']} ∪ m') d) = Some m ∧ x ∈ m.
Proof.
  intros (m & Hm & Hx) Hm'. destruct (decide (k' = k)) as [->|Hne].
  - rewrite set_at_put_set. eexists. split; [done|].
    assert (m' = m) as -> by congruence. by apply elem_of_union_r.
  - rewrite set_at_put_set_ne by done. by eauto.
Qed.

Lemma hash_not_member (d : db) k h m x :
  hash_at k d = Some h → set_at k d = Some m → x ∉ m.
Proof.
  unfold hash_at, set_at. destruct (d !! k) as [[h'|m']|]; try done.
  intros _ [= <-]. apply not_elem_of_empty.
Qed.

Lemma bind_get {A B} (f : System → A) (k : A → Async B) s :
  bind (get f) k s = k (f s) s.
Proof. reflexivity. Qed.

Lemma bind_Thrown {A B} (m : Async A) (k : A → Async B) s s' :
  m s = Thrown s' → bind m k s = Thrown s'.
Proof. unfold bind. by intros ->. Qed.

(** ** [add] that completes *)

Lemma older_add_runs r s name uid sid :
  state s = ST_STARTED → redis s = Some r →
  result (Service.add name uid sid) s = Some tt →
  let k1 := Client.key r (Manager.user_key uid) in
  let k2 := Client.key r (Manager.server_key name sid) in
  let k3 := Client.key r name in
  ∃ m1 m2 h,
    let d1 := put_set k1 ({[JSON_stringify_entry name sid]} ∪ m1) (store s) in
    let d2 := put_set k2 ({[uid]} ∪ m2) d1 in
    set_at k1 (store s) = Some m1 ∧ set_at k2 d1 = Some m2 ∧ hash_at k3 d2 = Some h ∧
    Service.add name uid sid s =
    Done tt (set_store (put_hash k3 (<[uid := sid]> h) d2)
               (set_wire (wire s ++ [SADD k1 (JSON_stringify_entry name sid);
                                     SADD k2 uid; HSET k3 uid sid]) s)).
Proof.
  intros Hst Hr Hres k1 k2 k3. unfold result in Hres. unfold Service.add in *.
  rewrite started_runs in Hres |- * by done. unfold Manager.add in *.
  rewrite bind_get, Hr in Hres |- *.
  destruct (set_at k1 (store s)) as [m1|] eqn:E1.
  2:{ by rewrite (bind_Thrown _ _ _ _ (sadd_refused r _ _ s E1)) in Hres. }
  rewrite (bind_Done _ _ _ _ _ (sadd_runs r _ _ s m1 E1)) in Hres |- *.
  match type of Hres with context [bind _ _ ?s1] => set (s1' := s1) in * end.
  destruct (set_at k2 (store s1')) as [m2|] eqn:E2.
  2:{ by rewrite (bind_Thrown _ _ _ _ (sadd_refused r _ _ s1' E2)) in Hres. }
  rewrite (bind_Done _ _ _ _ _ (sadd_runs r _ _ s1' m2 E2)) in Hres |- *.
  match type of Hres with context [Client.hset r _ _ _ ?s2] => set (s2' := s2) in * end.
  destruct (hash_at k3 (store s2')) as [h|] eqn:E3.
  2:{ by rewrite (hset_refused r _ _ _ s2' E3) in Hres. }
  rewrite (hset_runs r _ _ _ s2' h E3).
  exists m1, m2, h. subst s1' s2'. fields. fold k1 k2 k3 in E2, E3 |- *.
  split; [done|]. split; [done|]. split; [done|].
  unfold sent. fields. by rewrite <- !app_assoc.
Qed.

(** What the three keys hold after an [add] that completed, and that no
    set lost a member. *)
Lemma older_add_views r s name uid sid :
  state s = ST_STARTED → redis s = Some r →
  result (Service.add name uid sid) s = Some tt →
  let s1 := after (Service.add name uid sid) s in
  state s1 = ST_STARTED ∧ redis s1 = Some r ∧
  (∃ h, hash_at (Client.key r name) (store s1) = Some h ∧ h !! uid = Some sid) ∧
  (∃ m, set_at (Client.key r (Manager.server_key name sid)) (store s1) = Some m ∧ uid ∈ m) ∧
  (∃ m, set_at (Client.key r (Manager.user_key uid)) (store s1) = Some m ∧
        JSON_stringify_entry name sid ∈ m) ∧
  (∀ k x, (∃ m, set_at k (store s) = Some m ∧ x ∈ m) →
          ∃ m, set_at k (store s1) = Some m ∧ x ∈ m).
Proof.
  intros Hst Hr Hres.
  destruct (older_add_runs r s name uid sid Hst Hr Hres) as (m1 & m2 & h & E1 & E2 & E3 & E).
  cbn zeta in *. unfold after. rewrite E. fields.
  set (k1 := Client.key r (Manager.user_key uid)) in *.
  set (k2 := Client.key r (Manager.server_key name sid)) in *.
  set (k3 := Client.key r name) in *.
  set (d1 := put_set k1 _ (store s)) in *.
  set (d2 := put_set k2 _ d1) in *.
  assert (Hgrow : ∀ k x, (∃ m, set_at k (store s) = Some m ∧ x ∈ m) →
                         ∃ m, set_at k d2 = Some m ∧ x ∈ m).
  { intros k x H. apply put_set_grows; [|done]. by apply put_set_grows. }
  assert (Hkeep : ∀ k x, (∃ m, set_at k d2 = Some m ∧ x ∈ m) →
                         ∃ m, set_at k (put_hash k3 (<[uid:=sid]> h) d2) = Some m ∧ x ∈ m).
  { intros k x (m & Hm & Hx). exists m. split; [|done].
    rewrite set_at_put_hash_ne; [done|]. intros <-.
    by apply (hash_not_member d2 k3 h m x). }
  split; [done|]. split; [done|]. split; [|split; [|split]].
  - exists (<[uid:=sid]> h). by rewrite hash_at_put_hash, lookup_insert_eq.
  - apply Hkeep. exists ({[uid]} ∪ m2). split; [apply set_at_put_set | apply in_added].
  - apply Hkeep. apply put_set_grows; [|done].
    eexists. split; [apply set_at_put_set | apply in_added].
  - intros k x H. by apply Hkeep, Hgrow.
Qed.

(** ** The questions of the older service *)

Lemma older_listed r s name sid u :
  state s = ST_STARTED → redis s = Some r →
  listed u (result (Service.getMembersBySid name sid) s) ↔
  ∃ m, set_at (Client.key r (Manager.server_key name sid)) (store s) = Some m ∧ u ∈ m.
Proof.
  intros Hst Hr. unfold listed, result, Service.getMembersBySid.
  rewrite started_runs by done. unfold Manager.getMembersBySid, bind at 1, get.
  rewrite Hr. unfold bind.
  destruct (set_at (Client.key r (Manager.server_key name sid)) (store s)) as [m|] eqn:E.
  - rewrite (smembers_runs r _ s m E). unfold ret. split.
    + intros (l & [= <-] & Hl). exists m. by rewrite <- elem_of_elements.
    + intros (m' & [= <-] & Hm). eexists. split; [done|]. by apply elem_of_elements.
  - rewrite (smembers_refused r _ s E). split.
    + by intros (l & ? & _).
    + by intros (m & ? & _).
Qed.

Lemma older_ismember_runs r s name uid h :
  state s = ST_STARTED → redis s = Some r →
  hash_at (Client.key r name) (store s) = Some h →
  Service.isMemberInChannel name uid s =
  Done (if h !! uid is Some _ then ANumber 1 else ABool false)
       (sent (HEXISTS (Client.key r name) uid) s).
Proof.
  intros Hst Hr Hh. unfold Service.isMemberInChannel.
  rewrite started_runs by done. unfold Manager.ismember, bind, get.
  rewrite Hr, (hexists_runs r _ _ s h Hh). unfold ret. by destruct (h !! uid).
Qed.

Lemma older_members_runs r s name h :
  state s = ST_STARTED → redis s = Some r →
  hash_at (Client.key r name) (store s) = Some h →
  Service.getMembersByChannel name s =
  Done (elements (dom h)) (sent (HKEYS (Client.key r name)) s).
Proof.
  intros Hst Hr Hh. unfold Service.getMembersByChannel.
  rewrite started_runs by done. unfold Manager.members, bind, get.
  by rewrite Hr, (hkeys_runs r _ s h Hh).
Qed.

(** X16. The older [add(name, uid, sid)], in a started service: when the
    call completes (no key it writes holds a value of the other kind),
    [isMemberInChannel(name, uid)] answers 1, and both
    [getMembersBySid(name, sid)] and [getMembersByChannel(name)] list the
    user. *)
Theorem older_add_then_member s r name uid sid :
  state s = ST_STARTED → redis s = Some r →
  result (Service.add name uid sid) s = Some tt →
  let s1 := after (Service.add name uid sid) s in
  result (Service.isMemberInChannel name uid) s1 = Some (ANumber 1) ∧
  listed uid (result (Service.getMembersBySid name sid) s1) ∧
  ∃ l, result (Service.getMembersByChannel name) s1 = Some l ∧ uid ∈ l.
Proof.
  intros Hst Hr Hres.
  destruct (older_add_views r s name uid sid Hst Hr Hres)
    as (Hst1 & Hr1 & (h & Hh & Hu) & Hm & _ & _).
  cbn zeta. set (s1 := after (Service.add name uid sid) s) in *.
  split; [|split].
  - unfold result. by rewrite (older_ismember_runs r s1 name uid h Hst1 Hr1 Hh), Hu.
  - by apply (older_listed r s1 name sid uid Hst1 Hr1).
  - unfold result. rewrite (older_members_runs r s1 name h Hst1 Hr1 Hh).
    eexists. split; [done|]. apply elem_of_elements, elem_of_dom. by rewrite Hu.
Qed.

Lemma older_add_then_member_witness :
  state lobby0 = ST_STARTED ∧ redis lobby0 = Some {| prefix := "" |} ∧
  result (Service.add "lobby" "u1" "srvA") lobby0 = Some tt ∧
  result (Service.isMemberInChannel "lobby" "u1")
         (after (Service.add "lobby" "u1" "srvA") lobby0) = Some (ANumber 1).
Proof.
  assert (H1 : state lobby0 = ST_STARTED) by (vm_compute; reflexivity).
  assert (H2 : redis lobby0 = Some {| prefix := "" |}) by (vm_compute; reflexivity).
  assert (H3 : result (Service.add "lobby" "u1" "srvA") lobby0 = Some tt)
    by (vm_compute; reflexivity).
  repeat (split; [assumption|]).
  exact (proj1 (older_add_then_member lobby0 _ "lobby" "u1" "srvA" H1 H2 H3)).
Defined.

(** X17. The older [add] retracts nothing: when it completes in a started
    service, every user that [getMembersBySid] listed for any channel and
    server is still listed there, the user that was added on another
    server before included. *)
Theorem older_add_retracts_nothing s r name uid sid name' sid' u' :
  state s = ST_STARTED → redis s = Some r →
  result (Service.add name uid sid) s = Some tt →
  listed u' (result (Service.getMembersBySid name' sid') s) →
  listed u' (result (Service.getMembersBySid name' sid')
               (after (Service.add name uid sid) s)).
Proof.
  intros Hst Hr Hres Hin.
  destruct (older_add_views r s name uid sid Hst Hr Hres)
    as (Hst1 & Hr1 & _ & _ & _ & Hgrow).
  apply (older_listed r _ name' sid' u' Hst1 Hr1), Hgrow.
  by apply (older_listed r s name' sid' u' Hst Hr).
Qed.

Lemma older_add_retracts_nothing_witness :
  let s := after (Service.add "lobby" "u1" "srvA") lobby0 in
  state s = ST_STARTED ∧ redis s = Some {| prefix := "" |} ∧
  result (Service.add "lobby" "u1" "srvB") s = Some tt ∧
  listed "u1" (result (Service.getMembersBySid "lobby" "srvA") s) ∧
  listed "u1" (result (Service.getMembersBySid "lobby" "srvA")
                 (after (Service.add "lobby" "u1" "srvB") s)).
Proof.
  intros s.
  assert (H1 : state s = ST_STARTED) by (vm_compute; reflexivity).
  assert (H2 : redis s = Some {| prefix := "" |}) by (vm_compute; reflexivity).
  assert (H3 : result (Service.add "lobby" "u1" "srvB") s = Some tt)
    by (vm_compute; reflexivity).
  assert (H4 : listed "u1" (result (Service.getMembersBySid "lobby" "srvA") s)).
  { exists ["u1"]. split; [vm_compute; reflexivity | by apply list_elem_of_singleton]. }
  repeat (split; [assumption|]).
  exact (older_add_retracts_nothing s _ "lobby" "u1" "srvB" "lobby" "srvA" "u1" H1 H2 H3 H4).
Defined.

Lemma hdel_refused r k f s :
  hash_at (Client.key r k) (store s) = None →
  Client.hdel r k f s = Thrown (sent (HDEL (Client.key r k) f) s).
Proof. unfold Client.hdel, tell, Redis.hdel. by intros ->. Qed.

Lemma set_key_not_hash (d : db) k k' h m x :
  hash_at k d = Some h → set_at k' d = Some m → x ∈ m → k ≠ k'.
Proof. intros Hh Hm Hx ->. by apply (hash_not_member d k' h m x). Qed.

Lemma hash_key_not_set (d : db) k k' h f v m :
  hash_at k d = Some h → h !! f = Some v → set_at k' d = Some m → k ≠ k'.
Proof.
  unfold hash_at, set_at. intros Hh Hf Hm ->.
  destruct (d !! k') as [[h'|m']|]; try done. by simplify_eq.
Qed.

(** X18. The older [leave(name, uid, sid)] with the server named, after an
    [add(name, uid, sid)] that completed, in a started service: the leave
    completes too, it sends SREM, SREM and HDEL on the three keys of the
    record, and after it [isMemberInChannel(name, uid)] answers [false]
    and [getMembersBySid(name, sid)] no longer lists the user. What
    [JSON.parse] would do plays no part. *)
Theorem older_add_leave s r J name uid sid :
  state s = ST_STARTED → redis s = Some r → sid ≠ "" →
  result (Service.add name uid sid) s = Some tt →
  let s1 := after (Service.add name uid sid) s in
  let s2 := after (Service.leave J name uid (Some sid)) s1 in
  result (Service.leave J name uid (Some sid)) s1 = Some tt ∧
  wire s2 = (wire s1 ++
             [SREM (Client.key r (Manager.user_key uid)) (JSON_stringify_entry name sid);
              SREM (Client.key r (Manager.server_key name sid)) uid;
              HDEL (Client.key r name) uid])%list ∧
  result (Service.isMemberInChannel name uid) s2 = Some (ABool false) ∧
  ¬ listed uid (result (Service.getMembersBySid name sid) s2).
Proof.
  intros Hst Hr Hsid Hres.
  destruct (older_add_views r s name uid sid Hst Hr Hres)
    as (Hst1 & Hr1 & (h & Hh & Hu) & (m2 & Hm2 & Hu2) & (m1 & Hm1 & He) & _).
  cbn zeta. set (s1 := after (Service.add name uid sid) s) in *.
  set (k1 := Client.key r (Manager.user_key uid)) in *.
  set (k2 := Client.key r (Manager.server_key name sid)) in *.
  set (k3 := Client.key r name) in *.
  assert (H31 : k3 ≠ k1) by (by eapply set_key_not_hash).
  assert (H32 : k3 ≠ k2) by (by eapply set_key_not_hash).
  set (d4 := put_set k1 (m1 ∖ {[JSON_stringify_entry name sid]}) (store s1)).
  assert (∃ m, set_at k2 d4 = Some m) as [m Hm].
  { subst d4. destruct (decide (k1 = k2)) as [E|E].
    - rewrite <- E, set_at_put_set. by eauto.
    - rewrite set_at_put_set_ne by done. by eauto. }
  set (d5 := put_set k2 (m ∖ {[uid]}) d4).
  assert (Hh5 : hash_at k3 d5 = Some h).
  { subst d5 d4. by rewrite !hash_at_put_set_ne by done. }
  assert (E : Service.leave J name uid (Some sid) s1 =
              Done tt (set_store (put_hash k3 (delete uid h) d5)
                         (set_wire (wire s1 ++ [SREM k1 (JSON_stringify_entry name sid);
                                                SREM k2 uid; HDEL k3 uid]) s1))).
  { unfold Service.leave. rewrite started_runs by done. unfold Manager.leave.
    rewrite bind_get, Hr1, (truthy_Some sid Hsid).
    cbn [negb default from_option Datatypes.id].
    rewrite (bind_Done _ _ _ _ _ (srem_runs r _ _ s1 m1 Hm1)).
    match goal with |- bind _ _ ?s' = _ =>
      rewrite (bind_Done _ _ _ _ _ (srem_runs r _ _ s' m Hm))
    end.
    match goal with |- Client.hdel _ _ _ ?s' = _ =>
      rewrite (hdel_runs r _ _ s' h Hh5)
    end.
    unfold sent. fields. by rewrite <- !app_assoc. }
  match type of E with _ = Done _ ?s' => set (s2 := s') in * end.
  assert (Ea : after (Service.leave J name uid (Some sid)) s1 = s2)
    by (unfold after; by rewrite E).
  rewrite Ea. unfold result at 1. rewrite E.
  assert (Hst2 : state s2 = ST_STARTED) by done.
  assert (Hr2 : redis s2 = Some r) by done.
  split; [done|]. split; [done|]. split.
  - unfold result.
    rewrite (older_ismember_runs r s2 name uid (delete uid h) Hst2 Hr2).
    + by rewrite lookup_delete_eq.
    + subst s2. fields. apply hash_at_put_hash.
  - rewrite (older_listed r s2 name sid uid Hst2 Hr2). intros (m' & Hm' & Hin).
    subst s2. fields. fold k2 in Hm'.
    rewrite set_at_put_hash_ne in Hm' by done. subst d5.
    rewrite set_at_put_set in Hm'. simplify_eq. by apply not_in_removed in Hin.
Qed.

Lemma older_add_leave_witness :
  state lobby0 = ST_STARTED ∧ redis lobby0 = Some {| prefix := "" |} ∧ "srvA" ≠ "" ∧
  result (Service.add "lobby" "u1" "srvA") lobby0 = Some tt ∧
  ∀ J, result (Service.isMemberInChannel "lobby" "u1")
         (after (Service.leave J "lobby" "u1" (Some "srvA"))
            (after (Service.add "lobby" "u1" "srvA") lobby0)) = Some (ABool false).
Proof.
  assert (H1 : state lobby0 = ST_STARTED) by (vm_compute; reflexivity).
  assert (H2 : redis lobby0 = Some {| prefix := "" |}) by (vm_compute; reflexivity).
  assert (H3 : "srvA" ≠ "") by discriminate.
  assert (H4 : result (Service.add "lobby" "u1" "srvA") lobby0 = Some tt)
    by (vm_compute; reflexivity).
  repeat (split; [assumption|]).
  exact (λ J, proj1 (proj2 (proj2
    (older_add_leave lobby0 _ J "lobby" "u1" "srvA" H1 H2 H3 H4)))).
Defined.

(** ** [destroyChannel] *)

Lemma for_each_del r (ks : list string) s :
  ∃ s', for_each ks (λ k, Client.del r [k]) s = Done tt s' ∧
        store s' = Redis.del (Client.key r <$> reverse ks) (store s) ∧
        wire s' = (wire s ++ map (λ k, DEL [Client.key r k]) ks)%list ∧
        state s' = state s ∧ redis s' = redis s.
Proof.
  induction ks as [|k ks IH] in s |- *.
  - exists s. simpl. by rewrite app_nil_r.
  - cbn [for_each]. unfold bind, Client.del at 1, tell.
    match goal with |- context [for_each ks _ ?s1] =>
      destruct (IH s1) as (s' & -> & Hd & Hw & Hst & Hr)
    end.
    exists s'. fields. split; [done|]. rewrite Hd, Hw, Hst, Hr. repeat split.
    + rewrite reverse_cons, fmap_app. unfold Redis.del. by rewrite foldr_app.
    + unfold sent. fields. by rewrite <- app_assoc.
Qed.

(** X19. The older [destroyChannel(name)] in a started service completes
    and deletes, for every frontend server, the key [name + sid] (no colon
    between the two), and no other key. The records of the channel are in
    the hash [name] and the sets [name:sid]: as long as no frontend id is
    empty or is a colon followed by the server's id, [destroyChannel]
    leaves them where they are, and [isMemberInChannel],
    [getMembersByChannel] and [getMembersBySid] answer after it what they
    answered before. *)
Theorem older_destroy_spares s r e name :
  state s = ST_STARTED → redis s = Some r →
  let s' := after (Service.destroyChannel e name) s in
  result (Service.destroyChannel e name) s = Some tt ∧
  (∀ sv, sv ∈ getServers e → sv.2 = true →
         store s' !! Client.key r (name +:+ sv.1) = None) ∧
  (∀ k, (∀ sv, sv ∈ getServers e → sv.2 = true → k ≠ Client.key r (name +:+ sv.1)) →
        store s' !! k = store s !! k) ∧
  ((∀ sv, sv ∈ getServers e → sv.2 = true → sv.1 ≠ "") →
   (∀ uid, result (Service.isMemberInChannel name uid) s' =
           result (Service.isMemberInChannel name uid) s) ∧
   result (Service.getMembersByChannel name) s' =
   result (Service.getMembersByChannel name) s ∧
   ∀ sid, (∀ sv, sv ∈ getServers e → sv.2 = true → sv.1 ≠ ":" +:+ sid) →
          result (Service.getMembersBySid name sid) s' =
          result (Service.getMembersBySid name sid) s).
Proof.
  intros Hst Hr. cbn zeta.
  set (ks := map (λ sv : string * bool, name +:+ sv.1)
                 (filter (λ sv : string * bool, sv.2 = true) (getServers e))).
  assert (E : ∃ s', Service.destroyChannel e name s = Done tt s' ∧
              store s' = Redis.del (Client.key r <$> reverse ks) (store s) ∧
              state s' = ST_STARTED ∧ redis s' = Some r).
  { unfold Service.destroyChannel. rewrite started_runs by done.
    unfold Manager.destroyChannel. rewrite bind_get, Hr. fold ks.
    destruct ks as [|k ks'] eqn:Eks.
    - cbn [nonempty when]. by exists s.
    - cbn [nonempty when].
      destruct (for_each_del r (k :: ks') s) as (s' & E' & Hd & _ & Hs & Hr').
      exists s'. rewrite E'. repeat split; congruence. }
  destruct E as (s' & E & Hd & Hst' & Hr').
  assert (Hks : ∀ k, k ∈ (Client.key r <$> reverse ks) ↔
                     ∃ sv, sv ∈ getServers e ∧ sv.2 = true ∧ k = Client.key r (name +:+ sv.1)).
  { intros k. rewrite list_elem_of_fmap. split.
    - intros (k' & -> & Hk'). rewrite elem_of_reverse in Hk'. subst ks.
      apply (list_elem_of_fmap (λ sv : string * bool, name +:+ sv.1)) in Hk'
        as (sv & -> & Hsv).
      apply list_elem_of_filter in Hsv as [? ?]. by exists sv.
    - intros (sv & Hsv & Hf & ->). eexists. split; [done|].
      rewrite elem_of_reverse. subst ks.
      apply (list_elem_of_fmap (λ sv : string * bool, name +:+ sv.1)). exists sv.
      split; [done|]. by apply list_elem_of_filter. }
  unfold after, result. rewrite E.
  assert (Hframe : ∀ k,
    (∀ sv, sv ∈ getServers e → sv.2 = true → k ≠ Client.key r (name +:+ sv.1)) →
    store s' !! k = store s !! k).
  { intros k Hk. rewrite Hd. apply del_spares. rewrite Hks.
    intros (sv & Hsv & Hf & ->). by apply (Hk sv). }
  split; [done|]. split; [|split; [exact Hframe|]].
  - intros sv Hsv Hf. rewrite Hd. apply del_removes, Hks. by exists sv.
  - intros Hne.
    assert (Hname : store s' !! Client.key r name = store s !! Client.key r name).
    { apply Hframe. intros sv Hsv Hf. unfold Client.key. intros Ek.
      apply (inj (String.app _)) in Ek. apply (Hne sv Hsv Hf).
      destruct (sv.1) as [|a x]; [done|]. symmetry in Ek. by apply app_ne_self in Ek. }
    split; [|split].
    + intros uid. unfold Service.isMemberInChannel.
      rewrite !started_runs by done. unfold Manager.ismember.
      unfold bind, get. cbn beta iota. rewrite Hr, Hr'.
      unfold Client.hexists, ask, Redis.hexists, hash_at. rewrite Hname.
      by destruct (store s !! Client.key r name) as [[?|?]|].
    + unfold Service.getMembersByChannel.
      rewrite !started_runs by done. unfold Manager.members.
      unfold bind, get. cbn beta iota. rewrite Hr, Hr'.
      unfold Client.hkeys, ask, Redis.hkeys, hash_at. rewrite Hname.
      by destruct (store s !! Client.key r name) as [[?|?]|].
    + intros sid Hsid.
      assert (Hkey : store s' !! Client.key r (Manager.server_key name sid) =
                     store s !! Client.key r (Manager.server_key name sid)).
      { apply Hframe. intros sv Hsv Hf. unfold Client.key, Manager.server_key. intros Ek.
        do 2 apply (inj (String.app _)) in Ek. by apply (Hsid sv Hsv Hf). }
      unfold Service.getMembersBySid.
      rewrite !started_runs by done. unfold Manager.getMembersBySid.
      unfold bind, get. cbn beta iota. rewrite Hr, Hr'.
      unfold Client.smembers, ask, Redis.smembers, set_at. rewrite Hkey.
      by destruct (store s !! Client.key r (Manager.server_key name sid)) as [[?|?]|].
Qed.

Lemma older_destroy_spares_witness :
  let s := after (Service.add "lobby" "u1" "srvA") lobby0 in
  let e := {| getServers := [("srvA", true); ("srvB", true); ("chat-1", false)];
              rpcReply := λ _ _, Some None |} in
  state s = ST_STARTED ∧ redis s = Some {| prefix := "" |} ∧
  (∀ sv, sv ∈ getServers e → sv.2 = true → sv.1 ≠ "") ∧
  result (Service.getMembersByChannel "lobby") (after (Service.destroyChannel e "lobby") s) =
  result (Service.getMembersByChannel "lobby") s.
Proof.
  intros s e.
  assert (H1 : state s = ST_STARTED) by (vm_compute; reflexivity).
  assert (H2 : redis s = Some {| prefix := "" |}) by (vm_compute; reflexivity).
  assert (H3 : ∀ sv, sv ∈ getServers e → sv.2 = true → sv.1 ≠ "").
  { intros sv Hsv _. simpl in Hsv.
    repeat (apply elem_of_cons in Hsv as [->|Hsv]; [discriminate|]).
    by apply not_elem_of_nil in Hsv. }
  repeat (split; [assumption|]).
  destruct (older_destroy_spares s _ e "lobby" H1 H2) as (_ & _ & _ & H).
  exact (proj1 (proj2 (H H3))).
Defined.

(** ** The gate of the older service *)

(** X20. While the older service is not started, [add], [leave] and
    [destroyChannel] return [undefined], [getMembersBySid],
    [getMembersByChannel] and [getChannelsByMember] return the empty list,
    [isMemberInChannel] returns [false] and [getMembersByChannelName]
    returns [undefined], each leaving the whole system as it was. Its
    [pushMessage] is the exception: the branch reads an identifier [name]
    that the method does not bind, so the call rejects unless the runtime
    has a global of that name. *)
Theorem older_not_started s J e gname name uid sid osid stype route msg o :
  state s ≠ ST_STARTED →
  Service.add name uid sid s = Done tt s ∧
  Service.leave J name uid osid s = Done tt s ∧
  Service.destroyChannel e name s = Done tt s ∧
  Service.getMembersBySid name sid s = Done (Some []) s ∧
  Service.getMembersByChannel name s = Done [] s ∧
  Service.isMemberInChannel name uid s = Done (ABool false) s ∧
  Service.getMembersByChannelName stype name s = Done None s ∧
  Service.getChannelsByMember J uid s = Done [] s ∧
  Service.pushMessage gname e stype route msg name o s =
    match gname with None => Thrown s | Some _ => Done None s end.
Proof.
  intros H. repeat split; try by apply started_gate.
  unfold Service.pushMessage. rewrite bind_get.
  rewrite bool_decide_eq_false_2 by done. by destruct gname.
Qed.

Lemma older_not_started_witness :
  let s := ChannelService.constructor directory plain ∅ in
  state s ≠ ST_STARTED ∧
  Service.getMembersBySid "lobby" "srvA" s = Done (Some []) s ∧
  ∀ e, Service.pushMessage None e "connector" "chat" AUndefined "lobby" AUndefined s =
       Thrown s.
Proof.
  intros s.
  assert (H : state s ≠ ST_STARTED) by discriminate.
  split; [exact H|].
  split.
  - exact (proj1 (proj2 (proj2 (proj2
      (older_not_started s {| json := unit; JSON_parse := λ _, None;
                              JSON_stringify := λ _, ""; member_name := λ _, None;
                              member_sid := λ _, "" |}
         {| getServers := []; rpcReply := λ _ _, None |} None
         "lobby" "" "srvA" None "" "" AUndefined AUndefined H))))).
  - intros e.
    exact (proj2 (proj2 (proj2 (proj2 (proj2 (proj2 (proj2 (proj2
      (older_not_started s {| json := unit; JSON_parse := λ _, None;
                              JSON_stringify := λ _, ""; member_name := λ _, None;
                              member_sid := λ _, "" |}
         e None "lobby" "" "" None "connector" "chat" AUndefined AUndefined H))))))))).
Defined.

(** ** Reading the servers one after the other *)

Lemma older_getMembersBySid_runs name sid s :
  Service.getMembersBySid name sid s =
  if bool_decide (state s = ST_STARTED) then
    match redis s with
    | None => Done None s
    | Some r =>
        match set_at (Client.key r (Manager.server_key name sid)) (store s) with
        | Some m => Done (Some (elements m))
                      (sent (SMEMBERS (Client.key r (Manager.server_key name sid))) s)
        | None => Thrown (sent (SMEMBERS (Client.key r (Manager.server_key name sid))) s)
        end
    end
  else Done (Some []) s.
Proof.
  unfold Service.getMembersBySid, ChannelService.started. rewrite bind_get.
  case_bool_decide; [|done].
  unfold Manager.getMembersBySid. rewrite bind_get.
  destruct (redis s) as [r|]; [|done].
  unfold bind, Client.smembers, ask, Redis.smembers.
  by destruct (set_at _ (store s)).
Qed.

(** A read leaves the service and the store as they were, and its answer
    depends on nothing else. *)
Lemma older_read_same name sid s s0 :
  same_store s s0 →
  result (Service.getMembersBySid name sid) s ≠ None →
  ∃ s1, Service.getMembersBySid name sid s0 =
        Done (default None (result (Service.getMembersBySid name sid) s)) s1 ∧
        older_members name sid s =
          default [] (default None (result (Service.getMembersBySid name sid) s)) ∧
        same_store s s1 ∧ invoked s1 = invoked s0.
Proof.
  intros (Hst & Hr & Ha & Hd). unfold older_members, result, same_store.
  rewrite !older_getMembersBySid_runs, Hst, Hr, Hd.
  case_bool_decide.
  - destruct (redis s) as [r|].
    + destruct (set_at _ (store s)) as [m|]; [|intros H0; exfalso; by apply H0]. intros _.
      eexists. split; [reflexivity|]. split; [reflexivity|]. by repeat split.
    + intros _. exists s0. split; [reflexivity|]. split; [reflexivity|]. by repeat split.
  - intros _. exists s0. split; [reflexivity|]. split; [reflexivity|]. by repeat split.
Qed.

Lemma older_collect_runs s name servers :
  (∀ sv, sv ∈ servers → result (Service.getMembersBySid name (id sv)) s ≠ None) →
  ∀ s0 acc, same_store s s0 →
  ∃ s1, Service.collect name servers acc s0 =
        Done (acc ++ concat (map (λ sv, older_members name (id sv) s) servers))%list s1 ∧
        same_store s s1.
Proof.
  induction servers as [|sv servers IH]; intros Hreads s0 acc Hsame.
  - exists s0. simpl. by rewrite app_nil_r.
  - cbn [Service.collect map concat].
    destruct (older_read_same name (id sv) s s0 Hsame) as (s1 & E & Hm & Hsame1 & _).
    { apply Hreads. by left. }
    rewrite (bind_Done _ _ _ _ _ E), Hm.
    destruct (IH (λ sv' H, Hreads sv' (list_elem_of_further _ _ _ H)) s1
                (acc ++ default [] (default None (result (Service.getMembersBySid name (id sv)) s)))%list
                Hsame1) as (s2 & E2 & Hsame2).
    destruct (IH (λ sv' H, Hreads sv' (list_elem_of_further _ _ _ H)) s1 acc Hsame1)
      as (s3 & E3 & Hsame3).
    destruct (default None (result (Service.getMembersBySid name (id sv)) s)) as [[|x l]|];
      cbn [nonempty default from_option Datatypes.id] in *.
    + exists s3. by rewrite E3.
    + exists s2. rewrite E2. by rewrite <- app_assoc.
    + exists s3. by rewrite E3.
Qed.

(** X21. [getMembersByChannelName(stype, name)] of the older service, in
    a started service where every server's set can be read: the answer is
    the member lists of the servers of that type, one after the other in
    the order of the directory. *)
Theorem older_members_by_type s stype name :
  state s = ST_STARTED →
  (∀ sv, sv ∈ getServersByType (app s) stype →
         result (Service.getMembersBySid name (id sv)) s ≠ None) →
  result (Service.getMembersByChannelName stype name) s =
  Some (Some (concat (map (λ sv, older_members name (id sv) s)
                          (getServersByType (app s) stype)))).
Proof.
  intros Hst Hreads. unfold result, Service.getMembersByChannelName.
  rewrite started_runs by done. rewrite bind_get.
  destruct (getServersByType (app s) stype) as [|sv servers] eqn:Es; [done|].
  destruct (older_collect_runs s name (sv :: servers) Hreads s []) as (s1 & E & _).
  { by repeat split. }
  by rewrite (bind_Done _ _ _ _ _ E).
Qed.

Lemma older_members_by_type_witness :
  let s := after (Service.add "lobby" "u3" "srvB")
             (after (Service.add "lobby" "u1" "srvA") lobby0) in
  state s = ST_STARTED ∧
  (∀ sv, sv ∈ getServersByType (app s) "connector" →
         result (Service.getMembersBySid "lobby" (id sv)) s ≠ None) ∧
  result (Service.getMembersByChannelName "connector" "lobby") s = Some (Some ["u1"; "u3"]).
Proof.
  intros s.
  assert (H1 : state s = ST_STARTED) by (vm_compute; reflexivity).
  assert (H2 : ∀ sv, sv ∈ getServersByType (app s) "connector" →
                     result (Service.getMembersBySid "lobby" (id sv)) s ≠ None).
  { intros sv Hsv. change (getServersByType (app s) "connector")
      with [ {| id := "srvA" |}; {| id := "srvB" |} ] in Hsv.
    repeat (apply elem_of_cons in Hsv as [->|Hsv]; [vm_compute; discriminate|]).
    by apply not_elem_of_nil in Hsv. }
  split; [exact H1|]. split; [exact H2|].
  rewrite (older_members_by_type s "connector" "lobby" H1 H2).
  vm_compute. reflexivity.
Defined.

(** ** [pushMessage] of the older service *)

Lemma older_targeted_cons name sv servers s :
  older_targeted name (sv :: servers) s =
  if decide (older_members name (id sv) s ≠ []) then sv :: older_targeted name servers s
  else older_targeted name servers s.
Proof. unfold older_targeted. by rewrite filter_cons. Qed.

Lemma older_push_each_runs s e route msg c servers :
  (∀ sv, sv ∈ servers → result (Service.getMembersBySid c (id sv)) s ≠ None) →
  (∀ sv, sv ∈ older_targeted c servers s →
         rpcReply e (id sv)
           (ChannelService.envelope route msg (older_members c (id sv) s)) ≠ None) →
  ∀ s0 acc, same_store s s0 →
  ∃ s1, Service.push_each e route msg c servers acc s0 =
        Done (acc ++ concat (map (λ sv, default [] (default None
                (rpcReply e (id sv)
                   (ChannelService.envelope route msg (older_members c (id sv) s)))))
              (older_targeted c servers s)))%list s1 ∧
        same_store s s1 ∧
        invoked s1 =
        (invoked s0 ++
         map (λ sv, (id sv, ChannelService.envelope route msg (older_members c (id sv) s)))
             (older_targeted c servers s))%list.
Proof.
  induction servers as [|sv servers IH]; intros Hreads Hreplies s0 acc Hsame.
  - exists s0. cbn. by rewrite !app_nil_r.
  - cbn [Service.push_each].
    destruct (older_read_same c (id sv) s s0 Hsame) as (s1 & E & Hm & Hsame1 & Hi1).
    { apply Hreads. by left. }
    rewrite (bind_Done _ _ _ _ _ E).
    rewrite older_targeted_cons in Hreplies |- *.
    assert (Hreads' : ∀ sv', sv' ∈ servers →
              result (Service.getMembersBySid c (id sv')) s ≠ None).
    { intros sv' H. apply Hreads. by right. }
    destruct (default None (result (Service.getMembersBySid c (id sv)) s))
      as [[|x l]|] eqn:Eu; cbn [nonempty default from_option Datatypes.id] in *.
    + rewrite decide_False in Hreplies |- * by (rewrite Hm; naive_solver).
      destruct (IH Hreads' Hreplies s1 acc Hsame1) as (s2 & -> & Hsame2 & Hi2).
      exists s2. by rewrite Hi2, Hi1.
    + rewrite decide_True in Hreplies |- * by (rewrite Hm; done).
      unfold bind at 1, ChannelService.rpcInvoke at 1.
      rewrite <- Hm.
      destruct (rpcReply e (id sv)
                  (ChannelService.envelope route msg (older_members c (id sv) s)))
        as [fails|] eqn:Ef.
      2:{ exfalso. apply (Hreplies sv); [by left | done]. }
      match goal with |- context [Service.push_each _ _ _ _ _ ?acc' ?s2] =>
        destruct (IH Hreads' (λ sv' H, Hreplies sv' (list_elem_of_further _ _ _ H))
                    s2 acc') as (s3 & -> & Hsame3 & Hi3)
      end.
      { destruct Hsame1 as (? & ? & ? & ?). by repeat split. }
      exists s3. split; [|split; [done|]].
      * f_equal. cbn [map concat]. rewrite Ef. cbn [default from_option Datatypes.id].
        destruct fails; cbn [default from_option Datatypes.id];
          by rewrite <- ?app_assoc.
      * rewrite Hi3. fields. rewrite Hi1. cbn [map]. by rewrite <- !app_assoc.
    + rewrite decide_False in Hreplies |- * by (rewrite Hm; naive_solver).
      destruct (IH Hreads' Hreplies s1 acc Hsame1) as (s2 & -> & Hsame2 & Hi2).
      exists s2. by rewrite Hi2, Hi1.
Qed.

(** X22. [pushMessage] of the older service, started, with a directory
    that is not empty, every server's set readable and every remote call
    answered without an error: it calls [rpcInvoke], in the order of the
    directory, for the servers whose [getMembersBySid] is not empty, each
    with the envelope [sys] / [channelRemote] / [pushMessage] and that
    server's members, and it returns the failed ids the servers answered,
    one answer after the other (an [undefined] answer adds nothing). *)
Theorem older_push_returns_fails s e gname stype route msg c o :
  state s = ST_STARTED →
  let servers := getServersByType (app s) stype in
  let call sv := ChannelService.envelope route msg (older_members c (id sv) s) in
  servers ≠ [] →
  (∀ sv, sv ∈ servers → result (Service.getMembersBySid c (id sv)) s ≠ None) →
  (∀ sv, sv ∈ older_targeted c servers s → rpcReply e (id sv) (call sv) ≠ None) →
  result (Service.pushMessage gname e stype route msg c o) s =
    Some (Some (concat (map (λ sv, default [] (default None (rpcReply e (id sv) (call sv))))
                            (older_targeted c servers s)))) ∧
  invoked (after (Service.pushMessage gname e stype route msg c o) s) =
    (invoked s ++ map (λ sv, (id sv, call sv)) (older_targeted c servers s))%list.
Proof.
  intros Hst servers call Hne Hreads Hreplies.
  unfold result, after, Service.pushMessage. rewrite !bind_get.
  rewrite bool_decide_eq_true_2 by done. rewrite !bind_get.
  change (getServersByType (app s) stype) with servers.
  destruct (older_push_each_runs s e route msg c servers Hreads Hreplies s [])
    as (s1 & E & _ & Hi); [by repeat split|].
  destruct servers as [|sv servers'] eqn:Es; [done|]. cbv beta iota.
  by rewrite !(bind_Done _ _ _ _ _ E).
Qed.

Lemma older_push_returns_fails_witness :
  let s := after (Service.add "lobby" "u3" "srvB")
             (after (Service.add "lobby" "u1" "srvA") lobby0) in
  let e := {| getServers := [];
              rpcReply := λ sid _, if String.eqb sid "srvB" then Some (Some ["u3"])
                                   else Some None |} in
  state s = ST_STARTED ∧ getServersByType (app s) "connector" ≠ [] ∧
  (∀ sv, sv ∈ getServersByType (app s) "connector" →
         result (Service.getMembersBySid "lobby" (id sv)) s ≠ None) ∧
  (∀ sv, sv ∈ older_targeted "lobby" (getServersByType (app s) "connector") s →
         rpcReply e (id sv)
           (ChannelService.envelope "chat" AUndefined (older_members "lobby" (id sv) s))
         ≠ None) ∧
  result (Service.pushMessage None e "connector" "chat" AUndefined "lobby" AUndefined) s =
  Some (Some ["u3"]).
Proof.
  intros s e.
  assert (H1 : state s = ST_STARTED) by (vm_compute; reflexivity).
  assert (H2 : getServersByType (app s) "connector" ≠ []) by (vm_compute; discriminate).
  assert (H3 : ∀ sv, sv ∈ getServersByType (app s) "connector" →
                     result (Service.getMembersBySid "lobby" (id sv)) s ≠ None).
  { intros sv Hsv. change (getServersByType (app s) "connector")
      with [ {| id := "srvA" |}; {| id := "srvB" |} ] in Hsv.
    repeat (apply elem_of_cons in Hsv as [->|Hsv]; [vm_compute; discriminate|]).
    by apply not_elem_of_nil in Hsv. }
  assert (H4 : ∀ sv, sv ∈ older_targeted "lobby" (getServersByType (app s) "connector") s →
             rpcReply e (id sv)
               (ChannelService.envelope "chat" AUndefined (older_members "lobby" (id sv) s))
             ≠ None).
  { intros sv _. unfold e. cbn [rpcReply]. by destruct (String.eqb (id sv) "srvB"). }
  repeat (split; [assumption|]).
  rewrite (proj1 (older_push_returns_fails s e None "connector" "chat" AUndefined "lobby"
                    AUndefined H1 H2 H3 H4)).
  vm_compute. reflexivity.
Defined.

Lemma older_push_each_throws s e route msg c servers :
  (∀ sv, sv ∈ servers → result (Service.getMembersBySid c (id sv)) s ≠ None) →
  ∀ pre sv post s0 acc,
  older_targeted c servers s = (pre ++ sv :: post)%list →
  (∀ sv', sv' ∈ pre →
          rpcReply e (id sv')
            (ChannelService.envelope route msg (older_members c (id sv') s)) ≠ None) →
  rpcReply e (id sv) (ChannelService.envelope route msg (older_members c (id sv) s)) = None →
  same_store s s0 →
  ∃ s1, Service.push_each e route msg c servers acc s0 = Thrown s1 ∧
        store s1 = store s ∧
        invoked s1 =
        (invoked s0 ++
         map (λ sv, (id sv, ChannelService.envelope route msg (older_members c (id sv) s)))
             (pre ++ [sv]))%list.
Proof.
  induction servers as [|sv0 servers IH];
    intros Hreads pre sv post s0 acc Ht Hpre Hsv Hsame.
  - by destruct pre.
  - cbn [Service.push_each].
    destruct (older_read_same c (id sv0) s s0 Hsame) as (s1 & E & Hm & Hsame1 & Hi1).
    { apply Hreads. by left. }
    rewrite (bind_Done _ _ _ _ _ E).
    rewrite older_targeted_cons in Ht.
    assert (Hreads' : ∀ sv', sv' ∈ servers →
              result (Service.getMembersBySid c (id sv')) s ≠ None).
    { intros sv' H. apply Hreads. by right. }
    destruct (default None (result (Service.getMembersBySid c (id sv0)) s))
      as [[|x l]|] eqn:Eu; cbn [nonempty default from_option Datatypes.id] in *.
    + rewrite decide_False in Ht by (rewrite Hm; naive_solver).
      destruct (IH Hreads' pre sv post s1 acc Ht Hpre Hsv Hsame1) as (s2 & -> & Hd & Hi2).
      exists s2. by rewrite Hi2, Hi1.
    + rewrite decide_True in Ht by (rewrite Hm; done).
      unfold bind at 1, ChannelService.rpcInvoke at 1. rewrite <- Hm.
      destruct pre as [|p pre'].
      * injection Ht as -> _. rewrite Hsv. unfold throw.
        eexists. split; [done|]. fields. destruct Hsame1 as (_ & _ & _ & Hd).
        split; [done|]. by rewrite Hi1.
      * injection Ht as -> Ht.
        destruct (rpcReply e (id p)
                    (ChannelService.envelope route msg (older_members c (id p) s)))
          as [fails|] eqn:Ef.
        2:{ exfalso. apply (Hpre p); [by left | done]. }
        match goal with |- context [Service.push_each _ _ _ _ _ ?acc' ?s2] =>
          destruct (IH Hreads' pre' sv post s2 acc' Ht
                      (λ sv' H, Hpre sv' (list_elem_of_further _ _ _ H)) Hsv)
            as (s3 & -> & Hd & Hi3)
        end.
        { destruct Hsame1 as (? & ? & ? & ?). by repeat split. }
        exists s3. split; [done|]. split; [done|].
        rewrite Hi3. fields. rewrite Hi1. cbn [map]. by rewrite <- !app_assoc.
    + rewrite decide_False in Ht by (rewrite Hm; naive_solver).
      destruct (IH Hreads' pre sv post s1 acc Ht Hpre Hsv Hsame1) as (s2 & -> & Hd & Hi2).
      exists s2. by rewrite Hi2, Hi1.
Qed.

(** X23. When a remote call of the older [pushMessage] answers with an
    error, the method rejects: the servers that come later in the
    directory are not called, and no key of the store has changed. The
    calls made are those to the servers with members up to the one that
    failed, that one included. *)
Theorem older_push_rejects s e gname stype route msg c o pre sv post :
  state s = ST_STARTED →
  let servers := getServersByType (app s) stype in
  let call sv := ChannelService.envelope route msg (older_members c (id sv) s) in
  (∀ sv, sv ∈ servers → result (Service.getMembersBySid c (id sv)) s ≠ None) →
  older_targeted c servers s = (pre ++ sv :: post)%list →
  (∀ sv', sv' ∈ pre → rpcReply e (id sv') (call sv') ≠ None) →
  rpcReply e (id sv) (call sv) = None →
  let s' := after (Service.pushMessage gname e stype route msg c o) s in
  result (Service.pushMessage gname e stype route msg c o) s = None ∧
  store s' = store s ∧
  invoked s' = (invoked s ++ map (λ sv, (id sv, call sv)) (pre ++ [sv]))%list.
Proof.
  intros Hst servers call Hreads Ht Hpre Hsv.
  unfold result, after, Service.pushMessage. rewrite !bind_get.
  rewrite bool_decide_eq_true_2 by done. rewrite !bind_get.
  change (getServersByType (app s) stype) with servers.
  destruct (older_push_each_throws s e route msg c servers Hreads pre sv post s [] Ht Hpre Hsv)
    as (s1 & E & Hd & Hi); [by repeat split|].
  destruct servers as [|sv0 servers'] eqn:Es; [by destruct pre|]. cbv beta iota.
  by rewrite !(bind_Thrown _ _ _ _ E).
Qed.

Lemma older_push_rejects_witness :
  let s := after (Service.add "lobby" "u3" "srvB")
             (after (Service.add "lobby" "u1" "srvA") lobby0) in
  let e := {| getServers := []; rpcReply := λ _ _, None |} in
  state s = ST_STARTED ∧
  (∀ sv, sv ∈ getServersByType (app s) "connector" →
         result (Service.getMembersBySid "lobby" (id sv)) s ≠ None) ∧
  older_targeted "lobby" (getServersByType (app s) "connector") s =
    ([] ++ {| id := "srvA" |} :: [ {| id := "srvB" |} ])%list ∧
  invoked (after (Service.pushMessage None e "connector" "chat" AUndefined "lobby"
                    AUndefined) s) =
  [("srvA", ChannelService.envelope "chat" AUndefined ["u1"])].
Proof.
  intros s e.
  assert (H1 : state s = ST_STARTED) by (vm_compute; reflexivity).
  assert (H2 : ∀ sv, sv ∈ getServersByType (app s) "connector" →
                     result (Service.getMembersBySid "lobby" (id sv)) s ≠ None).
  { intros sv Hsv. change (getServersByType (app s) "connector")
      with [ {| id := "srvA" |}; {| id := "srvB" |} ] in Hsv.
    repeat (apply elem_of_cons in Hsv as [->|Hsv]; [vm_compute; discriminate|]).
    by apply not_elem_of_nil in Hsv. }
  assert (H3 : older_targeted "lobby" (getServersByType (app s) "connector") s =
               ([] ++ {| id := "srvA" |} :: [ {| id := "srvB" |} ])%list).
  { vm_compute. reflexivity. }
  repeat (split; [assumption|]).
  rewrite (proj2 (proj2 (older_push_rejects s e None "connector" "chat" AUndefined "lobby"
                           AUndefined [] _ _ H1 H2 H3
                           (λ sv' H, False_ind _ (not_elem_of_nil sv' H)) eq_refl))).
  vm_compute. reflexivity.
Defined.

(** ** [leave] without a server: the user's set is read back and parsed *)

Lemma absent_both (d : db) k m h :
  set_at k d = Some m → hash_at k d = Some h → d !! k = None ∧ m = ∅ ∧ h = ∅.
Proof.
  unfold set_at, hash_at. destruct (d !! k) as [[?|?]|]; try done.
  by intros [= <-] [= <-].
Qed.

Lemma dwindled_refl d : dwindled d d.
Proof. split; intros k x Hx; by exists x. Qed.

Lemma dwindled_trans d1 d2 d3 : dwindled d1 d2 → dwindled d2 d3 → dwindled d1 d3.
Proof.
  intros [S1 H1] [S2 H2]. split.
  - intros k m Hm. destruct (S1 k m Hm) as (m' & Hm' & Hsub).
    destruct (S2 k m' Hm') as (m'' & Hm'' & Hsub'). exists m''.
    split; [done|]. by etrans.
  - intros k h Hh. destruct (H1 k h Hh) as (h' & Hh' & Hsub).
    destruct (H2 k h' Hh') as (h'' & Hh'' & Hsub'). exists h''.
    split; [done|]. by etrans.
Qed.

Lemma dwindled_put_set (d : db) k m m' :
  set_at k d = Some m → m' ⊆ m → dwindled d (put_set k m' d).
Proof.
  intros Hm Hsub. split.
  - intros k' mk Hk'. destruct (decide (k = k')) as [<-|Hne].
    + rewrite set_at_put_set. exists m'. split; [done|].
      by assert (mk = m) as -> by congruence.
    + rewrite set_at_put_set_ne by done. by exists mk.
  - intros k' h Hh. destruct (decide (k = k')) as [<-|Hne].
    + destruct (absent_both d k m h Hm Hh) as (Hk & -> & ->).
      assert (m' = ∅) as -> by (apply set_eq; intros x; split; [apply Hsub | done]).
      exists ∅. split; [|done]. unfold put_set, hash_at.
      rewrite decide_True by done. by rewrite lookup_delete_eq.
    + rewrite hash_at_put_set_ne by done. by exists h.
Qed.

Lemma dwindled_put_hash (d : db) k h h' :
  hash_at k d = Some h → h' ⊆ h → dwindled d (put_hash k h' d).
Proof.
  intros Hh Hsub. split.
  - intros k' m Hm. destruct (decide (k = k')) as [<-|Hne].
    + destruct (absent_both d k m h Hm Hh) as (Hk & -> & ->).
      assert (h' = ∅) as ->.
      { apply map_empty. intros i. destruct (h' !! i) eqn:E; [|done].
        eapply lookup_weaken in E; [|exact Hsub]. by rewrite lookup_empty in E. }
      exists ∅. split; [|done]. unfold put_hash, set_at.
      rewrite decide_True by done. by rewrite lookup_delete_eq.
    + rewrite set_at_put_hash_ne by done. by exists m.
  - intros k' hk Hk'. destruct (decide (k = k')) as [<-|Hne].
    + rewrite hash_at_put_hash. exists h'. split; [done|].
      by assert (hk = h) as -> by congruence.
    + rewrite hash_at_put_hash_ne by done. by exists hk.
Qed.

Lemma dwindled_not_in (d d' : db) k x :
  dwindled d d' → (∃ m, set_at k d = Some m ∧ x ∉ m) →
  ∃ m, set_at k d' = Some m ∧ x ∉ m.
Proof.
  intros [S _] (m & Hm & Hx). destruct (S k m Hm) as (m' & Hm' & Hsub).
  exists m'. split; [done|]. intros Hin. by apply Hx, Hsub.
Qed.

Lemma dwindled_no_field (d d' : db) k f :
  dwindled d d' → (∃ h, hash_at k d = Some h ∧ h !! f = None) →
  ∃ h, hash_at k d' = Some h ∧ h !! f = None.
Proof.
  intros [_ H] (h & Hh & Hf). destruct (H k h Hh) as (h' & Hh' & Hsub).
  exists h'. split; [done|]. destruct (h' !! f) eqn:E; [|done].
  eapply lookup_weaken in E; [|exact Hsub]. congruence.
Qed.

(** The three commands of the loop's body, whatever they are sent to:
    each takes something out or is refused. *)
Lemma srem_dwindles r k x s :
  ∃ s', (Client.srem r k x s = Done tt s' ∨ Client.srem r k x s = Thrown s') ∧
        dwindled (store s) (store s') ∧ state s' = state s ∧ redis s' = redis s ∧
        (∀ m, set_at (Client.key r k) (store s) = Some m →
              Client.srem r k x s = Done tt s' ∧
              store s' = put_set (Client.key r k) (m ∖ {[x]}) (store s)).
Proof.
  destruct (set_at (Client.key r k) (store s)) as [m|] eqn:E.
  - rewrite (srem_runs r k x s m E). eexists. split; [by left|]. fields.
    split; [|split; [done|split; [done|]]].
    + apply (dwindled_put_set _ _ m); [done | apply removed_subseteq].
    + intros m' [= <-]. done.
  - rewrite (srem_refused r k x s E). eexists. split; [by right|]. fields.
    split; [apply dwindled_refl|]. by repeat split.
Qed.

Lemma hdel_dwindles r k f s :
  ∃ s', (Client.hdel r k f s = Done tt s' ∨ Client.hdel r k f s = Thrown s') ∧
        dwindled (store s) (store s') ∧ state s' = state s ∧ redis s' = redis s ∧
        (∀ h, hash_at (Client.key r k) (store s) = Some h →
              Client.hdel r k f s = Done tt s' ∧
              store s' = put_hash (Client.key r k) (delete f h) (store s)).
Proof.
  destruct (hash_at (Client.key r k) (store s)) as [h|] eqn:E.
  - rewrite (hdel_runs r k f s h E). eexists. split; [by left|]. fields.
    split; [|split; [done|split; [done|]]].
    + apply (dwindled_put_hash _ _ h); [done | apply delete_subseteq].
    + intros h' [= <-]. done.
  - rewrite (hdel_refused r k f s E). eexists. split; [by right|]. fields.
    split; [apply dwindled_refl|]. by repeat split.
Qed.

Lemma leave_body_runs r name uid x sid' s :
  ∃ s', try_catch
          (wait Client.srem r (Manager.user_key uid) x;
           wait Client.srem r (Manager.server_key name sid') uid;
           Client.hdel r name uid) s = Done tt s' ∧
        dwindled (store s) (store s') ∧ state s' = state s ∧ redis s' = redis s ∧
        (∀ m1 m2 h,
           set_at (Client.key r (Manager.user_key uid)) (store s) = Some m1 →
           set_at (Client.key r (Manager.server_key name sid')) (store s) = Some m2 →
           hash_at (Client.key r name) (store s) = Some h →
           (∃ m, set_at (Client.key r (Manager.server_key name sid')) (store s') = Some m ∧
                 uid ∉ m) ∧
           (∃ h', hash_at (Client.key r name) (store s') = Some h' ∧ h' !! uid = None)).
Proof.
  unfold try_catch.
  destruct (srem_dwindles r (Manager.user_key uid) x s)
    as (s1 & E1 & D1 & St1 & R1 & F1).
  destruct (srem_dwindles r (Manager.server_key name sid') uid s1)
    as (s2 & E2 & D2 & St2 & R2 & F2).
  destruct (hdel_dwindles r name uid s2) as (s3 & E3 & D3 & St3 & R3 & F3).
  assert (D12 : dwindled (store s) (store s2)) by by eapply dwindled_trans.
  assert (D13 : dwindled (store s) (store s3)) by by eapply dwindled_trans.
  assert (Hfull : ∀ m1 m2 h,
    set_at (Client.key r (Manager.user_key uid)) (store s) = Some m1 →
    set_at (Client.key r (Manager.server_key name sid')) (store s) = Some m2 →
    hash_at (Client.key r name) (store s) = Some h →
    (wait Client.srem r (Manager.user_key uid) x;
     wait Client.srem r (Manager.server_key name sid') uid;
     Client.hdel r name uid) s = Done tt s3 ∧
    (∃ m, set_at (Client.key r (Manager.server_key name sid')) (store s3) = Some m ∧
          uid ∉ m) ∧
    (∃ h', hash_at (Client.key r name) (store s3) = Some h' ∧ h' !! uid = None)).
  { intros m1 m2 h H1 H2 H3.
    destruct (F1 m1 H1) as [E1' Hd1].
    destruct (proj1 D1 _ _ H2) as (m2' & H2' & _).
    destruct (F2 m2' H2') as [E2' Hd2].
    destruct (proj2 D12 _ _ H3) as (h' & H3' & _).
    destruct (F3 h' H3') as [E3' Hd3].
    split; [|split].
    - by rewrite (bind_Done _ _ _ _ _ E1'), (bind_Done _ _ _ _ _ E2').
    - apply (dwindled_not_in (store s2)); [done|].
      exists (m2' ∖ {[uid]}). rewrite Hd2, set_at_put_set.
      split; [done | apply not_in_removed].
    - exists (delete uid h'). rewrite Hd3, hash_at_put_hash.
      split; [done | apply lookup_delete_eq]. }
  destruct E1 as [E1|E1].
  2:{ rewrite (bind_Thrown _ _ _ _ E1). exists s1. split; [done|].
      split; [done|]. split; [done|]. split; [done|].
      intros m1 m2 h H1 H2 H3. destruct (Hfull m1 m2 h H1 H2 H3) as (E & _).
      by rewrite (bind_Thrown _ _ _ _ E1) in E. }
  rewrite (bind_Done _ _ _ _ _ E1).
  destruct E2 as [E2|E2].
  2:{ rewrite (bind_Thrown _ _ _ _ E2). exists s2. split; [done|].
      split; [done|]. split; [congruence|]. split; [congruence|].
      intros m1 m2 h H1 H2 H3. destruct (Hfull m1 m2 h H1 H2 H3) as (E & _).
      by rewrite (bind_Done _ _ _ _ _ E1), (bind_Thrown _ _ _ _ E2) in E. }
  rewrite (bind_Done _ _ _ _ _ E2).
  exists s3. split; [by destruct E3 as [-> | ->]|].
  split; [done|]. split; [congruence|]. split; [congruence|].
  intros m1 m2 h H1 H2 H3. by destruct (Hfull m1 m2 h H1 H2 H3) as (_ & ? & ?).
Qed.

Lemma leave_member_runs J r name uid text s :
  ∃ s', Manager.leave_member J r name uid text s = Done tt s' ∧
        dwindled (store s) (store s') ∧ state s' = state s ∧ redis s' = redis s.
Proof.
  unfold Manager.leave_member.
  destruct (JSON_parse J text) as [member|].
  2:{ exists s. split; [done|]. split; [apply dwindled_refl | done]. }
  case_bool_decide.
  - destruct (leave_body_runs r name uid (JSON_stringify J member)
                (member_sid J member) s) as (s' & E & D & St & R & _).
    by exists s'.
  - exists s. split; [done|]. split; [apply dwindled_refl | done].
Qed.

Lemma for_each_leave_member J r name uid l s :
  ∃ s', for_each l (Manager.leave_member J r name uid) s = Done tt s' ∧
        dwindled (store s) (store s') ∧ state s' = state s ∧ redis s' = redis s.
Proof.
  induction l as [|text l IH] in s |- *.
  - exists s. split; [done|]. split; [apply dwindled_refl | done].
  - cbn [for_each].
    destruct (leave_member_runs J r name uid text s) as (s1 & E1 & D1 & St1 & R1).
    destruct (IH s1) as (s2 & E2 & D2 & St2 & R2).
    exists s2. rewrite (bind_Done _ _ _ _ _ E1).
    split; [done|]. split; [by eapply dwindled_trans|]. split; congruence.
Qed.

Lemma for_each_app {A} (l1 l2 : list A) (f : A → Async unit) s :
  for_each (l1 ++ l2) f s = (wait for_each l1 f; for_each l2 f) s.
Proof.
  induction l1 as [|a l1 IH] in s |- *; [done|].
  rewrite <- app_comm_cons. cbn [for_each]. unfold bind in *.
  destruct (f a s); [apply IH | done].
Qed.

(** X24. The older [leave(name, uid)] with no server, after an
    [add(name, uid, sid)] that completed, in a started service, when
    [JSON.parse] reads the text that [add] wrote back as an object with
    that name and that server, which [JSON.stringify] prints as the same
    text. The call completes whatever else the user's set holds (an entry
    that does not parse, or whose commands are refused, is skipped), and
    after it [isMemberInChannel(name, uid)] answers [false] and
    [getMembersBySid(name, sid)] no longer lists the user. *)
Theorem older_leave_parsed s r J name uid sid member :
  state s = ST_STARTED → redis s = Some r →
  result (Service.add name uid sid) s = Some tt →
  JSON_parse J (JSON_stringify_entry name sid) = Some member →
  member_name J member = Some name → member_sid J member = sid →
  JSON_stringify J member = JSON_stringify_entry name sid →
  let s1 := after (Service.add name uid sid) s in
  let s2 := after (Service.leave J name uid None) s1 in
  result (Service.leave J name uid None) s1 = Some tt ∧
  result (Service.isMemberInChannel name uid) s2 = Some (ABool false) ∧
  ¬ listed uid (result (Service.getMembersBySid name sid) s2).
Proof.
  intros Hst Hr Hres Hparse Hname Hsid Hprint.
  destruct (older_add_views r s name uid sid Hst Hr Hres)
    as (Hst1 & Hr1 & (h & Hh & _) & (m2 & Hm2 & _) & (m1 & Hm1 & He) & _).
  cbn zeta. set (s1 := after (Service.add name uid sid) s) in *.
  set (e := JSON_stringify_entry name sid) in *.
  apply elem_of_elements, list_elem_of_split in He as (l1 & l2 & Hl).
  set (sa := sent (SMEMBERS (Client.key r (Manager.user_key uid))) s1).
  destruct (for_each_leave_member J r name uid l1 sa) as (sb & Eb & Db & Stb & Rb).
  destruct (proj1 Db _ _ Hm1) as (m1b & Hm1b & _).
  destruct (proj1 Db _ _ Hm2) as (m2b & Hm2b & _).
  destruct (proj2 Db _ _ Hh) as (hb & Hhb & _).
  destruct (leave_body_runs r name uid e sid sb) as (sc & Ec & Dc & Stc & Rc & Fc).
  destruct (Fc m1b m2b hb Hm1b Hm2b Hhb) as [Hout2 Hout3].
  destruct (for_each_leave_member J r name uid l2 sc) as (sd & Ed & Dd & Std & Rd).
  assert (E : Service.leave J name uid None s1 = Done tt sd).
  { unfold Service.leave. rewrite started_runs by done. unfold Manager.leave.
    rewrite bind_get, Hr1. cbn [truthy negb].
    rewrite (bind_Done _ _ _ _ _ (smembers_runs r _ s1 m1 Hm1)), Hl.
    fold sa. rewrite for_each_app, (bind_Done _ _ _ _ _ Eb). cbn [for_each].
    unfold Manager.leave_member at 1. rewrite Hparse, Hname.
    rewrite bool_decide_eq_true_2 by done. rewrite Hprint, Hsid. fold e.
    by rewrite (bind_Done _ _ _ _ _ Ec). }
  assert (Ea : after (Service.leave J name uid None) s1 = sd)
    by (unfold after; by rewrite E).
  rewrite Ea. unfold result at 1. rewrite E.
  assert (Hstd : state sd = ST_STARTED) by (rewrite Std, Stc, Stb; done).
  assert (Hrd : redis sd = Some r) by (rewrite Rd, Rc, Rb; done).
  destruct (dwindled_not_in _ _ _ uid Dd Hout2) as (m & Hm & Hnot).
  destruct (dwindled_no_field _ _ _ uid Dd Hout3) as (h' & Hh' & Hf).
  split; [done|]. split.
  - unfold result. by rewrite (older_ismember_runs r sd name uid h' Hstd Hrd Hh'), Hf.
  - rewrite (older_listed r sd name sid uid Hstd Hrd). intros (m' & Hm' & Hin).
    congruence.
Qed.

Lemma older_leave_parsed_witness :
  let J := {| json := unit;
              JSON_parse := λ text,
                if String.eqb text (JSON_stringify_entry "lobby" "srvA")
                then Some tt else None;
              JSON_stringify := λ _, JSON_stringify_entry "lobby" "srvA";
              member_name := λ _, Some "lobby";
              member_sid := λ _, "srvA" |} in
  state lobby0 = ST_STARTED ∧ redis lobby0 = Some {| prefix := "" |} ∧
  result (Service.add "lobby" "u1" "srvA") lobby0 = Some tt ∧
  JSON_parse J (JSON_stringify_entry "lobby" "srvA") = Some tt ∧
  result (Service.isMemberInChannel "lobby" "u1")
    (after (Service.leave J "lobby" "u1" None)
       (after (Service.add "lobby" "u1" "srvA") lobby0)) = Some (ABool false).
Proof.
  intros J.
  assert (H1 : state lobby0 = ST_STARTED) by (vm_compute; reflexivity).
  assert (H2 : redis lobby0 = Some {| prefix := "" |}) by (vm_compute; reflexivity).
  assert (H3 : result (Service.add "lobby" "u1" "srvA") lobby0 = Some tt)
    by (vm_compute; reflexivity).
  assert (H4 : JSON_parse J (JSON_stringify_entry "lobby" "srvA") = Some tt)
    by (vm_compute; reflexivity).
  repeat (split; [assumption|]).
  exact (proj1 (proj2 (older_leave_parsed lobby0 _ J "lobby" "u1" "srvA" tt
                         H1 H2 H3 H4 eq_refl eq_refl eq_refl))).
Defined.

(** X25. [getChannelsByMember(uid)] of the older service after an
    [add(name, uid, sid)] that completed: the answer has one element for
    each text in the user's set, none twice, and among them what
    [JSON.parse] makes of the text [add] wrote, or that text itself if it
    does not parse. *)
Theorem older_channels_of s r J name uid sid :
  state s = ST_STARTED → redis s = Some r →
  result (Service.add name uid sid) s = Some tt →
  let s1 := after (Service.add name uid sid) s in
  ∃ texts,
    NoDup texts ∧ JSON_stringify_entry name sid ∈ texts ∧
    result (Service.getChannelsByMember J uid) s1 =
    Some (map (λ text, match JSON_parse J text with
                       | Some v => inr v
                       | None => inl text
                       end) texts).
Proof.
  intros Hst Hr Hres.
  destruct (older_add_views r s name uid sid Hst Hr Hres)
    as (Hst1 & Hr1 & _ & _ & (m1 & Hm1 & He) & _).
  cbn zeta. set (s1 := after (Service.add name uid sid) s) in *.
  exists (elements m1). split; [apply NoDup_elements|].
  split; [by apply elem_of_elements|].
  unfold result, Service.getChannelsByMember. rewrite started_runs by done.
  unfold Manager.getChannelsByUid. rewrite bind_get, Hr1.
  by rewrite (bind_Done _ _ _ _ _ (smembers_runs r _ s1 m1 Hm1)).
Qed.

Lemma older_channels_of_witness :
  state lobby0 = ST_STARTED ∧ redis lobby0 = Some {| prefix := "" |} ∧
  result (Service.add "lobby" "u1" "srvA") lobby0 = Some tt ∧
  ∀ J, ∃ texts,
    JSON_stringify_entry "lobby" "srvA" ∈ texts ∧
    result (Service.getChannelsByMember J "u1")
           (after (Service.add "lobby" "u1" "srvA") lobby0) =
    Some (map (λ text, match JSON_parse J text with
                       | Some v => inr v
                       | None => inl text
                       end) texts).
Proof.
  assert (H1 : state lobby0 = ST_STARTED) by (vm_compute; reflexivity).
  assert (H2 : redis lobby0 = Some {| prefix := "" |}) by (vm_compute; reflexivity).
  assert (H3 : result (Service.add "lobby" "u1" "srvA") lobby0 = Some tt)
    by (vm_compute; reflexivity).
  repeat (split; [assumption|]).
  intros J.
  destruct (older_channels_of lobby0 _ J "lobby" "u1" "srvA" H1 H2 H3)
    as (texts & _ & Hin & E).
  exists texts. exact (conj Hin E).
Defined.
